(** * Contact solver of ReactPhysics3D: a shallow embedding

    This development embeds [src/systems/ConstraintSolverSystem.cpp]
    (class [ContactSolverSystem]) and states the properties of its four
    phases: [init], [warmStart], [solve] and [storeImpulses].

    Modelling conventions.
    - [decimal] (a C++ floating-point type) is idealised as the real numbers
      [R]: rounding, infinities and NaN are outside the model, and the cast
      [float(...)] of line 537 is the identity.
    - Arrays are lists, read with [get] and written with [update]; an index out
      of range reads a default value and writes nothing (the source asserts or
      has undefined behaviour there).
    - [uint] and [int8] counters are natural numbers; array sizes stay far
      below the wrap-around bound.
    - References such as [const Vector3& v1 = mConstrainedLinearVelocities[i]]
      alias the array: every use of [v1] is modelled as a read of the current
      store, never as a copy taken when the reference was bound. *)

From Stdlib Require Import Reals Lra Lia List Bool Arith Psatz.
Import ListNotations.

Open Scope R_scope.

(** ** Arrays *)

Definition get {A : Type} (d : A) (l : list A) (i : nat) : A := nth i l d.

Fixpoint update {A : Type} (i : nat) (f : A -> A) (l : list A) : list A :=
  match l, i with
  | [], _ => []
  | a :: l', O => f a :: l'
  | a :: l', S i' => a :: update i' f l'
  end.

(** [for (i = start; i < start + count; i++) body(i)] *)
Fixpoint for_loop {S : Type} (start count : nat) (body : nat -> S -> S) (s : S) : S :=
  match count with
  | O => s
  | Datatypes.S n => for_loop (Datatypes.S start) n body (body start s)
  end.

(** ** Comparisons of decimals as booleans *)

Definition Rltb (a b : R) : bool := if Rlt_dec a b then true else false.
Definition Rgtb (a b : R) : bool := Rltb b a.

(** ** Vector3 and Matrix3x3 *)

Record Vector3 : Type := mkVector3 { x : R; y : R; z : R }.

Module Vec.

Definition zero : Vector3 := mkVector3 0 0 0.

Definition add (a b : Vector3) : Vector3 :=
  mkVector3 (x a + x b) (y a + y b) (z a + z b).

Definition sub (a b : Vector3) : Vector3 :=
  mkVector3 (x a - x b) (y a - y b) (z a - z b).

Definition neg (a : Vector3) : Vector3 := mkVector3 (- x a) (- y a) (- z a).

(** [decimal * Vector3] *)
Definition scale (k : R) (a : Vector3) : Vector3 :=
  mkVector3 (k * x a) (k * y a) (k * z a).

(** [Vector3 * decimal], written with the vector on the left as in the source *)
Definition mulr (a : Vector3) (k : R) : Vector3 :=
  mkVector3 (x a * k) (y a * k) (z a * k).

(** [Vector3 / decimal] *)
Definition div (a : Vector3) (k : R) : Vector3 :=
  mkVector3 (x a / k) (y a / k) (z a / k).

Definition dot (a b : Vector3) : R := x a * x b + y a * y b + z a * z b.

Definition cross (a b : Vector3) : Vector3 :=
  mkVector3 (y a * z b - z a * y b) (z a * x b - x a * z b) (x a * y b - y a * x b).

Definition lengthSquare (a : Vector3) : R := x a * x a + y a * y a + z a * z a.

Definition length (a : Vector3) : R := sqrt (lengthSquare a).

(** [v[j]] and [v[j] = k] for an axis [j] in 0..2 *)
Definition axis (a : Vector3) (j : nat) : R :=
  match j with O => x a | 1%nat => y a | _ => z a end.

Definition setAxis (a : Vector3) (j : nat) (k : R) : Vector3 :=
  match j with
  | O => mkVector3 k (y a) (z a)
  | 1%nat => mkVector3 (x a) k (z a)
  | _ => mkVector3 (x a) (y a) k
  end.

(** Modelled from the spec: [Vector3::getUnit] and [Vector3::normalize]
    belong to the mathematics library, which is not part of the solver's
    source file.  The spec reads "Normalize accumulated manifold normal" and
    "frictionVector2 = unit(n x frictionVector1)": the vector divided by its
    length. *)
Definition getUnit (a : Vector3) : Vector3 := div a (length a).

Definition normalize (a : Vector3) : Vector3 := getUnit a.

End Vec.

Record Matrix3x3 : Type := mkMatrix3x3 { row0 : Vector3; row1 : Vector3; row2 : Vector3 }.

Module Mat.

Definition zero : Matrix3x3 := mkMatrix3x3 Vec.zero Vec.zero Vec.zero.

Definition add (a b : Matrix3x3) : Matrix3x3 :=
  mkMatrix3x3 (Vec.add (row0 a) (row0 b)) (Vec.add (row1 a) (row1 b))
              (Vec.add (row2 a) (row2 b)).

(** [Matrix3x3 * Vector3] *)
Definition mulv (m : Matrix3x3) (v : Vector3) : Vector3 :=
  mkVector3 (Vec.dot (row0 m) v) (Vec.dot (row1 m) v) (Vec.dot (row2 m) v).

Definition getDeterminant (m : Matrix3x3) : R :=
  Vec.dot (row0 m) (Vec.cross (row1 m) (row2 m)).

(** Modelled from the spec: [Matrix3x3::getInverse] is part of the missing
    mathematics library; "else invert" is the adjugate over the
    determinant. *)
Definition getInverse (m : Matrix3x3) : Matrix3x3 :=
  let d := getDeterminant m in
  let c0 := Vec.cross (row1 m) (row2 m) in
  let c1 := Vec.cross (row2 m) (row0 m) in
  let c2 := Vec.cross (row0 m) (row1 m) in
  mkMatrix3x3 (mkVector3 (x c0 / d) (x c1 / d) (x c2 / d))
              (mkVector3 (y c0 / d) (y c1 / d) (y c2 / d))
              (mkVector3 (z c0 / d) (z c1 / d) (z c2 / d)).

End Mat.

(** ** External collaborators *)

(** Entities are stable identifiers handed out by the engine. *)
Definition Entity : Type := nat.

Inductive BodyType : Type := STATIC | KINEMATIC | DYNAMIC.

Definition isDynamic (t : BodyType) : bool :=
  match t with DYNAMIC => true | _ => false end.

(** Collider material accessors. *)
Module Material.
Record t : Type := mk {
  getBounciness : R;
  getFrictionCoefficient : R;
  getRollingResistance : R
}.
End Material.

(** External contact point ([ContactPoint]), named after its accessors. *)
Module ContactPoint.
Record t : Type := mk {
  getLocalPointOnShape1 : Vector3;
  getLocalPointOnShape2 : Vector3;
  getNormal : Vector3;
  getPenetrationDepth : R;
  getIsRestingContact : bool;
  getPenetrationImpulse : R
}.

Definition setIsRestingContact (b : bool) (p : t) : t :=
  mk (getLocalPointOnShape1 p) (getLocalPointOnShape2 p) (getNormal p)
     (getPenetrationDepth p) b (getPenetrationImpulse p).

Definition setPenetrationImpulse (k : R) (p : t) : t :=
  mk (getLocalPointOnShape1 p) (getLocalPointOnShape2 p) (getNormal p)
     (getPenetrationDepth p) (getIsRestingContact p) k.

Definition default : t := mk Vec.zero Vec.zero Vec.zero 0 false 0.
End ContactPoint.

(** External contact manifold ([ContactManifold]). *)
Module ContactManifold.
Record t : Type := mk {
  bodyEntity1 : Entity;
  bodyEntity2 : Entity;
  colliderEntity1 : Entity;
  colliderEntity2 : Entity;
  nbContactPoints : nat;
  contactPointsIndex : nat;
  frictionVector1 : Vector3;
  frictionVector2 : Vector3;
  frictionImpulse1 : R;
  frictionImpulse2 : R;
  frictionTwistImpulse : R;
  rollingResistanceImpulse : Vector3
}.

(** The six assignments at the end of [storeImpulses]. *)
Definition store (i1 i2 tw : R) (roll f1 f2 : Vector3) (m : t) : t :=
  mk (bodyEntity1 m) (bodyEntity2 m) (colliderEntity1 m) (colliderEntity2 m)
     (nbContactPoints m) (contactPointsIndex m) f1 f2 i1 i2 tw roll.

Definition default : t :=
  mk 0%nat 0%nat 0%nat 0%nat 0%nat 0%nat Vec.zero Vec.zero 0 0 0 Vec.zero.
End ContactManifold.

(** The island table ([Islands]). *)
Module Islands.
Record t : Type := mk {
  getNbIslands : nat;
  nbContactManifolds : list nat;
  contactManifoldsIndices : list nat
}.
End Islands.

(** The columns of the rigid-body structure of arrays, indexed by row. *)
Module RigidBodyComponents.
Record t : Type := mk {
  mCentersOfMassWorld : list Vector3;
  mLinearVelocities : list Vector3;
  mAngularVelocities : list Vector3;
  mConstrainedLinearVelocities : list Vector3;
  mConstrainedAngularVelocities : list Vector3;
  mSplitLinearVelocities : list Vector3;
  mSplitAngularVelocities : list Vector3;
  mInverseMasses : list R;
  mLinearVelocitiesFactors : list Vector3;
  mAngularVelocitiesFactors : list Vector3
}.

Definition modLinearVelocities (i : nat) (f : Vector3 -> Vector3) (b : t) : t :=
  mk (mCentersOfMassWorld b) (update i f (mLinearVelocities b)) (mAngularVelocities b)
     (mConstrainedLinearVelocities b) (mConstrainedAngularVelocities b)
     (mSplitLinearVelocities b) (mSplitAngularVelocities b) (mInverseMasses b)
     (mLinearVelocitiesFactors b) (mAngularVelocitiesFactors b).

Definition modAngularVelocities (i : nat) (f : Vector3 -> Vector3) (b : t) : t :=
  mk (mCentersOfMassWorld b) (mLinearVelocities b) (update i f (mAngularVelocities b))
     (mConstrainedLinearVelocities b) (mConstrainedAngularVelocities b)
     (mSplitLinearVelocities b) (mSplitAngularVelocities b) (mInverseMasses b)
     (mLinearVelocitiesFactors b) (mAngularVelocitiesFactors b).

Definition modConstrainedLinearVelocities (i : nat) (f : Vector3 -> Vector3) (b : t) : t :=
  mk (mCentersOfMassWorld b) (mLinearVelocities b) (mAngularVelocities b)
     (update i f (mConstrainedLinearVelocities b)) (mConstrainedAngularVelocities b)
     (mSplitLinearVelocities b) (mSplitAngularVelocities b) (mInverseMasses b)
     (mLinearVelocitiesFactors b) (mAngularVelocitiesFactors b).

Definition modConstrainedAngularVelocities (i : nat) (f : Vector3 -> Vector3) (b : t) : t :=
  mk (mCentersOfMassWorld b) (mLinearVelocities b) (mAngularVelocities b)
     (mConstrainedLinearVelocities b) (update i f (mConstrainedAngularVelocities b))
     (mSplitLinearVelocities b) (mSplitAngularVelocities b) (mInverseMasses b)
     (mLinearVelocitiesFactors b) (mAngularVelocitiesFactors b).

Definition modSplitLinearVelocities (i : nat) (f : Vector3 -> Vector3) (b : t) : t :=
  mk (mCentersOfMassWorld b) (mLinearVelocities b) (mAngularVelocities b)
     (mConstrainedLinearVelocities b) (mConstrainedAngularVelocities b)
     (update i f (mSplitLinearVelocities b)) (mSplitAngularVelocities b) (mInverseMasses b)
     (mLinearVelocitiesFactors b) (mAngularVelocitiesFactors b).

Definition modSplitAngularVelocities (i : nat) (f : Vector3 -> Vector3) (b : t) : t :=
  mk (mCentersOfMassWorld b) (mLinearVelocities b) (mAngularVelocities b)
     (mConstrainedLinearVelocities b) (mConstrainedAngularVelocities b)
     (mSplitLinearVelocities b) (update i f (mSplitAngularVelocities b)) (mInverseMasses b)
     (mLinearVelocitiesFactors b) (mAngularVelocitiesFactors b).
End RigidBodyComponents.

(** What [init] reads from the other component stores and from the world.
    The entity-indexed accessors are functions of the entity. *)
Module World.
Record t : Type := mk {
  (** [mRigidBodyComponents.getEntityIndex] *)
  getEntityIndex : Entity -> nat;
  (** [RigidBody::getWorldInertiaTensorInverse(mWorld, entity)] *)
  getWorldInertiaTensorInverse : Entity -> Matrix3x3;
  (** [mBodyComponents.getBody(entity)->getType()] *)
  getType : Entity -> BodyType;
  (** [mColliderComponents.getLocalToWorldTransform(entity) * point] *)
  getLocalToWorldTransform : Entity -> Vector3 -> Vector3;
  (** [mColliderComponents.getCollider(entity)->getMaterial()] *)
  getMaterial : Entity -> Material.t
}.
End World.

(** ** Solver-internal records *)

(** [ContactPointSolver]; [externalContact] is the index of the external
    contact point in [mAllContactPoints]. *)
Module ContactPointSolver.
Record t : Type := mk {
  externalContact : nat;
  normal : Vector3;
  r1 : Vector3;
  r2 : Vector3;
  penetrationDepth : R;
  isRestingContact : bool;
  penetrationImpulse : R;
  penetrationSplitImpulse : R;
  i1TimesR1CrossN : Vector3;
  i2TimesR2CrossN : Vector3;
  inversePenetrationMass : R;
  restitutionBias : R
}.

Definition set_penetrationImpulse (k : R) (p : t) : t :=
  mk (externalContact p) (normal p) (r1 p) (r2 p) (penetrationDepth p)
     (isRestingContact p) k (penetrationSplitImpulse p) (i1TimesR1CrossN p)
     (i2TimesR2CrossN p) (inversePenetrationMass p) (restitutionBias p).

Definition set_penetrationSplitImpulse (k : R) (p : t) : t :=
  mk (externalContact p) (normal p) (r1 p) (r2 p) (penetrationDepth p)
     (isRestingContact p) (penetrationImpulse p) k (i1TimesR1CrossN p)
     (i2TimesR2CrossN p) (inversePenetrationMass p) (restitutionBias p).

Definition default : t :=
  mk 0%nat Vec.zero Vec.zero Vec.zero 0 false 0 0 Vec.zero Vec.zero 0 0.
End ContactPointSolver.

(** [ContactManifoldSolver]; [externalContactManifold] is the index of the
    external manifold in [mAllContactManifolds]. *)
Module ContactManifoldSolver.
Record t : Type := mk {
  externalContactManifold : nat;
  rigidBodyComponentIndexBody1 : nat;
  rigidBodyComponentIndexBody2 : nat;
  massInverseBody1 : R;
  massInverseBody2 : R;
  inverseInertiaTensorBody1 : Matrix3x3;
  inverseInertiaTensorBody2 : Matrix3x3;
  nbContacts : nat;
  frictionCoefficient : R;
  rollingResistanceFactor : R;
  frictionPointBody1 : Vector3;
  frictionPointBody2 : Vector3;
  r1Friction : Vector3;
  r2Friction : Vector3;
  r1CrossT1 : Vector3;
  r1CrossT2 : Vector3;
  r2CrossT1 : Vector3;
  r2CrossT2 : Vector3;
  inverseFriction1Mass : R;
  inverseFriction2Mass : R;
  inverseTwistFrictionMass : R;
  inverseRollingResistance : Matrix3x3;
  normal : Vector3;
  frictionVector1 : Vector3;
  frictionVector2 : Vector3;
  oldFrictionVector1 : Vector3;
  oldFrictionVector2 : Vector3;
  friction1Impulse : R;
  friction2Impulse : R;
  frictionTwistImpulse : R;
  rollingResistanceImpulse : Vector3
}.

(** Assignment of the four accumulated impulses, the only fields written
    after [initializeForIsland]. *)
Definition set_impulses (i1 i2 tw : R) (roll : Vector3) (c : t) : t :=
  mk (externalContactManifold c) (rigidBodyComponentIndexBody1 c)
     (rigidBodyComponentIndexBody2 c) (massInverseBody1 c) (massInverseBody2 c)
     (inverseInertiaTensorBody1 c) (inverseInertiaTensorBody2 c) (nbContacts c)
     (frictionCoefficient c) (rollingResistanceFactor c) (frictionPointBody1 c)
     (frictionPointBody2 c) (r1Friction c) (r2Friction c) (r1CrossT1 c) (r1CrossT2 c)
     (r2CrossT1 c) (r2CrossT2 c) (inverseFriction1Mass c) (inverseFriction2Mass c)
     (inverseTwistFrictionMass c) (inverseRollingResistance c) (normal c)
     (frictionVector1 c) (frictionVector2 c) (oldFrictionVector1 c)
     (oldFrictionVector2 c) i1 i2 tw roll.

Definition set_friction1Impulse (k : R) (c : t) : t :=
  set_impulses k (friction2Impulse c) (frictionTwistImpulse c) (rollingResistanceImpulse c) c.

Definition set_friction2Impulse (k : R) (c : t) : t :=
  set_impulses (friction1Impulse c) k (frictionTwistImpulse c) (rollingResistanceImpulse c) c.

Definition set_frictionTwistImpulse (k : R) (c : t) : t :=
  set_impulses (friction1Impulse c) (friction2Impulse c) k (rollingResistanceImpulse c) c.

Definition set_rollingResistanceImpulse (v : Vector3) (c : t) : t :=
  set_impulses (friction1Impulse c) (friction2Impulse c) (frictionTwistImpulse c) v c.

Definition default : t :=
  mk 0%nat 0%nat 0%nat 0 0 Mat.zero Mat.zero 0%nat 0 0 Vec.zero Vec.zero Vec.zero
     Vec.zero Vec.zero Vec.zero Vec.zero Vec.zero 0 0 0 Mat.zero Vec.zero Vec.zero
     Vec.zero Vec.zero Vec.zero 0 0 0 Vec.zero.
End ContactManifoldSolver.

Module CPS := ContactPointSolver.
Module CMS := ContactManifoldSolver.
Module RBC := RigidBodyComponents.

(** ** The solver and the stores it shares with the engine

    [mContactConstraints] and [mContactPoints] are the frame-arena arrays: the
    placement-[new] at index [mNbContactManifolds] (resp. [mNbContactPoints])
    followed by the increment of the counter is an append, and [nullptr] is
    the empty list. *)
Record ContactSolverSystem : Type := mkContactSolverSystem {
  mTimeStep : R;
  mContactConstraints : list CMS.t;
  mContactPoints : list CPS.t;
  mNbContactPoints : nat;
  mNbContactManifolds : nat;
  mIsSplitImpulseActive : bool;
  mRestitutionVelocityThreshold : R;
  mIslands : Islands.t;
  mAllContactManifolds : list ContactManifold.t;
  mAllContactPoints : list ContactPoint.t;
  mRigidBodyComponents : RBC.t;
  mWorld : World.t
}.

Definition set_mTimeStep (k : R) (s : ContactSolverSystem) : ContactSolverSystem :=
  mkContactSolverSystem k (mContactConstraints s) (mContactPoints s) (mNbContactPoints s)
    (mNbContactManifolds s) (mIsSplitImpulseActive s) (mRestitutionVelocityThreshold s)
    (mIslands s) (mAllContactManifolds s) (mAllContactPoints s) (mRigidBodyComponents s)
    (mWorld s).

Definition set_mContactConstraints (l : list CMS.t) (s : ContactSolverSystem)
  : ContactSolverSystem :=
  mkContactSolverSystem (mTimeStep s) l (mContactPoints s) (mNbContactPoints s)
    (mNbContactManifolds s) (mIsSplitImpulseActive s) (mRestitutionVelocityThreshold s)
    (mIslands s) (mAllContactManifolds s) (mAllContactPoints s) (mRigidBodyComponents s)
    (mWorld s).

Definition set_mContactPoints (l : list CPS.t) (s : ContactSolverSystem)
  : ContactSolverSystem :=
  mkContactSolverSystem (mTimeStep s) (mContactConstraints s) l (mNbContactPoints s)
    (mNbContactManifolds s) (mIsSplitImpulseActive s) (mRestitutionVelocityThreshold s)
    (mIslands s) (mAllContactManifolds s) (mAllContactPoints s) (mRigidBodyComponents s)
    (mWorld s).

Definition set_mNbContactPoints (n : nat) (s : ContactSolverSystem) : ContactSolverSystem :=
  mkContactSolverSystem (mTimeStep s) (mContactConstraints s) (mContactPoints s) n
    (mNbContactManifolds s) (mIsSplitImpulseActive s) (mRestitutionVelocityThreshold s)
    (mIslands s) (mAllContactManifolds s) (mAllContactPoints s) (mRigidBodyComponents s)
    (mWorld s).

Definition set_mNbContactManifolds (n : nat) (s : ContactSolverSystem) : ContactSolverSystem :=
  mkContactSolverSystem (mTimeStep s) (mContactConstraints s) (mContactPoints s)
    (mNbContactPoints s) n (mIsSplitImpulseActive s) (mRestitutionVelocityThreshold s)
    (mIslands s) (mAllContactManifolds s) (mAllContactPoints s) (mRigidBodyComponents s)
    (mWorld s).

Definition set_mAllContactManifolds (l : list ContactManifold.t) (s : ContactSolverSystem)
  : ContactSolverSystem :=
  mkContactSolverSystem (mTimeStep s) (mContactConstraints s) (mContactPoints s)
    (mNbContactPoints s) (mNbContactManifolds s) (mIsSplitImpulseActive s)
    (mRestitutionVelocityThreshold s) (mIslands s) l (mAllContactPoints s)
    (mRigidBodyComponents s) (mWorld s).

Definition set_mAllContactPoints (l : list ContactPoint.t) (s : ContactSolverSystem)
  : ContactSolverSystem :=
  mkContactSolverSystem (mTimeStep s) (mContactConstraints s) (mContactPoints s)
    (mNbContactPoints s) (mNbContactManifolds s) (mIsSplitImpulseActive s)
    (mRestitutionVelocityThreshold s) (mIslands s) (mAllContactManifolds s) l
    (mRigidBodyComponents s) (mWorld s).

Definition set_mRigidBodyComponents (b : RBC.t) (s : ContactSolverSystem)
  : ContactSolverSystem :=
  mkContactSolverSystem (mTimeStep s) (mContactConstraints s) (mContactPoints s)
    (mNbContactPoints s) (mNbContactManifolds s) (mIsSplitImpulseActive s)
    (mRestitutionVelocityThreshold s) (mIslands s) (mAllContactManifolds s)
    (mAllContactPoints s) b (mWorld s).

(** ** Reading and writing the stores through the solver *)

Definition constraint (s : ContactSolverSystem) (c : nat) : CMS.t :=
  get CMS.default (mContactConstraints s) c.

Definition point (s : ContactSolverSystem) (i : nat) : CPS.t :=
  get CPS.default (mContactPoints s) i.

Definition modConstraint (c : nat) (f : CMS.t -> CMS.t) (s : ContactSolverSystem)
  : ContactSolverSystem :=
  set_mContactConstraints (update c f (mContactConstraints s)) s.

Definition modPoint (i : nat) (f : CPS.t -> CPS.t) (s : ContactSolverSystem)
  : ContactSolverSystem :=
  set_mContactPoints (update i f (mContactPoints s)) s.

Definition LV (s : ContactSolverSystem) (i : nat) : Vector3 :=
  get Vec.zero (RBC.mLinearVelocities (mRigidBodyComponents s)) i.
Definition AV (s : ContactSolverSystem) (i : nat) : Vector3 :=
  get Vec.zero (RBC.mAngularVelocities (mRigidBodyComponents s)) i.
Definition CLV (s : ContactSolverSystem) (i : nat) : Vector3 :=
  get Vec.zero (RBC.mConstrainedLinearVelocities (mRigidBodyComponents s)) i.
Definition CAV (s : ContactSolverSystem) (i : nat) : Vector3 :=
  get Vec.zero (RBC.mConstrainedAngularVelocities (mRigidBodyComponents s)) i.
Definition SLV (s : ContactSolverSystem) (i : nat) : Vector3 :=
  get Vec.zero (RBC.mSplitLinearVelocities (mRigidBodyComponents s)) i.
Definition SAV (s : ContactSolverSystem) (i : nat) : Vector3 :=
  get Vec.zero (RBC.mSplitAngularVelocities (mRigidBodyComponents s)) i.
Definition LVF (s : ContactSolverSystem) (i : nat) : Vector3 :=
  get Vec.zero (RBC.mLinearVelocitiesFactors (mRigidBodyComponents s)) i.
Definition AVF (s : ContactSolverSystem) (i : nat) : Vector3 :=
  get Vec.zero (RBC.mAngularVelocitiesFactors (mRigidBodyComponents s)) i.

Definition modLV (i : nat) (f : Vector3 -> Vector3) (s : ContactSolverSystem) :=
  set_mRigidBodyComponents (RBC.modLinearVelocities i f (mRigidBodyComponents s)) s.
Definition modAV (i : nat) (f : Vector3 -> Vector3) (s : ContactSolverSystem) :=
  set_mRigidBodyComponents (RBC.modAngularVelocities i f (mRigidBodyComponents s)) s.
Definition modCLV (i : nat) (f : Vector3 -> Vector3) (s : ContactSolverSystem) :=
  set_mRigidBodyComponents (RBC.modConstrainedLinearVelocities i f (mRigidBodyComponents s)) s.
Definition modCAV (i : nat) (f : Vector3 -> Vector3) (s : ContactSolverSystem) :=
  set_mRigidBodyComponents (RBC.modConstrainedAngularVelocities i f (mRigidBodyComponents s)) s.
Definition modSLV (i : nat) (f : Vector3 -> Vector3) (s : ContactSolverSystem) :=
  set_mRigidBodyComponents (RBC.modSplitLinearVelocities i f (mRigidBodyComponents s)) s.
Definition modSAV (i : nat) (f : Vector3 -> Vector3) (s : ContactSolverSystem) :=
  set_mRigidBodyComponents (RBC.modSplitAngularVelocities i f (mRigidBodyComponents s)) s.

(** [v[j] *= f[j]] *)
Definition scaleAxis (j : nat) (f : Vector3) (v : Vector3) : Vector3 :=
  Vec.setAxis v j (Vec.axis v j * Vec.axis f j).

(** ** Constants *)

Definition BETA : R := 2 / 10.
Definition BETA_SPLIT_IMPULSE : R := 2 / 10.
Definition SLOP : R := 1 / 100.

(** ** Mixing of the collider materials *)

Definition computeMixedRestitutionFactor (m1 m2 : Material.t) : R :=
  let restitution1 := Material.getBounciness m1 in
  let restitution2 := Material.getBounciness m2 in
  if Rgtb restitution1 restitution2 then restitution1 else restitution2.

Definition computeMixedFrictionCoefficient (m1 m2 : Material.t) : R :=
  sqrt (Material.getFrictionCoefficient m1 * Material.getFrictionCoefficient m2).

Definition computeMixedRollingResistance (m1 m2 : Material.t) : R :=
  (1 / 2) * (Material.getRollingResistance m1 + Material.getRollingResistance m2).

(** [k > 0 ? 1 / k : 0], the guarded reciprocal of an effective mass *)
Definition inverseMass (k : R) : R := if Rgtb k 0 then 1 / k else 0.

(** The velocity difference as [initializeForIsland] writes it out
    (lines 204-209 and 294-305).  The last product of every component is
    subtracted, where the cross product [w1 x r1] of the comment above it
    would have it added. *)
Definition deltaV_init (v1 w1 v2 w2 r1 r2 : Vector3) : Vector3 :=
  mkVector3
    (x v2 + y w2 * z r2 - z w2 * y r2 - x v1 - y w1 * z r1 - z w1 * y r1)
    (y v2 + z w2 * x r2 - x w2 * z r2 - y v1 - z w1 * x r1 - x w1 * z r1)
    (z v2 + x w2 * y r2 - y w2 * x r2 - z v1 - x w1 * y r1 - y w1 * x r1).

(** The velocity difference as [solve] writes it out (lines 523-528, 606-611,
    653-660 and 703-708). *)
Definition deltaV_solve (v1 w1 v2 w2 r1 r2 : Vector3) : Vector3 :=
  mkVector3
    (x v2 + y w2 * z r2 - z w2 * y r2 - x v1 - y w1 * z r1 + z w1 * y r1)
    (y v2 + z w2 * x r2 - x w2 * z r2 - y v1 - z w1 * x r1 + x w1 * z r1)
    (z v2 + x w2 * y r2 - y w2 * x r2 - z v1 - x w1 * y r1 + y w1 * x r1).

(** The formula of the comments: [v2 + w2.cross(r2) - v1 - w1.cross(r1)]. *)
Definition relativeVelocity (v1 w1 v2 w2 r1 r2 : Vector3) : Vector3 :=
  Vec.sub (Vec.sub (Vec.add v2 (Vec.cross w2 r2)) v1) (Vec.cross w1 r1).

Section Solver.

(** ** What the solver takes from the mathematics library

    [MACHINE_EPSILON], [Vector3::getOneUnitOrthogonalVector] and
    [clamp(Vector3, decimal)] are declared outside the solver's source file;
    the solver is embedded for any choice of them. *)
Variable MACHINE_EPSILON : R.
Variable getOneUnitOrthogonalVector : Vector3 -> Vector3.
Variable clamp : Vector3 -> R -> Vector3.

(** Modelled from the spec: [approxEqual] is part of the missing mathematics
    library; "if det(R) ~ 0" is a distance below the machine epsilon. *)
Definition approxEqual (a b : R) : bool := Rltb (Rabs (a - b)) MACHINE_EPSILON.

(** ** computeFrictionVectors

    Returns the pair written to [contact.frictionVector1] and
    [contact.frictionVector2]; [normal] is [contact.normal]. *)
Definition computeFrictionVectors (deltaVelocity normal : Vector3) : Vector3 * Vector3 :=
  let deltaVDotNormal := Vec.dot deltaVelocity normal in
  let normalVelocity := Vec.scale deltaVDotNormal normal in
  let tangentVelocity :=
    mkVector3 (x deltaVelocity - x normalVelocity) (y deltaVelocity - y normalVelocity)
              (z deltaVelocity - z normalVelocity) in
  let lengthTangentVelocity := Vec.length tangentVelocity in
  let frictionVector1 :=
    if Rgtb lengthTangentVelocity MACHINE_EPSILON
    then Vec.div tangentVelocity lengthTangentVelocity
    else getOneUnitOrthogonalVector normal in
  let frictionVector2 := Vec.getUnit (Vec.cross normal frictionVector1) in
  (frictionVector1, frictionVector2).

(** ** initializeForIsland *)

(** The record built for the external contact point of index [c] (lines
    174-247), for the manifold [externalManifold]. *)
Definition newContactPointSolver (s : ContactSolverSystem)
  (externalManifold : ContactManifold.t) (c : nat) : CPS.t :=
  let w := mWorld s in
  let rb := mRigidBodyComponents s in
  let rigidBodyIndex1 := World.getEntityIndex w (ContactManifold.bodyEntity1 externalManifold) in
  let rigidBodyIndex2 := World.getEntityIndex w (ContactManifold.bodyEntity2 externalManifold) in
  let collider1 := World.getMaterial w (ContactManifold.colliderEntity1 externalManifold) in
  let collider2 := World.getMaterial w (ContactManifold.colliderEntity2 externalManifold) in
  let x1 := get Vec.zero (RBC.mCentersOfMassWorld rb) rigidBodyIndex1 in
  let x2 := get Vec.zero (RBC.mCentersOfMassWorld rb) rigidBodyIndex2 in
  let inverseInertiaTensorBody1 :=
    World.getWorldInertiaTensorInverse w (ContactManifold.bodyEntity1 externalManifold) in
  let inverseInertiaTensorBody2 :=
    World.getWorldInertiaTensorInverse w (ContactManifold.bodyEntity2 externalManifold) in
  let massInverseBody1 := get 0 (RBC.mInverseMasses rb) rigidBodyIndex1 in
  let massInverseBody2 := get 0 (RBC.mInverseMasses rb) rigidBodyIndex2 in
  let v1 := LV s rigidBodyIndex1 in
  let w1 := AV s rigidBodyIndex1 in
  let v2 := LV s rigidBodyIndex2 in
  let w2 := AV s rigidBodyIndex2 in
  let externalContact := get ContactPoint.default (mAllContactPoints s) c in
  let p1 := World.getLocalToWorldTransform w (ContactManifold.colliderEntity1 externalManifold)
              (ContactPoint.getLocalPointOnShape1 externalContact) in
  let p2 := World.getLocalToWorldTransform w (ContactManifold.colliderEntity2 externalManifold)
              (ContactPoint.getLocalPointOnShape2 externalContact) in
  let normal := ContactPoint.getNormal externalContact in
  let r1 := Vec.sub p1 x1 in
  let r2 := Vec.sub p2 x2 in
  let deltaV := deltaV_init v1 w1 v2 w2 r1 r2 in
  let r1CrossN := Vec.cross r1 normal in
  let r2CrossN := Vec.cross r2 normal in
  let i1TimesR1CrossN := Mat.mulv inverseInertiaTensorBody1 r1CrossN in
  let i2TimesR2CrossN := Mat.mulv inverseInertiaTensorBody2 r2CrossN in
  let massPenetration :=
    massInverseBody1 + massInverseBody2 +
    Vec.dot (Vec.cross i1TimesR1CrossN r1) normal +
    Vec.dot (Vec.cross i2TimesR2CrossN r2) normal in
  let deltaVDotN := x deltaV * x normal + y deltaV * y normal + z deltaV * z normal in
  let restitutionFactor := computeMixedRestitutionFactor collider1 collider2 in
  let restitutionBias :=
    if Rltb deltaVDotN (- mRestitutionVelocityThreshold s)
    then restitutionFactor * deltaVDotN else 0 in
  CPS.mk c normal r1 r2
    (ContactPoint.getPenetrationDepth externalContact)
    (ContactPoint.getIsRestingContact externalContact)
    (ContactPoint.getPenetrationImpulse externalContact)
    0 i1TimesR1CrossN i2TimesR2CrossN (inverseMass massPenetration) restitutionBias.

(** The manifold under construction: the solver and the three sums that the
    contact-point loop accumulates in the new [ContactManifoldSolver]. *)
Record ManifoldBuild : Type := mkManifoldBuild {
  build_solver : ContactSolverSystem;
  build_frictionPointBody1 : Vector3;
  build_frictionPointBody2 : Vector3;
  build_normal : Vector3
}.

(** One turn of the contact-point loop (lines 172-254). *)
Definition initContactPoint (externalManifold : ContactManifold.t) (c : nat)
  (b : ManifoldBuild) : ManifoldBuild :=
  let s := build_solver b in
  let w := mWorld s in
  let externalContact := get ContactPoint.default (mAllContactPoints s) c in
  let p1 := World.getLocalToWorldTransform w (ContactManifold.colliderEntity1 externalManifold)
              (ContactPoint.getLocalPointOnShape1 externalContact) in
  let p2 := World.getLocalToWorldTransform w (ContactManifold.colliderEntity2 externalManifold)
              (ContactPoint.getLocalPointOnShape2 externalContact) in
  let newPoint := newContactPointSolver s externalManifold c in
  let s1 := set_mContactPoints (mContactPoints s ++ [newPoint]) s in
  let s2 := set_mAllContactPoints
              (update c (ContactPoint.setIsRestingContact true) (mAllContactPoints s1)) s1 in
  let s3 := set_mNbContactPoints (Datatypes.S (mNbContactPoints s2)) s2 in
  mkManifoldBuild s3
    (Vec.add (build_frictionPointBody1 b) p1)
    (Vec.add (build_frictionPointBody2 b) p2)
    (Vec.add (build_normal b) (CPS.normal newPoint)).

(** The record built for the external manifold of index [m], once the
    contact-point loop has left the sums [b] (lines 146-160 and 256-332). *)
Definition newContactManifoldSolver (s : ContactSolverSystem) (m : nat)
  (b : ManifoldBuild) : CMS.t :=
  let externalManifold := get ContactManifold.default (mAllContactManifolds s) m in
  let w := mWorld s in
  let rb := mRigidBodyComponents s in
  let rigidBodyIndex1 := World.getEntityIndex w (ContactManifold.bodyEntity1 externalManifold) in
  let rigidBodyIndex2 := World.getEntityIndex w (ContactManifold.bodyEntity2 externalManifold) in
  let collider1 := World.getMaterial w (ContactManifold.colliderEntity1 externalManifold) in
  let collider2 := World.getMaterial w (ContactManifold.colliderEntity2 externalManifold) in
  let x1 := get Vec.zero (RBC.mCentersOfMassWorld rb) rigidBodyIndex1 in
  let x2 := get Vec.zero (RBC.mCentersOfMassWorld rb) rigidBodyIndex2 in
  let inverseInertiaTensorBody1 :=
    World.getWorldInertiaTensorInverse w (ContactManifold.bodyEntity1 externalManifold) in
  let inverseInertiaTensorBody2 :=
    World.getWorldInertiaTensorInverse w (ContactManifold.bodyEntity2 externalManifold) in
  let massInverseBody1 := get 0 (RBC.mInverseMasses rb) rigidBodyIndex1 in
  let massInverseBody2 := get 0 (RBC.mInverseMasses rb) rigidBodyIndex2 in
  let nbContacts := ContactManifold.nbContactPoints externalManifold in
  let frictionCoefficient := computeMixedFrictionCoefficient collider1 collider2 in
  let rollingResistanceFactor := computeMixedRollingResistance collider1 collider2 in
  let v1 := LV s rigidBodyIndex1 in
  let w1 := AV s rigidBodyIndex1 in
  let v2 := LV s rigidBodyIndex2 in
  let w2 := AV s rigidBodyIndex2 in
  let frictionPointBody1 := Vec.div (build_frictionPointBody1 b) (INR nbContacts) in
  let frictionPointBody2 := Vec.div (build_frictionPointBody2 b) (INR nbContacts) in
  let r1Friction := Vec.sub frictionPointBody1 x1 in
  let r2Friction := Vec.sub frictionPointBody2 x2 in
  let isBody1DynamicType :=
    isDynamic (World.getType w (ContactManifold.bodyEntity1 externalManifold)) in
  let isBody2DynamicType :=
    isDynamic (World.getType w (ContactManifold.bodyEntity2 externalManifold)) in
  let inverseRollingResistance :=
    if Rgtb rollingResistanceFactor 0 && (isBody1DynamicType || isBody2DynamicType)
    then
      let sum := Mat.add inverseInertiaTensorBody1 inverseInertiaTensorBody2 in
      let det := Mat.getDeterminant sum in
      if approxEqual det 0 then Mat.zero else Mat.getInverse sum
    else Mat.zero in
  let normal := Vec.normalize (build_normal b) in
  let deltaVFrictionPoint := deltaV_init v1 w1 v2 w2 r1Friction r2Friction in
  let '(frictionVector1, frictionVector2) := computeFrictionVectors deltaVFrictionPoint normal in
  let r1CrossT1 := Vec.cross r1Friction frictionVector1 in
  let r1CrossT2 := Vec.cross r1Friction frictionVector2 in
  let r2CrossT1 := Vec.cross r2Friction frictionVector1 in
  let r2CrossT2 := Vec.cross r2Friction frictionVector2 in
  let friction1Mass :=
    massInverseBody1 + massInverseBody2 +
    Vec.dot (Vec.cross (Mat.mulv inverseInertiaTensorBody1 r1CrossT1) r1Friction) frictionVector1 +
    Vec.dot (Vec.cross (Mat.mulv inverseInertiaTensorBody2 r2CrossT1) r2Friction) frictionVector1 in
  let friction2Mass :=
    massInverseBody1 + massInverseBody2 +
    Vec.dot (Vec.cross (Mat.mulv inverseInertiaTensorBody1 r1CrossT2) r1Friction) frictionVector2 +
    Vec.dot (Vec.cross (Mat.mulv inverseInertiaTensorBody2 r2CrossT2) r2Friction) frictionVector2 in
  let frictionTwistMass :=
    Vec.dot normal (Mat.mulv inverseInertiaTensorBody1 normal) +
    Vec.dot normal (Mat.mulv inverseInertiaTensorBody2 normal) in
  CMS.mk m rigidBodyIndex1 rigidBodyIndex2 massInverseBody1 massInverseBody2
    inverseInertiaTensorBody1 inverseInertiaTensorBody2 nbContacts
    frictionCoefficient rollingResistanceFactor frictionPointBody1 frictionPointBody2
    r1Friction r2Friction r1CrossT1 r1CrossT2 r2CrossT1 r2CrossT2
    (inverseMass friction1Mass) (inverseMass friction2Mass) (inverseMass frictionTwistMass)
    inverseRollingResistance normal frictionVector1 frictionVector2
    (ContactManifold.frictionVector1 externalManifold)
    (ContactManifold.frictionVector2 externalManifold)
    (ContactManifold.frictionImpulse1 externalManifold)
    (ContactManifold.frictionImpulse2 externalManifold)
    (ContactManifold.frictionTwistImpulse externalManifold)
    Vec.zero.

(** One turn of the manifold loop (lines 122-335).  [rollingResistanceImpulse]
    is not assigned by [initializeForIsland]: it keeps the zero vector of the
    value-initialising placement [new]. *)
Definition initManifold (m : nat) (s : ContactSolverSystem) : ContactSolverSystem :=
  let externalManifold := get ContactManifold.default (mAllContactManifolds s) m in
  let contactPointsStartIndex := ContactManifold.contactPointsIndex externalManifold in
  let nbContactPoints := ContactManifold.nbContactPoints externalManifold in
  let b := for_loop contactPointsStartIndex nbContactPoints
             (initContactPoint externalManifold)
             (mkManifoldBuild s Vec.zero Vec.zero Vec.zero) in
  let s1 := build_solver b in
  let s2 := set_mContactConstraints
              (mContactConstraints s1 ++ [newContactManifoldSolver s1 m b]) s1 in
  set_mNbContactManifolds (Datatypes.S (mNbContactManifolds s2)) s2.

Definition initializeForIsland (islandIndex : nat) (s : ContactSolverSystem)
  : ContactSolverSystem :=
  let contactManifoldsIndex :=
    get 0%nat (Islands.contactManifoldsIndices (mIslands s)) islandIndex in
  let nbContactManifolds :=
    get 0%nat (Islands.nbContactManifolds (mIslands s)) islandIndex in
  for_loop contactManifoldsIndex nbContactManifolds initManifold s.

(** ** warmStart *)

(** The solver and the locals of the contact-point loop of [warmStart]. *)
Record WarmStartLoop : Type := mkWarmStartLoop {
  ws_solver : ContactSolverSystem;
  ws_contactPointIndex : nat;
  ws_atLeastOneRestingContactPoint : bool
}.

(** One turn of the contact-point loop of manifold [c] (lines 353-391). *)
Definition warmStartPoint (c : nat) (st : WarmStartLoop) : WarmStartLoop :=
  let s := ws_solver st in
  let contactPointIndex := ws_contactPointIndex st in
  let M := constraint s c in
  let P := point s contactPointIndex in
  if CPS.isRestingContact P then
    let impulsePenetration := Vec.mulr (CPS.normal P) (CPS.penetrationImpulse P) in
    let s1 := modCLV (CMS.rigidBodyComponentIndexBody1 M)
                (fun v => Vec.sub v (Vec.scale (CMS.massInverseBody1 M) impulsePenetration)) s in
    let s2 := modCAV (CMS.rigidBodyComponentIndexBody1 M)
                (fun v => Vec.sub v (Vec.mulr (CPS.i1TimesR1CrossN P) (CPS.penetrationImpulse P))) s1 in
    let s3 := modCLV (CMS.rigidBodyComponentIndexBody2 M)
                (fun v => Vec.add v (Vec.scale (CMS.massInverseBody2 M) impulsePenetration)) s2 in
    let s4 := modCAV (CMS.rigidBodyComponentIndexBody2 M)
                (fun v => Vec.add v (Vec.mulr (CPS.i2TimesR2CrossN P) (CPS.penetrationImpulse P))) s3 in
    mkWarmStartLoop s4 (Datatypes.S contactPointIndex) true
  else
    mkWarmStartLoop (modPoint contactPointIndex (CPS.set_penetrationImpulse 0) s)
      (Datatypes.S contactPointIndex) (ws_atLeastOneRestingContactPoint st).

(** The branch taken when the manifold has a resting contact point (lines
    397-482). *)
Definition warmStartFriction (c : nat) (s : ContactSolverSystem) : ContactSolverSystem :=
  let M := constraint s c in
  let i1 := CMS.rigidBodyComponentIndexBody1 M in
  let i2 := CMS.rigidBodyComponentIndexBody2 M in
  let oldFrictionImpulse :=
    Vec.add (Vec.scale (CMS.friction1Impulse M) (CMS.oldFrictionVector1 M))
            (Vec.scale (CMS.friction2Impulse M) (CMS.oldFrictionVector2 M)) in
  let friction1Impulse := Vec.dot oldFrictionImpulse (CMS.frictionVector1 M) in
  let friction2Impulse := Vec.dot oldFrictionImpulse (CMS.frictionVector2 M) in
  let s := modConstraint c (CMS.set_friction1Impulse friction1Impulse) s in
  let s := modConstraint c (CMS.set_friction2Impulse friction2Impulse) s in
  (* first friction constraint *)
  let angularImpulseBody1 := Vec.mulr (Vec.neg (CMS.r1CrossT1 M)) friction1Impulse in
  let linearImpulseBody2 := Vec.mulr (CMS.frictionVector1 M) friction1Impulse in
  let angularImpulseBody2 := Vec.mulr (CMS.r2CrossT1 M) friction1Impulse in
  let s := modCLV i1 (fun v => Vec.sub v (Vec.scale (CMS.massInverseBody1 M) linearImpulseBody2)) s in
  let s := modCAV i1 (fun v => Vec.add v (Mat.mulv (CMS.inverseInertiaTensorBody1 M) angularImpulseBody1)) s in
  let s := modCLV i2 (fun v => Vec.add v (Vec.scale (CMS.massInverseBody2 M) linearImpulseBody2)) s in
  let s := modCAV i2 (fun v => Vec.add v (Mat.mulv (CMS.inverseInertiaTensorBody2 M) angularImpulseBody2)) s in
  (* second friction constraint *)
  let angularImpulseBody1 := Vec.mulr (Vec.neg (CMS.r1CrossT2 M)) friction2Impulse in
  let linearImpulseBody2 := Vec.mulr (CMS.frictionVector2 M) friction2Impulse in
  let angularImpulseBody2 := Vec.mulr (CMS.r2CrossT2 M) friction2Impulse in
  let s := modCLV i1 (fun v => Vec.sub v (Vec.scale (CMS.massInverseBody1 M) linearImpulseBody2)) s in
  let s := modCAV i1 (fun v => Vec.add v (Mat.mulv (CMS.inverseInertiaTensorBody1 M) angularImpulseBody1)) s in
  let s := modCLV i2 (fun v => Vec.add v (Vec.scale (CMS.massInverseBody2 M) linearImpulseBody2)) s in
  let s := modCAV i2 (fun v => Vec.add v (Mat.mulv (CMS.inverseInertiaTensorBody2 M) angularImpulseBody2)) s in
  (* twist friction constraint *)
  let angularImpulseBody1 := Vec.mulr (Vec.neg (CMS.normal M)) (CMS.frictionTwistImpulse M) in
  let angularImpulseBody2 := Vec.mulr (CMS.normal M) (CMS.frictionTwistImpulse M) in
  let s := modCAV i1 (fun v => Vec.add v (Mat.mulv (CMS.inverseInertiaTensorBody1 M) angularImpulseBody1)) s in
  let s := modCAV i2 (fun v => Vec.add v (Mat.mulv (CMS.inverseInertiaTensorBody2 M) angularImpulseBody2)) s in
  (* rolling resistance *)
  let angularImpulseBody2 := CMS.rollingResistanceImpulse M in
  let s := modCAV i1 (fun v => Vec.sub v (Mat.mulv (CMS.inverseInertiaTensorBody1 M) angularImpulseBody2)) s in
  modCAV i2 (fun v => Vec.add v (Mat.mulv (CMS.inverseInertiaTensorBody2 M) angularImpulseBody2)) s.

(** One turn of the manifold loop (lines 349-492); returns the solver and the
    running [contactPointIndex]. *)
Definition warmStartManifold (c : nat) (st : ContactSolverSystem * nat)
  : ContactSolverSystem * nat :=
  let '(s, contactPointIndex) := st in
  let pts := for_loop 0 (CMS.nbContacts (constraint s c)) (fun _ => warmStartPoint c)
               (mkWarmStartLoop s contactPointIndex false) in
  let s1 := ws_solver pts in
  (if ws_atLeastOneRestingContactPoint pts
   then warmStartFriction c s1
   else modConstraint c (CMS.set_impulses 0 0 0 Vec.zero) s1,
   ws_contactPointIndex pts).

Definition warmStart (s : ContactSolverSystem) : ContactSolverSystem :=
  fst (for_loop 0 (mNbContactManifolds s) warmStartManifold (s, 0%nat)).

(** ** init *)

Definition init (contactManifolds : list ContactManifold.t)
  (contactPoints : list ContactPoint.t) (timeStep : R) (s : ContactSolverSystem)
  : ContactSolverSystem :=
  let s := set_mAllContactManifolds contactManifolds s in
  let s := set_mAllContactPoints contactPoints s in
  let s := set_mTimeStep timeStep s in
  let nbContactManifolds := List.length (mAllContactManifolds s) in
  let nbContactPoints := List.length (mAllContactPoints s) in
  let s := set_mNbContactManifolds 0 s in
  let s := set_mNbContactPoints 0 s in
  let s := set_mContactConstraints [] s in
  let s := set_mContactPoints [] s in
  if (nbContactManifolds =? 0)%nat || (nbContactPoints =? 0)%nat then s
  else
    let s := for_loop 0 (Islands.getNbIslands (mIslands s))
               (fun i s =>
                  if (0 <? get 0%nat (Islands.nbContactManifolds (mIslands s)) i)%nat
                  then initializeForIsland i s else s) s in
    warmStart s.

(** ** storeImpulses *)

Definition storeImpulsesPoint (c : nat) (st : ContactSolverSystem * nat)
  : ContactSolverSystem * nat :=
  let '(s, contactPointIndex) := st in
  let P := point s contactPointIndex in
  (set_mAllContactPoints
     (update (CPS.externalContact P)
        (ContactPoint.setPenetrationImpulse (CPS.penetrationImpulse P))
        (mAllContactPoints s)) s,
   Datatypes.S contactPointIndex).

Definition storeImpulsesManifold (c : nat) (st : ContactSolverSystem * nat)
  : ContactSolverSystem * nat :=
  let '(s, contactPointIndex) := st in
  let '(s1, contactPointIndex1) :=
    for_loop 0 (CMS.nbContacts (constraint s c)) (fun _ => storeImpulsesPoint c)
      (s, contactPointIndex) in
  let M := constraint s1 c in
  (set_mAllContactManifolds
     (update (CMS.externalContactManifold M)
        (ContactManifold.store (CMS.friction1Impulse M) (CMS.friction2Impulse M)
           (CMS.frictionTwistImpulse M) (CMS.rollingResistanceImpulse M)
           (CMS.frictionVector1 M) (CMS.frictionVector2 M))
        (mAllContactManifolds s1)) s1,
   contactPointIndex1).

Definition storeImpulses (s : ContactSolverSystem) : ContactSolverSystem :=
  fst (for_loop 0 (mNbContactManifolds s) storeImpulsesManifold (s, 0%nat)).

(** ** solve *)

(** The solver and the locals of the contact-point loop of [solve]. *)
Record SolveLoop : Type := mkSolveLoop {
  sl_solver : ContactSolverSystem;
  sl_contactPointIndex : nat;
  sl_sumPenetrationImpulse : R
}.

(** [biasPenetrationDepth] of lines 534-538 *)
Definition biasPenetrationDepth (beta timeStep penetrationDepth : R) : R :=
  if Rgtb penetrationDepth SLOP
  then - (beta / timeStep) * Rmax 0 (penetrationDepth - SLOP)
  else 0.

(** The three loops over the axes [j] (lines 567-574 and 585-592). *)
Definition factorsBody1Constrained (i1 : nat) (s : ContactSolverSystem) : ContactSolverSystem :=
  for_loop 0 3
    (fun j s =>
       let s := modCLV i1 (scaleAxis j (LVF s i1)) s in
       modCAV i1 (scaleAxis j (AVF s i1)) s) s.

Definition factorsBody1Unconstrained (i1 : nat) (s : ContactSolverSystem) : ContactSolverSystem :=
  for_loop 0 3
    (fun j s =>
       let s := modLV i1 (scaleAxis j (LVF s i1)) s in
       modAV i1 (scaleAxis j (AVF s i1)) s) s.

Definition factorsBody2Body1 (i1 i2 : nat) (s : ContactSolverSystem) : ContactSolverSystem :=
  for_loop 0 3
    (fun j s =>
       let s := modCLV i2 (scaleAxis j (LVF s i2)) s in
       let s := modCAV i2 (scaleAxis j (AVF s i2)) s in
       let s := modCLV i1 (scaleAxis j (LVF s i1)) s in
       modCAV i1 (scaleAxis j (AVF s i1)) s) s.

(** The Lagrange multiplier of the penetration constraint before its
    projection (lines 521-548), for the contact point [contactPointIndex] of
    manifold [c]; [v1], [w1], [v2] and [w2] are the constrained velocities. *)
Definition penetrationDeltaLambda (beta : R) (c contactPointIndex : nat)
  (s : ContactSolverSystem) : R :=
  let M := constraint s c in
  let P := point s contactPointIndex in
  let i1 := CMS.rigidBodyComponentIndexBody1 M in
  let i2 := CMS.rigidBodyComponentIndexBody2 M in
  let deltaV := deltaV_solve (CLV s i1) (CAV s i1) (CLV s i2) (CAV s i2) (CPS.r1 P) (CPS.r2 P) in
  let deltaVDotN :=
    x deltaV * x (CPS.normal P) + y deltaV * y (CPS.normal P) + z deltaV * z (CPS.normal P) in
  let Jv := deltaVDotN in
  let biasPenetrationDepth := biasPenetrationDepth beta (mTimeStep s) (CPS.penetrationDepth P) in
  let b := biasPenetrationDepth + CPS.restitutionBias P in
  if mIsSplitImpulseActive s
  then - (Jv + CPS.restitutionBias P) * CPS.inversePenetrationMass P
  else - (Jv + b) * CPS.inversePenetrationMass P.

(** The penetration constraint on the constrained velocities (lines 549-592):
    projection of the accumulated impulse, then the velocity updates and the
    loops over the axes. *)
Definition solvePenetration (beta : R) (c contactPointIndex : nat)
  (s : ContactSolverSystem) : ContactSolverSystem :=
  let M := constraint s c in
  let P := point s contactPointIndex in
  let i1 := CMS.rigidBodyComponentIndexBody1 M in
  let i2 := CMS.rigidBodyComponentIndexBody2 M in
  let deltaLambda := penetrationDeltaLambda beta c contactPointIndex s in
  let lambdaTemp := CPS.penetrationImpulse P in
  let penetrationImpulse := Rmax (CPS.penetrationImpulse P + deltaLambda) 0 in
  let s := modPoint contactPointIndex (CPS.set_penetrationImpulse penetrationImpulse) s in
  let deltaLambda := penetrationImpulse - lambdaTemp in
  let linearImpulse := Vec.mulr (CPS.normal P) deltaLambda in
  let s := modCLV i1 (fun v => Vec.sub v (Vec.scale (CMS.massInverseBody1 M) linearImpulse)) s in
  let s := modCAV i1 (fun v => Vec.sub v (Vec.mulr (CPS.i1TimesR1CrossN P) deltaLambda)) s in
  let s := factorsBody1Constrained i1 s in
  let s := factorsBody1Unconstrained i1 s in
  let s := modCLV i2 (fun v => Vec.add v (Vec.scale (CMS.massInverseBody2 M) linearImpulse)) s in
  let s := modCAV i2 (fun v => Vec.add v (Vec.mulr (CPS.i2TimesR2CrossN P) deltaLambda)) s in
  factorsBody2Body1 i1 i2 s.

(** The Lagrange multiplier of the split-impulse correction before its
    projection (lines 600-616), over the split velocities. *)
Definition splitDeltaLambda (beta : R) (c contactPointIndex : nat)
  (s : ContactSolverSystem) : R :=
  let M := constraint s c in
  let P := point s contactPointIndex in
  let i1 := CMS.rigidBodyComponentIndexBody1 M in
  let i2 := CMS.rigidBodyComponentIndexBody2 M in
  let deltaVSplit :=
    deltaV_solve (SLV s i1) (SAV s i1) (SLV s i2) (SAV s i2) (CPS.r1 P) (CPS.r2 P) in
  let JvSplit :=
    x deltaVSplit * x (CPS.normal P) + y deltaVSplit * y (CPS.normal P) +
    z deltaVSplit * z (CPS.normal P) in
  let biasPenetrationDepth := biasPenetrationDepth beta (mTimeStep s) (CPS.penetrationDepth P) in
  - (JvSplit + biasPenetrationDepth) * CPS.inversePenetrationMass P.

(** The split-impulse position correction (lines 617-643). *)
Definition solveSplit (beta : R) (c contactPointIndex : nat)
  (s : ContactSolverSystem) : ContactSolverSystem :=
  let M := constraint s c in
  let P := point s contactPointIndex in
  let i1 := CMS.rigidBodyComponentIndexBody1 M in
  let i2 := CMS.rigidBodyComponentIndexBody2 M in
  let deltaLambdaSplit := splitDeltaLambda beta c contactPointIndex s in
  let lambdaTempSplit := CPS.penetrationSplitImpulse P in
  let penetrationSplitImpulse := Rmax (CPS.penetrationSplitImpulse P + deltaLambdaSplit) 0 in
  let s := modPoint contactPointIndex (CPS.set_penetrationSplitImpulse penetrationSplitImpulse) s in
  let deltaLambdaSplit := penetrationSplitImpulse - lambdaTempSplit in
  let linearImpulse := Vec.mulr (CPS.normal P) deltaLambdaSplit in
  let s := modSLV i1 (fun v => Vec.sub v (Vec.scale (CMS.massInverseBody1 M) linearImpulse)) s in
  let s := modSAV i1 (fun v => Vec.sub v (Vec.mulr (CPS.i1TimesR1CrossN P) deltaLambdaSplit)) s in
  let s := modSLV i2 (fun v => Vec.add v (Vec.scale (CMS.massInverseBody2 M) linearImpulse)) s in
  modSAV i2 (fun v => Vec.add v (Vec.mulr (CPS.i2TimesR2CrossN P) deltaLambdaSplit)) s.

(** One turn of the contact-point loop of manifold [c] (lines 517-647). *)
Definition solvePoint (beta : R) (c : nat) (st : SolveLoop) : SolveLoop :=
  let contactPointIndex := sl_contactPointIndex st in
  let s := solvePenetration beta c contactPointIndex (sl_solver st) in
  let sumPenetrationImpulse :=
    sl_sumPenetrationImpulse st + CPS.penetrationImpulse (point s contactPointIndex) in
  let s := if mIsSplitImpulseActive s then solveSplit beta c contactPointIndex s else s in
  mkSolveLoop s (Datatypes.S contactPointIndex) sumPenetrationImpulse.

(** [std::max(-limit, std::min(value, limit))] *)
Definition clampImpulse (value limit : R) : R := Rmax (- limit) (Rmin value limit).

(** First and second friction constraints (lines 649-744): [second] selects
    the tangent [frictionVector2] and its precomputed fields. *)
Definition solveFriction (second : bool) (c : nat) (sumPenetrationImpulse : R)
  (s : ContactSolverSystem) : ContactSolverSystem :=
  let M := constraint s c in
  let i1 := CMS.rigidBodyComponentIndexBody1 M in
  let i2 := CMS.rigidBodyComponentIndexBody2 M in
  let frictionVector := if second then CMS.frictionVector2 M else CMS.frictionVector1 M in
  let r1CrossT := if second then CMS.r1CrossT2 M else CMS.r1CrossT1 M in
  let r2CrossT := if second then CMS.r2CrossT2 M else CMS.r2CrossT1 M in
  let inverseFrictionMass :=
    if second then CMS.inverseFriction2Mass M else CMS.inverseFriction1Mass M in
  let frictionImpulse := if second then CMS.friction2Impulse M else CMS.friction1Impulse M in
  let deltaV :=
    deltaV_solve (CLV s i1) (CAV s i1) (CLV s i2) (CAV s i2)
      (CMS.r1Friction M) (CMS.r2Friction M) in
  let Jv :=
    x deltaV * x frictionVector + y deltaV * y frictionVector + z deltaV * z frictionVector in
  let deltaLambda := - Jv * inverseFrictionMass in
  let frictionLimit := CMS.frictionCoefficient M * sumPenetrationImpulse in
  let lambdaTemp := frictionImpulse in
  let newImpulse := clampImpulse (frictionImpulse + deltaLambda) frictionLimit in
  let s := modConstraint c
             (if second then CMS.set_friction2Impulse newImpulse
              else CMS.set_friction1Impulse newImpulse) s in
  let deltaLambda := newImpulse - lambdaTemp in
  let angularImpulseBody1 := Vec.mulr (Vec.neg r1CrossT) deltaLambda in
  let linearImpulseBody2 := Vec.mulr frictionVector deltaLambda in
  let angularImpulseBody2 := Vec.mulr r2CrossT deltaLambda in
  let s := modCLV i1 (fun v => Vec.sub v (Vec.scale (CMS.massInverseBody1 M) linearImpulseBody2)) s in
  let s := modCAV i1 (fun v => Vec.add v (Mat.mulv (CMS.inverseInertiaTensorBody1 M) angularImpulseBody1)) s in
  let s := modCLV i2 (fun v => Vec.add v (Vec.scale (CMS.massInverseBody2 M) linearImpulseBody2)) s in
  modCAV i2 (fun v => Vec.add v (Mat.mulv (CMS.inverseInertiaTensorBody2 M) angularImpulseBody2)) s.

(** Twist friction constraint (lines 746-770). *)
Definition solveTwist (c : nat) (sumPenetrationImpulse : R)
  (s : ContactSolverSystem) : ContactSolverSystem :=
  let M := constraint s c in
  let i1 := CMS.rigidBodyComponentIndexBody1 M in
  let i2 := CMS.rigidBodyComponentIndexBody2 M in
  let deltaV := Vec.sub (CAV s i2) (CAV s i1) in
  let Jv :=
    x deltaV * x (CMS.normal M) + y deltaV * y (CMS.normal M) + z deltaV * z (CMS.normal M) in
  let deltaLambda := - Jv * CMS.inverseTwistFrictionMass M in
  let frictionLimit := CMS.frictionCoefficient M * sumPenetrationImpulse in
  let lambdaTemp := CMS.frictionTwistImpulse M in
  let newImpulse := clampImpulse (CMS.frictionTwistImpulse M + deltaLambda) frictionLimit in
  let s := modConstraint c (CMS.set_frictionTwistImpulse newImpulse) s in
  let deltaLambda := newImpulse - lambdaTemp in
  let angularImpulseBody2 := Vec.mulr (CMS.normal M) deltaLambda in
  let s := modCAV i1 (fun v => Vec.sub v (Mat.mulv (CMS.inverseInertiaTensorBody1 M) angularImpulseBody2)) s in
  modCAV i2 (fun v => Vec.add v (Mat.mulv (CMS.inverseInertiaTensorBody2 M) angularImpulseBody2)) s.

(** Rolling resistance constraint (lines 772-792). *)
Definition solveRolling (c : nat) (sumPenetrationImpulse : R)
  (s : ContactSolverSystem) : ContactSolverSystem :=
  let M := constraint s c in
  let i1 := CMS.rigidBodyComponentIndexBody1 M in
  let i2 := CMS.rigidBodyComponentIndexBody2 M in
  if Rgtb (CMS.rollingResistanceFactor M) 0 then
    let JvRolling := Vec.sub (CAV s i2) (CAV s i1) in
    let deltaLambdaRolling := Mat.mulv (CMS.inverseRollingResistance M) (Vec.neg JvRolling) in
    let rollingLimit := CMS.rollingResistanceFactor M * sumPenetrationImpulse in
    let lambdaTempRolling := CMS.rollingResistanceImpulse M in
    let newImpulse :=
      clamp (Vec.add (CMS.rollingResistanceImpulse M) deltaLambdaRolling) rollingLimit in
    let s := modConstraint c (CMS.set_rollingResistanceImpulse newImpulse) s in
    let deltaLambdaRolling := Vec.sub newImpulse lambdaTempRolling in
    let s := modCAV i1 (fun v => Vec.sub v (Mat.mulv (CMS.inverseInertiaTensorBody1 M) deltaLambdaRolling)) s in
    modCAV i2 (fun v => Vec.add v (Mat.mulv (CMS.inverseInertiaTensorBody2 M) deltaLambdaRolling)) s
  else s.

(** One turn of the manifold loop (lines 507-793); returns the solver and the
    running [contactPointIndex]. *)
Definition solveManifold (beta : R) (c : nat) (st : ContactSolverSystem * nat)
  : ContactSolverSystem * nat :=
  let '(s, contactPointIndex) := st in
  let pts := for_loop 0 (CMS.nbContacts (constraint s c)) (fun _ => solvePoint beta c)
               (mkSolveLoop s contactPointIndex 0) in
  let sumPenetrationImpulse := sl_sumPenetrationImpulse pts in
  let s := sl_solver pts in
  let s := solveFriction false c sumPenetrationImpulse s in
  let s := solveFriction true c sumPenetrationImpulse s in
  let s := solveTwist c sumPenetrationImpulse s in
  let s := solveRolling c sumPenetrationImpulse s in
  (s, sl_contactPointIndex pts).

Definition solve (s : ContactSolverSystem) : ContactSolverSystem :=
  let beta := if mIsSplitImpulseActive s then BETA_SPLIT_IMPULSE else BETA in
  fst (for_loop 0 (mNbContactManifolds s) (solveManifold beta) (s, 0%nat)).

(** A run of the phases that follow [init] within a step. *)
Inductive Phase : Type := WarmStart | Solve | StoreImpulses.

Definition runPhase (p : Phase) (s : ContactSolverSystem) : ContactSolverSystem :=
  match p with
  | WarmStart => warmStart s
  | Solve => solve s
  | StoreImpulses => storeImpulses s
  end.

Definition runPhases (ps : list Phase) (s : ContactSolverSystem) : ContactSolverSystem :=
  fold_left (fun s p => runPhase p s) ps s.

End Solver.

(** ** Vocabulary of the statements *)

(** Index in [mContactPoints] of the first contact point of manifold [c]: the
    value of the running [contactPointIndex] when the manifold loop reaches
    [c]. *)
Fixpoint nbContactsBefore (l : list CMS.t) (c : nat) : nat :=
  match c, l with
  | Datatypes.S c', M :: l' => (CMS.nbContacts M + nbContactsBefore l' c')%nat
  | _, _ => 0%nat
  end.

Definition firstPoint (s : ContactSolverSystem) (c : nat) : nat :=
  nbContactsBefore (mContactConstraints s) c.

(** The arrays are as [init] leaves them: one record per counted manifold, and
    the contact points of the manifolds laid out one manifold after the
    other. *)
Definition wellFormed (s : ContactSolverSystem) : Prop :=
  mNbContactManifolds s = List.length (mContactConstraints s) /\
  List.length (mContactPoints s) = firstPoint s (mNbContactManifolds s).

(** The normal-constraint velocity [Jv] of the spec over given velocity
    fields. *)
Definition normalVelocity (v1 w1 v2 w2 : Vector3) (P : CPS.t) : R :=
  Vec.dot (relativeVelocity v1 w1 v2 w2 (CPS.r1 P) (CPS.r2 P)) (CPS.normal P).

(** [v] with every component multiplied by the factor of its axis. *)
Definition timesFactors (v f : Vector3) : Vector3 :=
  mkVector3 (x v * x f) (y v * y f) (z v * z f).

(** The part of a manifold record that [initializeForIsland] fixes: all but
    the four accumulated impulses. *)
Definition staticManifold (M : CMS.t) : CMS.t := CMS.set_impulses 0 0 0 Vec.zero M.

(** The part of a contact-point record that [initializeForIsland] fixes: all
    but the two accumulated impulses. *)
Definition staticPoint (P : CPS.t) : CPS.t :=
  CPS.set_penetrationImpulse 0 (CPS.set_penetrationSplitImpulse 0 P).

(** The records of the [nb] contact points from index [first] on. *)
Definition manifoldPoints (s : ContactSolverSystem) (first nb : nat) : list CPS.t :=
  map (point s) (seq first nb).

(** Sum of penetration impulses in the order of the contact-point loop. *)
Definition sumImpulses (l : list CPS.t) : R :=
  fold_left Rplus (map CPS.penetrationImpulse l) 0.


(** The contact-point records of manifold [c]. *)
Definition pointsOfManifold (s : ContactSolverSystem) (c : nat) : list CPS.t :=
  manifoldPoints s (firstPoint s c) (CMS.nbContacts (constraint s c)).

(** Sum of the penetration impulses of manifold [c]. *)
Definition sumPenetrationImpulse (s : ContactSolverSystem) (c : nat) : R :=
  sumImpulses (pointsOfManifold s c).

(** Some contact point of manifold [c] is flagged as resting. *)
Definition hasRestingContact (s : ContactSolverSystem) (c : nat) : bool :=
  existsb CPS.isRestingContact (pointsOfManifold s c).

(** What one turn of the manifold loop of [solve] establishes for its
    manifold: [M] and [pts] are the manifold and its contact points before
    the turn, [M'] and [pts'] after it. *)
Definition solvedManifold (clamp : Vector3 -> R -> Vector3) (split : bool)
  (M : CMS.t) (pts : list CPS.t) (M' : CMS.t) (pts' : list CPS.t) : Prop :=
  Forall (fun P => 0 <= CPS.penetrationImpulse P /\
                   (split = true -> 0 <= CPS.penetrationSplitImpulse P)) pts' /\
  (0 <= CMS.frictionCoefficient M ->
   Rabs (CMS.friction1Impulse M') <= CMS.frictionCoefficient M * sumImpulses pts' /\
   Rabs (CMS.friction2Impulse M') <= CMS.frictionCoefficient M * sumImpulses pts' /\
   Rabs (CMS.frictionTwistImpulse M') <= CMS.frictionCoefficient M * sumImpulses pts') /\
  (CMS.rollingResistanceFactor M <= 0 ->
   CMS.rollingResistanceImpulse M' = CMS.rollingResistanceImpulse M) /\
  (0 < CMS.rollingResistanceFactor M ->
   (forall v L, 0 <= L -> Vec.length (clamp v L) <= L) ->
   Vec.length (CMS.rollingResistanceImpulse M') <=
   CMS.rollingResistanceFactor M * sumImpulses pts').

(** What one turn of the manifold loop of [warmStart] does to its manifold. *)
Definition warmStartedManifold
  (M : CMS.t) (pts : list CPS.t) (M' : CMS.t) (pts' : list CPS.t) : Prop :=
  pts' = map (fun P => if CPS.isRestingContact P then P
                       else CPS.set_penetrationImpulse 0 P) pts /\
  (existsb CPS.isRestingContact pts = true ->
   let oldFrictionImpulse :=
     Vec.add (Vec.scale (CMS.friction1Impulse M) (CMS.oldFrictionVector1 M))
             (Vec.scale (CMS.friction2Impulse M) (CMS.oldFrictionVector2 M)) in
   M' = CMS.set_impulses (Vec.dot oldFrictionImpulse (CMS.frictionVector1 M))
                         (Vec.dot oldFrictionImpulse (CMS.frictionVector2 M))
                         (CMS.frictionTwistImpulse M) (CMS.rollingResistanceImpulse M) M) /\
  (existsb CPS.isRestingContact pts = false ->
   M' = CMS.set_impulses 0 0 0 Vec.zero M).

(** What [warmStart] and [solve] only read: the configuration, the external
    stores and the columns of the body store other than the six velocity
    columns. *)
Definition solverFrame (s : ContactSolverSystem) :=
  (mTimeStep s, mNbContactPoints s, mNbContactManifolds s, mIsSplitImpulseActive s,
   mRestitutionVelocityThreshold s, mIslands s, mAllContactManifolds s,
   mAllContactPoints s, mWorld s,
   RBC.mCentersOfMassWorld (mRigidBodyComponents s),
   RBC.mInverseMasses (mRigidBodyComponents s),
   RBC.mLinearVelocitiesFactors (mRigidBodyComponents s),
   RBC.mAngularVelocitiesFactors (mRigidBodyComponents s)).

(** The arrays while [initializeForIsland] fills them: laid out as in
    [wellFormed], with every manifold record satisfying [Pm]. *)
Definition builtArrays (Pm : CMS.t -> Prop) (s : ContactSolverSystem) : Prop :=
  mNbContactManifolds s = List.length (mContactConstraints s) /\
  List.length (mContactPoints s) =
    nbContactsBefore (mContactConstraints s) (List.length (mContactConstraints s)) /\
  Forall Pm (mContactConstraints s).

(** ** Instances of the mathematics library *)

(** Modelled from the spec: [clamp(Vector3, decimal)] is declared in the
    missing mathematics library.  The spec has the "magnitude ... clamped to
    rollingResistanceFactor * sum" and "to sphere of radius": a vector longer
    than [maxLength] is rescaled to that length, a shorter one is kept. *)
Definition clampToLength (v : Vector3) (maxLength : R) : Vector3 :=
  if Rgtb (Vec.lengthSquare v) (maxLength * maxLength)
  then Vec.mulr (Vec.getUnit v) maxLength
  else v.

(** Modelled from the spec: [Vector3::getOneUnitOrthogonalVector] is declared
    in the missing mathematics library; "pick any unit vector orthogonal to
    n".  This one lies in the plane of the first two axes unless [n] is along
    the third. *)
Definition unitOrthogonalVector (n : Vector3) : Vector3 :=
  if Rgtb (x n * x n + y n * y n) 0
  then Vec.div (mkVector3 (- y n) (x n) 0) (sqrt (x n * x n + y n * y n))
  else mkVector3 1 0 0.

(** Single-precision machine epsilon, 2^-23. *)
Definition epsilonFloat : R := / 8388608.

(** ** Two small worlds *)

Definition ones : Vector3 := mkVector3 1 1 1.

Definition identity : Matrix3x3 :=
  mkMatrix3x3 (mkVector3 1 0 0) (mkVector3 0 1 0) (mkVector3 0 0 1).

Definition oneManifold : list ContactManifold.t :=
  [ContactManifold.mk 0%nat 1%nat 0%nat 1%nat 1%nat 0%nat Vec.zero Vec.zero 0 0 0 Vec.zero].

Definition oneIsland : Islands.t := Islands.mk 1%nat [1%nat] [0%nat].

(** A body spinning about the third axis touches a body at rest: body 0 has
    its centre of mass at the origin and the angular velocity (0,0,1), the
    contact point is at (0,1,0) with the normal (1,0,0).  Both materials have
    bounciness 1 and the restitution velocity threshold is 1/2. *)
Definition spinningBodies : RBC.t :=
  RBC.mk [Vec.zero; mkVector3 2 1 0]
         [Vec.zero; Vec.zero] [mkVector3 0 0 1; Vec.zero]
         [Vec.zero; Vec.zero] [mkVector3 0 0 1; Vec.zero]
         [Vec.zero; Vec.zero] [Vec.zero; Vec.zero]
         [1; 1]
         [ones; ones] [ones; ones].

Definition spinningWorld : World.t :=
  World.mk (fun e => e) (fun _ => identity) (fun _ => DYNAMIC) (fun _ p => p)
    (fun _ => Material.mk 1 0 0).

Definition spinningSolver : ContactSolverSystem :=
  mkContactSolverSystem 0 [] [] 0%nat 0%nat true (1 / 2) oneIsland [] []
    spinningBodies spinningWorld.

Definition spinningPoints : list ContactPoint.t :=
  [ContactPoint.mk (mkVector3 0 1 0) (mkVector3 0 1 0) (mkVector3 1 0 0) 0 false 0].

(** A body sliding on a static one: body 0 moves with velocity (4,0,0) along
    the contact plane and its linear velocity factor along the first axis is
    1/2; the contact point is at the origin with the normal (0,-1,0), a new
    contact without penetration. *)
Definition slidingBodies : RBC.t :=
  RBC.mk [mkVector3 0 1 0; mkVector3 0 (-1) 0]
         [mkVector3 4 0 0; Vec.zero] [Vec.zero; Vec.zero]
         [mkVector3 4 0 0; Vec.zero] [Vec.zero; Vec.zero]
         [Vec.zero; Vec.zero] [Vec.zero; Vec.zero]
         [1; 0]
         [mkVector3 (1 / 2) 1 1; ones] [ones; ones].

Definition slidingWorld : World.t :=
  World.mk (fun e => e)
    (fun e => match e with O => identity | _ => Mat.zero end)
    (fun e => match e with O => DYNAMIC | _ => STATIC end)
    (fun _ p => p)
    (fun _ => Material.mk 0 (1 / 2) 0).

Definition slidingSolver : ContactSolverSystem :=
  mkContactSolverSystem 0 [] [] 0%nat 0%nat true 1 oneIsland [] []
    slidingBodies slidingWorld.

Definition slidingPoints : list ContactPoint.t :=
  [ContactPoint.mk Vec.zero Vec.zero (mkVector3 0 (-1) 0) 0 false 0].

(** The restitution bias as the specification words it, from the relative
    velocity [v2 + w2 x r2 - v1 - w1 x r1]. *)
Definition restitutionBias_spec (e threshold : R) (v1 w1 v2 w2 r1 r2 n : Vector3) : R :=
  let deltaVN := Vec.dot (relativeVelocity v1 w1 v2 w2 r1 r2) n in
  if Rltb deltaVN (- threshold) then e * deltaVN else 0.

(** The columns of the body store other than the two constrained velocity
    columns. *)
Definition bodyFrame (s : ContactSolverSystem) :=
  let rb := mRigidBodyComponents s in
  (RBC.mCentersOfMassWorld rb, RBC.mLinearVelocities rb, RBC.mAngularVelocities rb,
   RBC.mSplitLinearVelocities rb, RBC.mSplitAngularVelocities rb, RBC.mInverseMasses rb,
   RBC.mLinearVelocitiesFactors rb, RBC.mAngularVelocitiesFactors rb).

(** Everything in the solver but the two external stores. *)
Definition internalState (s : ContactSolverSystem) :=
  (mTimeStep s, mContactConstraints s, mContactPoints s, mNbContactPoints s,
   mNbContactManifolds s, mIsSplitImpulseActive s, mRestitutionVelocityThreshold s,
   mIslands s, mRigidBodyComponents s, mWorld s).

(** An external contact point without the impulse that [storeImpulses]
    writes, and an external manifold without the six fields it writes. *)
Definition withoutImpulse (p : ContactPoint.t) : ContactPoint.t :=
  ContactPoint.setPenetrationImpulse 0 p.

Definition withoutStored (m : ContactManifold.t) : ContactManifold.t :=
  ContactManifold.store 0 0 0 Vec.zero Vec.zero Vec.zero m.

(** The write of [storeImpulses] for one contact-point record and for one
    manifold record. *)
Definition storePoint (l : list ContactPoint.t) (P : CPS.t) : list ContactPoint.t :=
  update (CPS.externalContact P)
    (ContactPoint.setPenetrationImpulse (CPS.penetrationImpulse P)) l.

Definition storeManifold (l : list ContactManifold.t) (M : CMS.t) : list ContactManifold.t :=
  update (CMS.externalContactManifold M)
    (ContactManifold.store (CMS.friction1Impulse M) (CMS.friction2Impulse M)
       (CMS.frictionTwistImpulse M) (CMS.rollingResistanceImpulse M)
       (CMS.frictionVector1 M) (CMS.frictionVector2 M)) l.

(** External contact points with their resting flag set, as
    [initializeForIsland] leaves the ones it visits. *)
Definition flagged (l : list ContactPoint.t) : list ContactPoint.t :=
  map (ContactPoint.setIsRestingContact true) l.

(** The solver as [init] leaves it before its early return (lines 66-80). *)
Definition initReset (contactManifolds : list ContactManifold.t)
  (contactPoints : list ContactPoint.t) (timeStep : R) (s : ContactSolverSystem)
  : ContactSolverSystem :=
  set_mContactPoints [] (set_mContactConstraints []
    (set_mNbContactPoints 0 (set_mNbContactManifolds 0
      (set_mTimeStep timeStep (set_mAllContactPoints contactPoints
        (set_mAllContactManifolds contactManifolds s)))))).
(** A manifold record agrees with the external manifold [ext] it was built
    from: the contact count, the rows, inverse masses and inverse inertia
    tensors of the two bodies, the mixed material values and the tangent
    basis of the previous step. *)
Definition followsExternal (w : World.t) (inverseMasses : list R)
  (ext : ContactManifold.t) (M : CMS.t) : Prop :=
  let collider1 := World.getMaterial w (ContactManifold.colliderEntity1 ext) in
  let collider2 := World.getMaterial w (ContactManifold.colliderEntity2 ext) in
  CMS.nbContacts M = ContactManifold.nbContactPoints ext /\
  CMS.rigidBodyComponentIndexBody1 M =
    World.getEntityIndex w (ContactManifold.bodyEntity1 ext) /\
  CMS.rigidBodyComponentIndexBody2 M =
    World.getEntityIndex w (ContactManifold.bodyEntity2 ext) /\
  CMS.massInverseBody1 M = get 0 inverseMasses (CMS.rigidBodyComponentIndexBody1 M) /\
  CMS.massInverseBody2 M = get 0 inverseMasses (CMS.rigidBodyComponentIndexBody2 M) /\
  CMS.inverseInertiaTensorBody1 M =
    World.getWorldInertiaTensorInverse w (ContactManifold.bodyEntity1 ext) /\
  CMS.inverseInertiaTensorBody2 M =
    World.getWorldInertiaTensorInverse w (ContactManifold.bodyEntity2 ext) /\
  CMS.frictionCoefficient M = computeMixedFrictionCoefficient collider1 collider2 /\
  CMS.rollingResistanceFactor M = computeMixedRollingResistance collider1 collider2 /\
  CMS.oldFrictionVector1 M = ContactManifold.frictionVector1 ext /\
  CMS.oldFrictionVector2 M = ContactManifold.frictionVector2 ext.

(** [Jv] of the two friction constraints of [solve] (lines 653-663 and
    703-711): the velocity difference at the friction point along the
    friction vector, over the constrained velocities. *)
Definition frictionJv (second : bool) (c : nat) (s : ContactSolverSystem) : R :=
  let M := constraint s c in
  let i1 := CMS.rigidBodyComponentIndexBody1 M in
  let i2 := CMS.rigidBodyComponentIndexBody2 M in
  let frictionVector := if second then CMS.frictionVector2 M else CMS.frictionVector1 M in
  let deltaV :=
    deltaV_solve (CLV s i1) (CAV s i1) (CLV s i2) (CAV s i2)
      (CMS.r1Friction M) (CMS.r2Friction M) in
  x deltaV * x frictionVector + y deltaV * y frictionVector + z deltaV * z frictionVector.

(** [friction1Mass] and [friction2Mass] of [initializeForIsland] (lines
    316-325), from the fields of the manifold record. *)
Definition frictionMass (second : bool) (M : CMS.t) : R :=
  let frictionVector := if second then CMS.frictionVector2 M else CMS.frictionVector1 M in
  let r1CrossT := if second then CMS.r1CrossT2 M else CMS.r1CrossT1 M in
  let r2CrossT := if second then CMS.r2CrossT2 M else CMS.r2CrossT1 M in
  CMS.massInverseBody1 M + CMS.massInverseBody2 M +
  Vec.dot (Vec.cross (Mat.mulv (CMS.inverseInertiaTensorBody1 M) r1CrossT) (CMS.r1Friction M))
          frictionVector +
  Vec.dot (Vec.cross (Mat.mulv (CMS.inverseInertiaTensorBody2 M) r2CrossT) (CMS.r2Friction M))
          frictionVector.

(** Hand-written solver records: a body of unit mass and inertia moves with
    the constrained velocity (4,-1,0) onto a static body below it; the
    manifold record has the friction point one unit below the centre of mass
    of body 0 and the tangent basis ((-1,0,0), (0,0,-1)) for the normal
    (0,-1,0), with the lever arms and inverse effective masses that
    [initializeForIsland] computes from them. *)
Definition slidingManifoldRecord : CMS.t :=
  CMS.mk 0%nat 0%nat 1%nat 1 0 identity Mat.zero 1%nat (1 / 2) 0
    Vec.zero Vec.zero (mkVector3 0 (-1) 0) (mkVector3 0 1 0)
    (mkVector3 0 0 (-1)) (mkVector3 1 0 0) (mkVector3 0 0 1) (mkVector3 (-1) 0 0)
    (1 / 2) (1 / 2) 1 Mat.zero
    (mkVector3 0 (-1) 0) (mkVector3 (-1) 0 0) (mkVector3 0 0 (-1))
    Vec.zero Vec.zero 0 0 0 Vec.zero.

Definition slidingPointRecord : CPS.t :=
  CPS.mk 0%nat (mkVector3 0 (-1) 0) (mkVector3 0 (-1) 0) (mkVector3 0 1 0)
    0 false 0 0 (mkVector3 0 0 0) Vec.zero 1 0.

Definition slidingRecords : ContactSolverSystem :=
  mkContactSolverSystem (1 / 60) [slidingManifoldRecord] [slidingPointRecord]
    1%nat 1%nat true 1 oneIsland oneManifold slidingPoints
    (RBC.mk [mkVector3 0 1 0; mkVector3 0 (-1) 0]
            [mkVector3 4 (-1) 0; Vec.zero] [Vec.zero; Vec.zero]
            [mkVector3 4 (-1) 0; Vec.zero] [Vec.zero; Vec.zero]
            [Vec.zero; Vec.zero] [Vec.zero; Vec.zero]
            [1; 0] [ones; ones] [ones; ones])
    slidingWorld.
(** [Jv] of the penetration constraint of [solve] (lines 521-533): the
    velocity difference at the contact point along the contact normal, over
    the constrained velocities. *)
Definition normalJv (c contactPointIndex : nat) (s : ContactSolverSystem) : R :=
  let M := constraint s c in
  let P := point s contactPointIndex in
  let i1 := CMS.rigidBodyComponentIndexBody1 M in
  let i2 := CMS.rigidBodyComponentIndexBody2 M in
  let deltaV := deltaV_solve (CLV s i1) (CAV s i1) (CLV s i2) (CAV s i2) (CPS.r1 P) (CPS.r2 P) in
  x deltaV * x (CPS.normal P) + y deltaV * y (CPS.normal P) + z deltaV * z (CPS.normal P).

(** [massPenetration] of [initializeForIsland] (lines 233-235), from the
    fields of the two records. *)
Definition penetrationMass (M : CMS.t) (P : CPS.t) : R :=
  CMS.massInverseBody1 M + CMS.massInverseBody2 M +
  Vec.dot (Vec.cross (CPS.i1TimesR1CrossN P) (CPS.r1 P)) (CPS.normal P) +
  Vec.dot (Vec.cross (CPS.i2TimesR2CrossN P) (CPS.r2 P)) (CPS.normal P).

(** The bias that enters the multiplier of the penetration constraint (lines
    540-548). *)
Definition penetrationBias (beta : R) (s : ContactSolverSystem) (P : CPS.t) : R :=
  if mIsSplitImpulseActive s then CPS.restitutionBias P
  else biasPenetrationDepth beta (mTimeStep s) (CPS.penetrationDepth P) +
       CPS.restitutionBias P.

(** [Jv] of the twist friction constraint of [solve] (lines 748-753): the
    difference of the constrained angular velocities along the manifold
    normal. *)
Definition twistJv (c : nat) (s : ContactSolverSystem) : R :=
  let M := constraint s c in
  let deltaV := Vec.sub (CAV s (CMS.rigidBodyComponentIndexBody2 M))
                        (CAV s (CMS.rigidBodyComponentIndexBody1 M)) in
  x deltaV * x (CMS.normal M) + y deltaV * y (CMS.normal M) + z deltaV * z (CMS.normal M).

(** [frictionTwistMass] of [initializeForIsland] (lines 326-329), from the
    fields of the manifold record. *)
Definition twistMass (M : CMS.t) : R :=
  Vec.dot (CMS.normal M) (Mat.mulv (CMS.inverseInertiaTensorBody1 M) (CMS.normal M)) +
  Vec.dot (CMS.normal M) (Mat.mulv (CMS.inverseInertiaTensorBody2 M) (CMS.normal M)).

(** Hand-written solver records for the rolling resistance: the records of
    [slidingRecords] with a rolling resistance factor of 1, the inverse of
    the summed inverse inertia tensors, and body 0 spinning with the
    angular velocity (0,1,1). *)
Definition rollingManifoldRecord : CMS.t :=
  CMS.mk 0%nat 0%nat 1%nat 1 0 identity Mat.zero 1%nat (1 / 2) 1
    Vec.zero Vec.zero (mkVector3 0 (-1) 0) (mkVector3 0 1 0)
    (mkVector3 0 0 (-1)) (mkVector3 1 0 0) (mkVector3 0 0 1) (mkVector3 (-1) 0 0)
    (1 / 2) (1 / 2) 1 identity
    (mkVector3 0 (-1) 0) (mkVector3 (-1) 0 0) (mkVector3 0 0 (-1))
    Vec.zero Vec.zero 0 0 0 Vec.zero.

Definition rollingRecords : ContactSolverSystem :=
  mkContactSolverSystem (1 / 60) [rollingManifoldRecord] [slidingPointRecord]
    1%nat 1%nat true 1 oneIsland oneManifold slidingPoints
    (RBC.mk [mkVector3 0 1 0; mkVector3 0 (-1) 0]
            [Vec.zero; Vec.zero] [mkVector3 0 1 1; Vec.zero]
            [Vec.zero; Vec.zero] [mkVector3 0 1 1; Vec.zero]
            [Vec.zero; Vec.zero] [Vec.zero; Vec.zero]
            [1; 0] [ones; ones] [ones; ones])
    slidingWorld.

(** Hand-written solver records of a contact that was already there at the
    previous step: the geometry of a body of unit mass and inertia on a
    static body, with the normal (0,-1,0) and the tangent basis
    ((-1,0,0), (0,0,-1)) of this step; the previous step left the tangent
    basis ((0,0,-1), (-1,0,0)) with the friction impulses 3 and 5, the twist
    impulse 7 and the rolling resistance impulse (1,0,0), and the contact
    point, flagged as resting, holds the penetration impulse 2. *)
Definition restingManifoldRecord : CMS.t :=
  CMS.mk 0%nat 0%nat 1%nat 1 0 identity Mat.zero 1%nat (1 / 2) 0
    Vec.zero Vec.zero (mkVector3 0 (-1) 0) (mkVector3 0 1 0)
    (mkVector3 0 0 (-1)) (mkVector3 1 0 0) (mkVector3 0 0 1) (mkVector3 (-1) 0 0)
    (1 / 2) (1 / 2) 1 Mat.zero
    (mkVector3 0 (-1) 0) (mkVector3 (-1) 0 0) (mkVector3 0 0 (-1))
    (mkVector3 0 0 (-1)) (mkVector3 (-1) 0 0) 3 5 7 (mkVector3 1 0 0).

Definition restingPointRecord : CPS.t :=
  CPS.mk 0%nat (mkVector3 0 (-1) 0) (mkVector3 0 (-1) 0) (mkVector3 0 1 0)
    0 true 2 0 Vec.zero Vec.zero 1 0.

Definition restingRecords : ContactSolverSystem :=
  mkContactSolverSystem (1 / 60) [restingManifoldRecord] [restingPointRecord]
    1%nat 1%nat true 1 oneIsland oneManifold slidingPoints
    (RBC.mk [mkVector3 0 1 0; mkVector3 0 (-1) 0]
            [Vec.zero; Vec.zero] [Vec.zero; Vec.zero]
            [Vec.zero; Vec.zero] [Vec.zero; Vec.zero]
            [Vec.zero; Vec.zero] [Vec.zero; Vec.zero]
            [1; 0] [ones; ones] [ones; ones])
    slidingWorld.

(** * Properties *)

(** ** Arrays and loops *)

Lemma update_length {A : Type} (i : nat) (f : A -> A) (l : list A) :
  List.length (update i f l) = List.length l.
Proof.
  revert i; induction l as [|a l IH]; intros [|i]; simpl; auto.
Qed.

Lemma get_update_same {A : Type} (d : A) (i : nat) (f : A -> A) (l : list A) :
  (i < List.length l)%nat -> get d (update i f l) i = f (get d l i).
Proof.
  unfold get; revert i; induction l as [|a l IH]; intros [|i] Hi; simpl in *;
    try lia; auto.
  apply IH; lia.
Qed.

Lemma get_update_other {A : Type} (d : A) (i j : nat) (f : A -> A) (l : list A) :
  i <> j -> get d (update i f l) j = get d l j.
Proof.
  unfold get; revert i j; induction l as [|a l IH]; intros [|i] [|j] Hij; simpl;
    try congruence; auto.
Qed.

Lemma update_out_of_range {A : Type} (i : nat) (f : A -> A) (l : list A) :
  (List.length l <= i)%nat -> update i f l = l.
Proof.
  revert i; induction l as [|a l IH]; intros [|i] Hi; simpl in *; try lia; auto.
  f_equal; apply IH; lia.
Qed.

Lemma map_update_invariant {A B : Type} (g : A -> B) (i : nat) (f : A -> A) (l : list A) :
  (forall a, g (f a) = g a) -> map g (update i f l) = map g l.
Proof.
  intros Hg; revert i; induction l as [|a l IH]; intros [|i]; simpl; auto.
  - now rewrite Hg.
  - now rewrite IH.
Qed.

Lemma get_map {A B : Type} (g : A -> B) (d : A) (l : list A) (i : nat) :
  get (g d) (map g l) i = g (get d l i).
Proof. unfold get; apply map_nth. Qed.

Lemma get_app_last {A : Type} (d a : A) (l : list A) :
  get d (l ++ [a]) (List.length l) = a.
Proof. unfold get; rewrite app_nth2, Nat.sub_diag; auto. Qed.

Lemma get_app_left {A : Type} (d : A) (l l' : list A) (i : nat) :
  (i < List.length l)%nat -> get d (l ++ l') i = get d l i.
Proof. intros Hi; unfold get; now rewrite app_nth1. Qed.

(** Loop invariants: [P i] holds before the turn of index [i]. *)
Lemma for_loop_invariant {S : Type} (P : nat -> S -> Prop) (body : nat -> S -> S)
  (count start : nat) (s : S) :
  P start s ->
  (forall i t, (start <= i < start + count)%nat -> P i t -> P (Datatypes.S i) (body i t)) ->
  P (start + count)%nat (for_loop start count body s).
Proof.
  revert start s; induction count as [|n IH]; intros start s H0 Hstep; simpl.
  - now rewrite Nat.add_0_r.
  - rewrite <- Nat.add_succ_comm. apply IH.
    + apply Hstep; [lia | exact H0].
    + intros i t Hi. apply Hstep; lia.
Qed.

Lemma for_loop_zero {S : Type} (body : nat -> S -> S) (start : nat) (s : S) :
  for_loop start 0 body s = s.
Proof. reflexivity. Qed.

Lemma for_loop_succ {S : Type} (body : nat -> S -> S) (start n : nat) (s : S) :
  for_loop start (Datatypes.S n) body s = body (start + n)%nat (for_loop start n body s).
Proof.
  revert start s; induction n as [|n IH]; intros start s.
  - simpl. now rewrite Nat.add_0_r.
  - change (for_loop start (Datatypes.S (Datatypes.S n)) body s)
      with (for_loop (Datatypes.S start) (Datatypes.S n) body (body start s)).
    rewrite IH. simpl. now rewrite Nat.add_succ_r.
Qed.

(** ** Comparisons *)

Lemma Rltb_true (a b : R) : a < b -> Rltb a b = true.
Proof. intros H; unfold Rltb; destruct (Rlt_dec a b); [reflexivity | contradiction]. Qed.

Lemma Rltb_false (a b : R) : b <= a -> Rltb a b = false.
Proof. intros H; unfold Rltb; destruct (Rlt_dec a b); [lra | reflexivity]. Qed.

Lemma Rltb_spec (a b : R) : Rltb a b = true <-> a < b.
Proof.
  unfold Rltb; destruct (Rlt_dec a b); split; intros; auto; discriminate.
Qed.

Lemma Rgtb_true (a b : R) : a > b -> Rgtb a b = true.
Proof. intros H; apply Rltb_true; lra. Qed.

Lemma Rgtb_false (a b : R) : a <= b -> Rgtb a b = false.
Proof. intros H; apply Rltb_false; lra. Qed.

Lemma inverseMass_pos (k : R) : 0 < k -> inverseMass k = / k.
Proof. intros H; unfold inverseMass; rewrite Rgtb_true by lra; lra. Qed.

Lemma inverseMass_nonpos (k : R) : k <= 0 -> inverseMass k = 0.
Proof. intros H; unfold inverseMass; now rewrite Rgtb_false. Qed.

(** ** Vector algebra *)

Lemma Vector3_eq (a b : Vector3) : x a = x b -> y a = y b -> z a = z b -> a = b.
Proof. destruct a, b; simpl; intros; subst; reflexivity. Qed.

Lemma lengthSquare_nonneg (a : Vector3) : 0 <= Vec.lengthSquare a.
Proof. unfold Vec.lengthSquare; nra. Qed.

Lemma length_nonneg (a : Vector3) : 0 <= Vec.length a.
Proof. apply sqrt_pos. Qed.

Lemma length_square (a : Vector3) : Vec.length a * Vec.length a = Vec.lengthSquare a.
Proof. apply sqrt_sqrt, lengthSquare_nonneg. Qed.

Lemma length_one_iff (a : Vector3) : Vec.length a = 1 <-> Vec.lengthSquare a = 1.
Proof.
  split; intros H.
  - rewrite <- length_square, H; lra.
  - unfold Vec.length; rewrite H; apply sqrt_1.
Qed.

Lemma lengthSquare_div (a : Vector3) (k : R) :
  k <> 0 -> Vec.lengthSquare (Vec.div a k) = Vec.lengthSquare a / (k * k).
Proof. intros Hk; unfold Vec.lengthSquare, Vec.div; simpl; field; exact Hk. Qed.

Lemma lengthSquare_pos (a : Vector3) : a <> Vec.zero -> 0 < Vec.lengthSquare a.
Proof.
  intros Ha. destruct (Rle_lt_dec (Vec.lengthSquare a) 0) as [H|H]; [|exact H].
  exfalso; apply Ha. unfold Vec.lengthSquare in H.
  apply Vector3_eq; simpl; nra.
Qed.

(** A vector that is not zero is normalised to length 1. *)
Lemma getUnit_length (a : Vector3) : a <> Vec.zero -> Vec.length (Vec.getUnit a) = 1.
Proof.
  intros Ha. pose proof (lengthSquare_pos a Ha) as Hp.
  assert (Hl : 0 < Vec.length a) by (apply sqrt_lt_R0; exact Hp).
  apply length_one_iff. unfold Vec.getUnit.
  rewrite lengthSquare_div by lra. rewrite length_square. field; lra.
Qed.

Lemma getUnit_of_unit (a : Vector3) : Vec.length a = 1 -> Vec.getUnit a = a.
Proof.
  intros H; unfold Vec.getUnit; rewrite H.
  apply Vector3_eq; simpl; lra.
Qed.

(** Lagrange's identity for the cross product. *)
Lemma lengthSquare_cross (a b : Vector3) :
  Vec.lengthSquare (Vec.cross a b) =
  Vec.lengthSquare a * Vec.lengthSquare b - Vec.dot a b * Vec.dot a b.
Proof. unfold Vec.lengthSquare, Vec.cross, Vec.dot; simpl; ring. Qed.




Lemma dot_comm (a b : Vector3) : Vec.dot a b = Vec.dot b a.
Proof. unfold Vec.dot; ring. Qed.

(** The expansion of [solve] is the formula of its comment; the expansion of
    [initializeForIsland] is not. *)
Lemma deltaV_solve_formula (v1 w1 v2 w2 r1 r2 : Vector3) :
  deltaV_solve v1 w1 v2 w2 r1 r2 = relativeVelocity v1 w1 v2 w2 r1 r2.
Proof.
  apply Vector3_eq;
    unfold deltaV_solve, relativeVelocity, Vec.sub, Vec.add, Vec.cross; simpl; ring.
Qed.

(** ** The tangent basis of [computeFrictionVectors] *)


Lemma unit_direction (t n : Vector3) :
  0 < Vec.length t -> Vec.dot t n = 0 ->
  Vec.length (Vec.div t (Vec.length t)) = 1 /\
  Vec.dot (Vec.div t (Vec.length t)) n = 0.
Proof.
  intros Ht Hz. assert (Hne : Vec.length t <> 0) by lra. split.
  - apply length_one_iff. rewrite lengthSquare_div by exact Hne.
    rewrite length_square. field.
    rewrite <- length_square. nra.
  - unfold Vec.dot, Vec.div in *; simpl.
    replace (x t / Vec.length t * x n + y t / Vec.length t * y n + z t / Vec.length t * z n)
      with ((x t * x n + y t * y n + z t * z n) / Vec.length t) by (field; exact Hne).
    rewrite Hz. unfold Rdiv; ring.
Qed.

(** The tangential part of a velocity is orthogonal to a unit normal. *)
Lemma tangentVelocity_orthogonal (dv n : Vector3) :
  Vec.length n = 1 ->
  Vec.dot (mkVector3 (x dv - x (Vec.scale (Vec.dot dv n) n))
                     (y dv - y (Vec.scale (Vec.dot dv n) n))
                     (z dv - z (Vec.scale (Vec.dot dv n) n))) n = 0.
Proof.
  intros Hn. apply length_one_iff in Hn. unfold Vec.lengthSquare in Hn.
  unfold Vec.dot, Vec.scale; simpl.
  replace ((x dv - (x dv * x n + y dv * y n + z dv * z n) * x n) * x n +
           (y dv - (x dv * x n + y dv * y n + z dv * z n) * y n) * y n +
           (z dv - (x dv * x n + y dv * y n + z dv * z n) * z n) * z n)
    with ((x dv * x n + y dv * y n + z dv * z n) *
          (1 - (x n * x n + y n * y n + z n * z n))) by ring.
  rewrite Hn; ring.
Qed.


(** ** Layout of the solver arrays *)

Lemma staticManifold_default : staticManifold CMS.default = CMS.default.
Proof. reflexivity. Qed.

Lemma constraint_static (s s' : ContactSolverSystem) (c : nat) :
  map staticManifold (mContactConstraints s') = map staticManifold (mContactConstraints s) ->
  staticManifold (constraint s' c) = staticManifold (constraint s c).
Proof.
  intros H. unfold constraint.
  rewrite <- !(get_map staticManifold). now rewrite H.
Qed.

Lemma nbContacts_static (s s' : ContactSolverSystem) (c : nat) :
  map staticManifold (mContactConstraints s') = map staticManifold (mContactConstraints s) ->
  CMS.nbContacts (constraint s' c) = CMS.nbContacts (constraint s c).
Proof.
  intros H. apply (constraint_static s s' c) in H.
  change (CMS.nbContacts (staticManifold (constraint s' c)) =
          CMS.nbContacts (staticManifold (constraint s c))).
  now rewrite H.
Qed.

Lemma nbContactsBefore_map (l l' : list CMS.t) (c : nat) :
  map staticManifold l' = map staticManifold l ->
  nbContactsBefore l' c = nbContactsBefore l c.
Proof.
  revert l l'; induction c as [|c IH]; intros l l' H.
  - destruct l, l'; reflexivity.
  - destruct l as [|M l], l' as [|M' l']; try discriminate; auto.
    assert (HM := f_equal (hd CMS.default) H).
    assert (Hl := f_equal (@tl _) H).
    cbn [map hd tl] in HM, Hl.
    cbn [nbContactsBefore]. rewrite (IH l l' Hl).
    change (CMS.nbContacts (staticManifold M') + nbContactsBefore l c =
            CMS.nbContacts (staticManifold M) + nbContactsBefore l c)%nat.
    now rewrite HM.
Qed.

Lemma firstPoint_static (s s' : ContactSolverSystem) (c : nat) :
  map staticManifold (mContactConstraints s') = map staticManifold (mContactConstraints s) ->
  firstPoint s' c = firstPoint s c.
Proof. apply nbContactsBefore_map. Qed.

Lemma length_static (s s' : ContactSolverSystem) :
  map staticManifold (mContactConstraints s') = map staticManifold (mContactConstraints s) ->
  List.length (mContactConstraints s') = List.length (mContactConstraints s).
Proof. intros H. apply (f_equal (@List.length _)) in H. now rewrite !length_map in H. Qed.

Lemma nbContactsBefore_succ (l : list CMS.t) (c : nat) :
  (c < List.length l)%nat ->
  nbContactsBefore l (Datatypes.S c) =
  (nbContactsBefore l c + CMS.nbContacts (get CMS.default l c))%nat.
Proof.
  revert c; induction l as [|M l IH]; intros c Hc; simpl in Hc; [lia|].
  destruct c as [|c].
  - simpl. destruct l; unfold get; simpl; lia.
  - change (nbContactsBefore (M :: l) (Datatypes.S (Datatypes.S c)))
      with (CMS.nbContacts M + nbContactsBefore l (Datatypes.S c))%nat.
    rewrite IH by lia. unfold get; simpl. lia.
Qed.

Lemma firstPoint_zero (s : ContactSolverSystem) : firstPoint s 0 = 0%nat.
Proof. unfold firstPoint; destruct (mContactConstraints s); reflexivity. Qed.

Lemma firstPoint_succ (s : ContactSolverSystem) (c : nat) :
  (c < List.length (mContactConstraints s))%nat ->
  firstPoint s (Datatypes.S c) = (firstPoint s c + CMS.nbContacts (constraint s c))%nat.
Proof. apply nbContactsBefore_succ. Qed.

Lemma firstPoint_mono (s : ContactSolverSystem) (c c' : nat) :
  (c <= c')%nat -> (c' <= List.length (mContactConstraints s))%nat ->
  (firstPoint s c <= firstPoint s c')%nat.
Proof.
  induction 1 as [|c' Hle IH]; intros Hc'; [lia|].
  rewrite (firstPoint_succ s c') by lia. specialize (IH ltac:(lia)). lia.
Qed.

Lemma manifoldPoints_ext (s s' : ContactSolverSystem) (first nb : nat) :
  (forall i, (first <= i < first + nb)%nat -> point s' i = point s i) ->
  manifoldPoints s' first nb = manifoldPoints s first nb.
Proof.
  intros H. unfold manifoldPoints. apply map_ext_in.
  intros i Hi. apply in_seq in Hi. apply H; lia.
Qed.

(** ** The manifold loop shared by [warmStart] and [solve]

    A loop body that keeps the layout, advances [contactPointIndex] by the
    number of contact points of its manifold and touches no other manifold and
    no other contact point establishes its postcondition for every manifold. *)
Section ManifoldLoop.

Variable body : nat -> ContactSolverSystem * nat -> ContactSolverSystem * nat.
Variable Post : CMS.t -> list CPS.t -> CMS.t -> list CPS.t -> Prop.
Variable Inv : ContactSolverSystem -> Prop.

Hypothesis body_local : forall c s idx,
  Inv s ->
  (c < List.length (mContactConstraints s))%nat ->
  (idx + CMS.nbContacts (constraint s c) <= List.length (mContactPoints s))%nat ->
  let s' := fst (body c (s, idx)) in
  let nb := CMS.nbContacts (constraint s c) in
  snd (body c (s, idx)) = (idx + nb)%nat /\
  Inv s' /\
  map staticManifold (mContactConstraints s') = map staticManifold (mContactConstraints s) /\
  List.length (mContactPoints s') = List.length (mContactPoints s) /\
  (forall c', c' <> c -> constraint s' c' = constraint s c') /\
  (forall i, ~ (idx <= i < idx + nb)%nat -> point s' i = point s i) /\
  Post (constraint s c) (manifoldPoints s idx nb) (constraint s' c) (manifoldPoints s' idx nb).

Lemma manifold_loop (s : ContactSolverSystem) (n : nat) :
  Inv s ->
  (n <= List.length (mContactConstraints s))%nat ->
  (firstPoint s n <= List.length (mContactPoints s))%nat ->
  let r := for_loop 0 n body (s, 0%nat) in
  snd r = firstPoint s n /\
  Inv (fst r) /\
  map staticManifold (mContactConstraints (fst r)) = map staticManifold (mContactConstraints s) /\
  List.length (mContactPoints (fst r)) = List.length (mContactPoints s) /\
  (forall c, (n <= c)%nat -> constraint (fst r) c = constraint s c) /\
  (forall i, (firstPoint s n <= i)%nat -> point (fst r) i = point s i) /\
  (forall c, (c < n)%nat ->
     Post (constraint s c) (pointsOfManifold s c)
          (constraint (fst r) c)
          (manifoldPoints (fst r) (firstPoint s c) (CMS.nbContacts (constraint s c)))).
Proof.
  intros HI. induction n as [|n IH]; intros Hn Hp.
  - simpl. rewrite firstPoint_zero. repeat split; auto. intros; lia.
  - cbv zeta. rewrite for_loop_succ. simpl Nat.add.
    assert (Hfp := firstPoint_succ s n ltac:(lia)).
    destruct IH as (Hidx & HIn & Hst & Hlen & Hcs & Hps & Hpost); [lia | lia |].
    destruct (for_loop 0 n body (s, 0%nat)) as [sn idx] eqn:Hr.
    simpl in Hidx, HIn, Hst, Hlen, Hcs, Hps, Hpost. subst idx.
    assert (Hnb : CMS.nbContacts (constraint sn n) = CMS.nbContacts (constraint s n))
      by (now apply nbContacts_static).
    destruct (body_local n sn (firstPoint s n)) as (B1 & B0 & B2 & B3 & B4 & B5 & B6).
    { exact HIn. }
    { rewrite (length_static _ _ Hst). lia. }
    { rewrite Hnb, Hlen. lia. }
    rewrite Hnb in *.
    repeat split.
    + rewrite B1. lia.
    + exact B0.
    + now rewrite B2.
    + now rewrite B3.
    + intros c Hc. rewrite B4 by lia. apply Hcs; lia.
    + intros i Hi. rewrite B5 by lia. apply Hps; lia.
    + intros c Hc. destruct (Nat.eq_dec c n) as [->|Hne].
      * rewrite (Hcs n) in B6 by lia.
        rewrite (manifoldPoints_ext s sn) in B6 by (intros i Hi; apply Hps; lia).
        exact B6.
      * assert (Hc' : (c < n)%nat) by lia.
        rewrite B4 by exact Hne.
        assert (Hle : (firstPoint s (Datatypes.S c) <= firstPoint s n)%nat)
          by (apply firstPoint_mono; lia).
        rewrite (firstPoint_succ s c) in Hle by lia.
        rewrite (manifoldPoints_ext sn) by (intros i Hi; apply B5; lia).
        apply Hpost; exact Hc'.
Qed.

End ManifoldLoop.

(** ** Effects of the steps of [solve] on the solver arrays *)

(** Unfolds a step of the solver down to the array updates, leaving the
    multipliers, the reads and the arithmetic folded. *)
Ltac effect :=
  match goal with |- ?p _ = _ => idtac end;
  lazy -[penetrationDeltaLambda splitDeltaLambda update get
         Rmax Rmin Rplus Rminus Rmult Ropp Rdiv Rinv clampImpulse Rgtb Rltb
         Vec.add Vec.sub Vec.scale Vec.mulr Vec.neg Vec.dot Vec.cross Mat.mulv
         scaleAxis];
  reflexivity.

Lemma solvePenetration_points (beta : R) (c i : nat) (s : ContactSolverSystem) :
  mContactPoints (solvePenetration beta c i s) =
  update i
    (CPS.set_penetrationImpulse
       (Rmax (CPS.penetrationImpulse (point s i) + penetrationDeltaLambda beta c i s) 0))
    (mContactPoints s).
Proof. effect. Qed.

Lemma solveSplit_points (beta : R) (c i : nat) (s : ContactSolverSystem) :
  mContactPoints (solveSplit beta c i s) =
  update i
    (CPS.set_penetrationSplitImpulse
       (Rmax (CPS.penetrationSplitImpulse (point s i) + splitDeltaLambda beta c i s) 0))
    (mContactPoints s).
Proof. effect. Qed.

Lemma solvePenetration_split (beta : R) (c i : nat) (s : ContactSolverSystem) :
  mIsSplitImpulseActive (solvePenetration beta c i s) = mIsSplitImpulseActive s.
Proof. effect. Qed.

Lemma solveSplit_split (beta : R) (c i : nat) (s : ContactSolverSystem) :
  mIsSplitImpulseActive (solveSplit beta c i s) = mIsSplitImpulseActive s.
Proof. effect. Qed.

Lemma solvePenetration_constraints (beta : R) (c i : nat) (s : ContactSolverSystem) :
  mContactConstraints (solvePenetration beta c i s) = mContactConstraints s.
Proof. effect. Qed.

Lemma solveSplit_constraints (beta : R) (c i : nat) (s : ContactSolverSystem) :
  mContactConstraints (solveSplit beta c i s) = mContactConstraints s.
Proof. effect. Qed.

Lemma solvePoint_solver (beta : R) (c : nat) (st : SolveLoop) :
  sl_solver (solvePoint beta c st) =
  let i := sl_contactPointIndex st in
  let s := solvePenetration beta c i (sl_solver st) in
  if mIsSplitImpulseActive (sl_solver st) then solveSplit beta c i s else s.
Proof.
  unfold solvePoint. cbv beta iota zeta delta [sl_solver].
  now rewrite solvePenetration_split.
Qed.

Lemma solvePoint_other (beta : R) (c : nat) (st : SolveLoop) (j : nat) :
  j <> sl_contactPointIndex st ->
  point (sl_solver (solvePoint beta c st)) j = point (sl_solver st) j.
Proof.
  intros Hj. rewrite solvePoint_solver. cbv zeta.
  destruct (mIsSplitImpulseActive (sl_solver st)); unfold point.
  - rewrite solveSplit_points, get_update_other by auto.
    rewrite solvePenetration_points, get_update_other by auto. reflexivity.
  - rewrite solvePenetration_points, get_update_other by auto. reflexivity.
Qed.

Lemma solvePoint_constraints (beta : R) (c : nat) (st : SolveLoop) :
  mContactConstraints (sl_solver (solvePoint beta c st)) = mContactConstraints (sl_solver st).
Proof.
  rewrite solvePoint_solver. cbv zeta.
  destruct (mIsSplitImpulseActive (sl_solver st)).
  - now rewrite solveSplit_constraints, solvePenetration_constraints.
  - now rewrite solvePenetration_constraints.
Qed.

Lemma solvePoint_length (beta : R) (c : nat) (st : SolveLoop) :
  List.length (mContactPoints (sl_solver (solvePoint beta c st))) =
  List.length (mContactPoints (sl_solver st)).
Proof.
  rewrite solvePoint_solver. cbv zeta.
  destruct (mIsSplitImpulseActive (sl_solver st)).
  - now rewrite solveSplit_points, solvePenetration_points, !update_length.
  - now rewrite solvePenetration_points, update_length.
Qed.

Lemma solvePoint_split (beta : R) (c : nat) (st : SolveLoop) :
  mIsSplitImpulseActive (sl_solver (solvePoint beta c st)) =
  mIsSplitImpulseActive (sl_solver st).
Proof.
  rewrite solvePoint_solver. cbv zeta.
  destruct (mIsSplitImpulseActive (sl_solver st)) eqn:Hs.
  - now rewrite solveSplit_split, solvePenetration_split.
  - now rewrite solvePenetration_split.
Qed.

Lemma solvePoint_index (beta : R) (c : nat) (st : SolveLoop) :
  sl_contactPointIndex (solvePoint beta c st) = Datatypes.S (sl_contactPointIndex st).
Proof. effect. Qed.

Lemma solvePoint_sum (beta : R) (c : nat) (st : SolveLoop) :
  sl_sumPenetrationImpulse (solvePoint beta c st) =
  sl_sumPenetrationImpulse st +
  CPS.penetrationImpulse (point (sl_solver (solvePoint beta c st)) (sl_contactPointIndex st)).
Proof.
  rewrite solvePoint_solver. cbv zeta. unfold solvePoint.
  cbn [sl_sumPenetrationImpulse]. f_equal.
  destruct (mIsSplitImpulseActive (sl_solver st)); [|reflexivity].
  unfold point. rewrite solveSplit_points.
  set (l := mContactPoints _).
  destruct (Nat.lt_ge_cases (sl_contactPointIndex st) (List.length l)) as [Hlt|Hge].
  - rewrite get_update_same by exact Hlt. reflexivity.
  - rewrite update_out_of_range by exact Hge. reflexivity.
Qed.

(** ** The contact-point loop of [solve] *)

Lemma solvePenetration_point (beta : R) (c i : nat) (s : ContactSolverSystem) :
  (i < List.length (mContactPoints s))%nat ->
  point (solvePenetration beta c i s) i =
  CPS.set_penetrationImpulse
    (Rmax (CPS.penetrationImpulse (point s i) + penetrationDeltaLambda beta c i s) 0)
    (point s i).
Proof.
  intros Hi. unfold point at 1. rewrite solvePenetration_points.
  now rewrite get_update_same.
Qed.

Lemma solveSplit_point (beta : R) (c i : nat) (s : ContactSolverSystem) :
  (i < List.length (mContactPoints s))%nat ->
  point (solveSplit beta c i s) i =
  CPS.set_penetrationSplitImpulse
    (Rmax (CPS.penetrationSplitImpulse (point s i) + splitDeltaLambda beta c i s) 0)
    (point s i).
Proof.
  intros Hi. unfold point at 1. rewrite solveSplit_points.
  now rewrite get_update_same.
Qed.

(** The contact point that one turn of the contact-point loop leaves at its
    index. *)
Lemma solvePoint_same (beta : R) (c : nat) (st : SolveLoop) :
  let s := sl_solver st in
  let i := sl_contactPointIndex st in
  let P' := point (sl_solver (solvePoint beta c st)) i in
  (i < List.length (mContactPoints s))%nat ->
  CPS.penetrationImpulse P' =
    Rmax (CPS.penetrationImpulse (point s i) + penetrationDeltaLambda beta c i s) 0 /\
  CPS.penetrationSplitImpulse P' =
    (if mIsSplitImpulseActive s
     then Rmax (CPS.penetrationSplitImpulse (point s i) +
                splitDeltaLambda beta c i (solvePenetration beta c i s)) 0
     else CPS.penetrationSplitImpulse (point s i)) /\
  staticPoint P' = staticPoint (point s i).
Proof.
  intros s i P' Hi. subst P'. rewrite solvePoint_solver. cbv zeta. fold s. fold i.
  destruct (mIsSplitImpulseActive s).
  - rewrite solveSplit_point
      by (rewrite solvePenetration_points, update_length; exact Hi).
    rewrite solvePenetration_point by exact Hi.
    split; [reflexivity | split; reflexivity].
  - rewrite solvePenetration_point by exact Hi.
    split; [reflexivity | split; reflexivity].
Qed.

Lemma manifoldPoints_succ (s : ContactSolverSystem) (first nb : nat) :
  manifoldPoints s first (Datatypes.S nb) =
  manifoldPoints s first nb ++ [point s (first + nb)%nat].
Proof. unfold manifoldPoints. now rewrite seq_S, map_app. Qed.

Lemma sumImpulses_app (l : list CPS.t) (P : CPS.t) :
  sumImpulses (l ++ [P]) = sumImpulses l + CPS.penetrationImpulse P.
Proof. unfold sumImpulses. now rewrite map_app, fold_left_app. Qed.

Lemma sumImpulses_nonneg (l : list CPS.t) :
  Forall (fun P => 0 <= CPS.penetrationImpulse P) l -> 0 <= sumImpulses l.
Proof.
  induction l as [|P l IH] using rev_ind; intros H.
  - unfold sumImpulses; simpl; lra.
  - rewrite sumImpulses_app. apply Forall_app in H as [H1 H2].
    inversion H2; subst. specialize (IH H1). lra.
Qed.

(** The contact-point loop of a manifold in [solve]: it advances the index
    by [nb], touches only its [nb] contact points, leaves each of them with
    non-negative accumulated impulses and returns their sum. *)
Lemma solvePoints_loop (beta : R) (c : nat) (s : ContactSolverSystem) (idx nb : nat) :
  (idx + nb <= List.length (mContactPoints s))%nat ->
  let r := for_loop 0 nb (fun _ => solvePoint beta c) (mkSolveLoop s idx 0) in
  sl_contactPointIndex r = (idx + nb)%nat /\
  mContactConstraints (sl_solver r) = mContactConstraints s /\
  List.length (mContactPoints (sl_solver r)) = List.length (mContactPoints s) /\
  mIsSplitImpulseActive (sl_solver r) = mIsSplitImpulseActive s /\
  (forall i, ~ (idx <= i < idx + nb)%nat -> point (sl_solver r) i = point s i) /\
  Forall (fun P => 0 <= CPS.penetrationImpulse P /\
                   (mIsSplitImpulseActive s = true -> 0 <= CPS.penetrationSplitImpulse P))
         (manifoldPoints (sl_solver r) idx nb) /\
  sl_sumPenetrationImpulse r = sumImpulses (manifoldPoints (sl_solver r) idx nb).
Proof.
  induction nb as [|nb IH]; intros Hlen.
  - simpl. repeat split; auto.
  - cbv zeta. rewrite for_loop_succ.
    destruct IH as (Hi & Hc & Hl & Hf & Ho & Hnn & Hsum); [lia|].
    set (r := for_loop 0 nb (fun _ => solvePoint beta c) (mkSolveLoop s idx 0)) in *.
    assert (Hsame : manifoldPoints (sl_solver (solvePoint beta c r)) idx nb =
                    manifoldPoints (sl_solver r) idx nb).
    { apply manifoldPoints_ext. intros i Hi'. apply solvePoint_other. lia. }
    assert (Hin : (sl_contactPointIndex r < List.length (mContactPoints (sl_solver r)))%nat)
      by lia.
    destruct (solvePoint_same beta c r Hin) as (Hp & Hps & _).
    rewrite Hi in Hp, Hps.
    split; [|split; [|split; [|split; [|split; [|split]]]]].
    + rewrite solvePoint_index. lia.
    + now rewrite solvePoint_constraints.
    + now rewrite solvePoint_length.
    + now rewrite solvePoint_split.
    + intros i Hni. rewrite solvePoint_other by lia. apply Ho; lia.
    + rewrite manifoldPoints_succ, Hsame. apply Forall_app. split; [exact Hnn|].
      constructor; [|constructor]. split.
      * rewrite Hp. apply Rmax_r.
      * intros Hact. rewrite Hps, Hf, Hact. apply Rmax_r.
    + rewrite solvePoint_sum, Hsum, Hi, manifoldPoints_succ, sumImpulses_app, Hsame.
      reflexivity.
Qed.

(** ** The friction, twist and rolling steps *)

Lemma clampImpulse_bound (v L : R) : 0 <= L -> Rabs (clampImpulse v L) <= L.
Proof.
  intros HL. unfold clampImpulse, Rmax, Rmin, Rabs.
  repeat (destruct (Rle_dec _ _) || destruct (Rcase_abs _)); lra.
Qed.

Lemma constraint_update_same (s s' : ContactSolverSystem) (c : nat) (F : CMS.t -> CMS.t) :
  mContactConstraints s' = update c F (mContactConstraints s) ->
  (c < List.length (mContactConstraints s))%nat ->
  constraint s' c = F (constraint s c).
Proof. intros H Hc. unfold constraint. rewrite H. now apply get_update_same. Qed.

Lemma constraint_update_other (s s' : ContactSolverSystem) (c c' : nat) (F : CMS.t -> CMS.t) :
  mContactConstraints s' = update c F (mContactConstraints s) ->
  c' <> c -> constraint s' c' = constraint s c'.
Proof. intros H Hc. unfold constraint. rewrite H. apply get_update_other. auto. Qed.

Lemma solveFriction1_constraints (c : nat) (sum : R) (s : ContactSolverSystem) :
  exists v,
    mContactConstraints (solveFriction false c sum s) =
    update c (CMS.set_friction1Impulse
                (clampImpulse v (CMS.frictionCoefficient (constraint s c) * sum)))
           (mContactConstraints s).
Proof. eexists. effect. Qed.

Lemma solveFriction2_constraints (c : nat) (sum : R) (s : ContactSolverSystem) :
  exists v,
    mContactConstraints (solveFriction true c sum s) =
    update c (CMS.set_friction2Impulse
                (clampImpulse v (CMS.frictionCoefficient (constraint s c) * sum)))
           (mContactConstraints s).
Proof. eexists. effect. Qed.

Lemma solveTwist_constraints (c : nat) (sum : R) (s : ContactSolverSystem) :
  exists v,
    mContactConstraints (solveTwist c sum s) =
    update c (CMS.set_frictionTwistImpulse
                (clampImpulse v (CMS.frictionCoefficient (constraint s c) * sum)))
           (mContactConstraints s).
Proof. eexists. effect. Qed.

Lemma solveFriction_points (b : bool) (c : nat) (sum : R) (s : ContactSolverSystem) :
  mContactPoints (solveFriction b c sum s) = mContactPoints s.
Proof. effect. Qed.

Lemma solveTwist_points (c : nat) (sum : R) (s : ContactSolverSystem) :
  mContactPoints (solveTwist c sum s) = mContactPoints s.
Proof. effect. Qed.

Lemma solveFriction_split (b : bool) (c : nat) (sum : R) (s : ContactSolverSystem) :
  mIsSplitImpulseActive (solveFriction b c sum s) = mIsSplitImpulseActive s.
Proof. effect. Qed.

Lemma solveTwist_split (c : nat) (sum : R) (s : ContactSolverSystem) :
  mIsSplitImpulseActive (solveTwist c sum s) = mIsSplitImpulseActive s.
Proof. effect. Qed.

(** [solveRolling] is the identity unless the rolling resistance factor is
    positive, and then stores the clamped impulse. *)
Lemma solveRolling_skipped (clamp : Vector3 -> R -> Vector3) (c : nat) (sum : R)
  (s : ContactSolverSystem) :
  CMS.rollingResistanceFactor (constraint s c) <= 0 -> solveRolling clamp c sum s = s.
Proof. intros H. unfold solveRolling. now rewrite Rgtb_false. Qed.

Lemma solveRolling_constraints (clamp : Vector3 -> R -> Vector3) (c : nat) (sum : R)
  (s : ContactSolverSystem) :
  0 < CMS.rollingResistanceFactor (constraint s c) ->
  exists v,
    mContactConstraints (solveRolling clamp c sum s) =
    update c (CMS.set_rollingResistanceImpulse
                (clamp v (CMS.rollingResistanceFactor (constraint s c) * sum)))
           (mContactConstraints s).
Proof.
  intros H. unfold solveRolling. rewrite Rgtb_true by lra. eexists.
  lazy -[constraint update Rplus Rminus Rmult Ropp Vec.add Vec.sub Vec.neg Mat.mulv CAV].
  reflexivity.
Qed.

Lemma solveRolling_points (clamp : Vector3 -> R -> Vector3) (c : nat) (sum : R)
  (s : ContactSolverSystem) :
  mContactPoints (solveRolling clamp c sum s) = mContactPoints s.
Proof. unfold solveRolling. destruct (Rgtb _ _); effect. Qed.

Lemma solveRolling_split (clamp : Vector3 -> R -> Vector3) (c : nat) (sum : R)
  (s : ContactSolverSystem) :
  mIsSplitImpulseActive (solveRolling clamp c sum s) = mIsSplitImpulseActive s.
Proof. unfold solveRolling. destruct (Rgtb _ _); effect. Qed.

(** ** One turn of the manifold loop of [solve] *)

Lemma static_update (l : list CMS.t) (c : nat) (F : CMS.t -> CMS.t) :
  (forall M, staticManifold (F M) = staticManifold M) ->
  map staticManifold (update c F l) = map staticManifold l.
Proof. apply map_update_invariant. Qed.

(** The four manifold-level steps of [solve] together: they touch only the
    accumulated impulses of manifold [c]; every friction impulse is the
    result of a clamp to the friction limit, and the rolling impulse is
    either kept or the result of [clamp] to the rolling limit. *)
Lemma solveFrictions (clamp : Vector3 -> R -> Vector3) (c : nat) (sum : R)
  (s : ContactSolverSystem) :
  (c < List.length (mContactConstraints s))%nat ->
  let s' := solveRolling clamp c sum
              (solveTwist c sum (solveFriction true c sum (solveFriction false c sum s))) in
  let M := constraint s c in
  let M' := constraint s' c in
  mContactPoints s' = mContactPoints s /\
  mIsSplitImpulseActive s' = mIsSplitImpulseActive s /\
  map staticManifold (mContactConstraints s') = map staticManifold (mContactConstraints s) /\
  (forall c', c' <> c -> constraint s' c' = constraint s c') /\
  (exists v, CMS.friction1Impulse M' = clampImpulse v (CMS.frictionCoefficient M * sum)) /\
  (exists v, CMS.friction2Impulse M' = clampImpulse v (CMS.frictionCoefficient M * sum)) /\
  (exists v, CMS.frictionTwistImpulse M' = clampImpulse v (CMS.frictionCoefficient M * sum)) /\
  (CMS.rollingResistanceFactor M <= 0 ->
   CMS.rollingResistanceImpulse M' = CMS.rollingResistanceImpulse M) /\
  (0 < CMS.rollingResistanceFactor M ->
   exists v, CMS.rollingResistanceImpulse M' = clamp v (CMS.rollingResistanceFactor M * sum)).
Proof.
  intros Hc.
  set (s1 := solveFriction false c sum s).
  set (s2 := solveFriction true c sum s1).
  set (s3 := solveTwist c sum s2).
  cbv zeta.
  destruct (solveFriction1_constraints c sum s) as [v1 E1]. fold s1 in E1.
  destruct (solveFriction2_constraints c sum s1) as [v2 E2]. fold s2 in E2.
  destruct (solveTwist_constraints c sum s2) as [v3 E3]. fold s3 in E3.
  assert (L1 : List.length (mContactConstraints s1) = List.length (mContactConstraints s))
    by (rewrite E1; apply update_length).
  assert (L2 : List.length (mContactConstraints s2) = List.length (mContactConstraints s))
    by (rewrite E2, update_length; exact L1).
  assert (L3 : List.length (mContactConstraints s3) = List.length (mContactConstraints s))
    by (rewrite E3, update_length; exact L2).
  assert (C1 := constraint_update_same s s1 c _ E1 Hc).
  assert (C2 := constraint_update_same s1 s2 c _ E2 ltac:(lia)).
  assert (C3 := constraint_update_same s2 s3 c _ E3 ltac:(lia)).
  rewrite C1 in C2. rewrite C2 in C3.
  assert (S3 : map staticManifold (mContactConstraints s3) =
               map staticManifold (mContactConstraints s)).
  { rewrite E3, static_update by reflexivity.
    rewrite E2, static_update by reflexivity.
    rewrite E1, static_update by reflexivity. reflexivity. }
  assert (O3 : forall c', c' <> c -> constraint s3 c' = constraint s c').
  { intros c' Hne.
    rewrite (constraint_update_other s2 s3 c c' _ E3 Hne).
    rewrite (constraint_update_other s1 s2 c c' _ E2 Hne).
    apply (constraint_update_other s s1 c c' _ E1 Hne). }
  assert (P3 : mContactPoints s3 = mContactPoints s).
  { unfold s3, s2, s1.
    now rewrite solveTwist_points, !solveFriction_points. }
  assert (F3 : mIsSplitImpulseActive s3 = mIsSplitImpulseActive s).
  { unfold s3, s2, s1.
    now rewrite solveTwist_split, !solveFriction_split. }
  assert (R3 : CMS.rollingResistanceFactor (constraint s3 c) =
               CMS.rollingResistanceFactor (constraint s c))
    by (rewrite C3; reflexivity).
  destruct (Rle_lt_dec (CMS.rollingResistanceFactor (constraint s c)) 0) as [Hr|Hr].
  - rewrite solveRolling_skipped by (rewrite R3; exact Hr).
    rewrite C3.
    split; [exact P3|]. split; [exact F3|]. split; [exact S3|]. split; [exact O3|].
    split; [exists v1; reflexivity|]. split; [exists v2; reflexivity|].
    split; [exists v3; reflexivity|]. split; [intros _; reflexivity|].
    intros Hpos; lra.
  - destruct (solveRolling_constraints clamp c sum s3) as [v4 E4];
      [rewrite R3; exact Hr|].
    assert (C4 := constraint_update_same s3 _ c _ E4 ltac:(lia)).
    rewrite C3 in C4. rewrite C4.
    split; [rewrite solveRolling_points; exact P3|].
    split; [rewrite solveRolling_split; exact F3|].
    split; [rewrite E4, static_update by reflexivity; exact S3|].
    split.
    { intros c' Hne. rewrite (constraint_update_other s3 _ c c' _ E4 Hne). now apply O3. }
    split; [exists v1; reflexivity|]. split; [exists v2; reflexivity|].
    split; [exists v3; reflexivity|]. split; [intros Hneg; lra|].
    intros _. exists v4. reflexivity.
Qed.

(** One turn of the manifold loop of [solve] meets the conditions of the
    shared manifold loop, with [solvedManifold] for postcondition. *)
Lemma solveManifold_local (clamp : Vector3 -> R -> Vector3) (beta : R) (flag : bool)
  (c : nat) (s : ContactSolverSystem) (idx : nat) :
  mIsSplitImpulseActive s = flag ->
  (c < List.length (mContactConstraints s))%nat ->
  (idx + CMS.nbContacts (constraint s c) <= List.length (mContactPoints s))%nat ->
  let s' := fst (solveManifold clamp beta c (s, idx)) in
  let nb := CMS.nbContacts (constraint s c) in
  snd (solveManifold clamp beta c (s, idx)) = (idx + nb)%nat /\
  mIsSplitImpulseActive s' = flag /\
  map staticManifold (mContactConstraints s') = map staticManifold (mContactConstraints s) /\
  List.length (mContactPoints s') = List.length (mContactPoints s) /\
  (forall c', c' <> c -> constraint s' c' = constraint s c') /\
  (forall i, ~ (idx <= i < idx + nb)%nat -> point s' i = point s i) /\
  solvedManifold clamp flag (constraint s c) (manifoldPoints s idx nb)
                 (constraint s' c) (manifoldPoints s' idx nb).
Proof.
  intros Hflag Hc Hlen. unfold solveManifold. cbv beta iota zeta. cbn [fst snd].
  destruct (solvePoints_loop beta c s idx (CMS.nbContacts (constraint s c)) Hlen)
    as (Hi & Hcs & Hl & Hf & Ho & Hnn & Hsum).
  set (r := for_loop 0 (CMS.nbContacts (constraint s c)) (fun _ => solvePoint beta c)
              (mkSolveLoop s idx 0)) in *.
  assert (Hc0 : (c < List.length (mContactConstraints (sl_solver r)))%nat)
    by (rewrite Hcs; exact Hc).
  destruct (solveFrictions clamp c (sl_sumPenetrationImpulse r) (sl_solver r) Hc0)
    as (Hp & Hfl & Hst & Hoc & [v1 H1] & [v2 H2] & [v3 H3] & Hr0 & Hr1).
  set (s' := solveRolling clamp c _ _) in *.
  assert (HM : constraint (sl_solver r) c = constraint s c)
    by (unfold constraint; now rewrite Hcs).
  rewrite HM in *.
  assert (Hpts : manifoldPoints s' idx (CMS.nbContacts (constraint s c)) =
                 manifoldPoints (sl_solver r) idx (CMS.nbContacts (constraint s c))).
  { apply manifoldPoints_ext. intros i _. unfold point. now rewrite Hp. }
  split; [exact Hi|]. split; [rewrite Hfl, Hf; exact Hflag|].
  split; [rewrite Hst, Hcs; reflexivity|].
  split; [rewrite Hp; exact Hl|].
  split.
  { intros c' Hne. rewrite Hoc by exact Hne. unfold constraint. now rewrite Hcs. }
  split.
  { intros i Hni. unfold point at 1. rewrite Hp. now apply Ho. }
  rewrite Hpts. unfold solvedManifold. rewrite <- Hsum. rewrite Hflag in Hnn.
  assert (Hsum0 : 0 <= sl_sumPenetrationImpulse r).
  { rewrite Hsum. apply sumImpulses_nonneg.
    eapply Forall_impl; [|exact Hnn]. intros P [HP _]; exact HP. }
  split; [exact Hnn|]. split; [|split].
  - intros Hmu.
    assert (HL : 0 <= CMS.frictionCoefficient (constraint s c) * sl_sumPenetrationImpulse r)
      by (apply Rmult_le_pos; assumption).
    rewrite H1, H2, H3. repeat split; apply clampImpulse_bound; exact HL.
  - exact Hr0.
  - intros Hrho Hclamp. destruct (Hr1 Hrho) as [v4 H4]. rewrite H4.
    apply Hclamp. apply Rmult_le_pos; lra.
Qed.

(** ** What [solve] leaves alone *)

Lemma solverFrame_split (s s' : ContactSolverSystem) :
  solverFrame s' = solverFrame s -> mIsSplitImpulseActive s' = mIsSplitImpulseActive s.
Proof. unfold solverFrame. intros H. congruence. Qed.

Lemma solverFrame_nb (s s' : ContactSolverSystem) :
  solverFrame s' = solverFrame s -> mNbContactManifolds s' = mNbContactManifolds s.
Proof. unfold solverFrame. intros H. congruence. Qed.

Lemma solvePenetration_frame (beta : R) (c i : nat) (s : ContactSolverSystem) :
  solverFrame (solvePenetration beta c i s) = solverFrame s.
Proof. effect. Qed.

Lemma solveSplit_frame (beta : R) (c i : nat) (s : ContactSolverSystem) :
  solverFrame (solveSplit beta c i s) = solverFrame s.
Proof. effect. Qed.

Lemma solvePoint_frame (beta : R) (c : nat) (st : SolveLoop) :
  solverFrame (sl_solver (solvePoint beta c st)) = solverFrame (sl_solver st).
Proof.
  rewrite solvePoint_solver. cbv zeta.
  destruct (mIsSplitImpulseActive (sl_solver st)).
  - now rewrite solveSplit_frame, solvePenetration_frame.
  - now rewrite solvePenetration_frame.
Qed.

Lemma solveFriction_frame (b : bool) (c : nat) (sum : R) (s : ContactSolverSystem) :
  solverFrame (solveFriction b c sum s) = solverFrame s.
Proof. effect. Qed.

Lemma solveTwist_frame (c : nat) (sum : R) (s : ContactSolverSystem) :
  solverFrame (solveTwist c sum s) = solverFrame s.
Proof. effect. Qed.

Lemma solveRolling_frame (clamp : Vector3 -> R -> Vector3) (c : nat) (sum : R)
  (s : ContactSolverSystem) :
  solverFrame (solveRolling clamp c sum s) = solverFrame s.
Proof. unfold solveRolling. destruct (Rgtb _ _); effect. Qed.

Lemma solveManifold_frame (clamp : Vector3 -> R -> Vector3) (beta : R) (c : nat)
  (s : ContactSolverSystem) (idx : nat) :
  solverFrame (fst (solveManifold clamp beta c (s, idx))) = solverFrame s.
Proof.
  unfold solveManifold. cbv beta iota zeta. cbn [fst].
  rewrite solveRolling_frame, solveTwist_frame, !solveFriction_frame.
  generalize (CMS.nbContacts (constraint s c)) as nb.
  induction nb as [|nb IH]; [reflexivity|].
  rewrite for_loop_succ, solvePoint_frame. exact IH.
Qed.

(** ** One call of [solve] *)

Lemma pointsOfManifold_static (s s' : ContactSolverSystem) (c : nat) :
  map staticManifold (mContactConstraints s') = map staticManifold (mContactConstraints s) ->
  pointsOfManifold s' c =
  manifoldPoints s' (firstPoint s c) (CMS.nbContacts (constraint s c)).
Proof.
  intros H. unfold pointsOfManifold.
  now rewrite (firstPoint_static s s' c H), (nbContacts_static s s' c H).
Qed.

Lemma solve_post (clamp : Vector3 -> R -> Vector3) (s : ContactSolverSystem) :
  wellFormed s ->
  let s' := solve clamp s in
  solverFrame s' = solverFrame s /\
  map staticManifold (mContactConstraints s') = map staticManifold (mContactConstraints s) /\
  List.length (mContactPoints s') = List.length (mContactPoints s) /\
  (forall c, (c < mNbContactManifolds s)%nat ->
     solvedManifold clamp (mIsSplitImpulseActive s)
       (constraint s c) (pointsOfManifold s c)
       (constraint s' c) (pointsOfManifold s' c)).
Proof.
  intros [Hnb Hpts]. unfold solve. cbv zeta.
  set (beta := if mIsSplitImpulseActive s then BETA_SPLIT_IMPULSE else BETA).
  destruct (manifold_loop (solveManifold clamp beta)
              (solvedManifold clamp (mIsSplitImpulseActive s))
              (fun t => solverFrame t = solverFrame s)) with (s := s)
              (n := mNbContactManifolds s)
    as (_ & Hfr & Hst & Hlen & _ & _ & Hpost).
  - intros c t idx Ht Hc Hl.
    destruct (solveManifold_local clamp beta (mIsSplitImpulseActive s) c t idx)
      as (A1 & _ & A3 & A4 & A5 & A6 & A7); auto.
    { now apply solverFrame_split. }
    cbv zeta. repeat (split; [assumption|]).
    split; [|repeat (split; [assumption|]); assumption].
    rewrite solveManifold_frame. exact Ht.
  - reflexivity.
  - lia.
  - lia.
  - split; [exact Hfr|]. split; [exact Hst|]. split; [exact Hlen|].
    intros c Hc. rewrite (pointsOfManifold_static _ _ c Hst). now apply Hpost.
Qed.

Lemma wellFormed_static (s s' : ContactSolverSystem) :
  mNbContactManifolds s' = mNbContactManifolds s ->
  map staticManifold (mContactConstraints s') = map staticManifold (mContactConstraints s) ->
  List.length (mContactPoints s') = List.length (mContactPoints s) ->
  wellFormed s -> wellFormed s'.
Proof.
  intros Hn Hs Hl [H1 H2]. split.
  - rewrite Hn, (length_static _ _ Hs). exact H1.
  - rewrite Hl, Hn, (firstPoint_static _ _ _ Hs). exact H2.
Qed.

(** [solve] keeps the arrays well formed, so it can be called again. *)
Lemma solve_wellFormed (clamp : Vector3 -> R -> Vector3) (s : ContactSolverSystem) :
  wellFormed s -> wellFormed (solve clamp s).
Proof.
  intros H. destruct (solve_post clamp s H) as (Hf & Hs & Hl & _).
  apply (wellFormed_static s); auto. now apply solverFrame_nb.
Qed.

(** Every contact point below [firstPoint s n] belongs to one of the first
    [n] manifolds. *)
Lemma point_in_manifold (s : ContactSolverSystem) (n i : nat) :
  (n <= List.length (mContactConstraints s))%nat ->
  (i < firstPoint s n)%nat ->
  exists c, (c < n)%nat /\
            (firstPoint s c <= i < firstPoint s c + CMS.nbContacts (constraint s c))%nat.
Proof.
  induction n as [|n IH]; intros Hn Hi.
  - rewrite firstPoint_zero in Hi. lia.
  - rewrite firstPoint_succ in Hi by lia.
    destruct (Nat.lt_ge_cases i (firstPoint s n)) as [Hlt|Hge].
    + destruct IH as (c & Hc & Hr); [lia | exact Hlt |]. exists c. split; [lia | exact Hr].
    + exists n. split; [lia | lia].
Qed.

Lemma in_pointsOfManifold (s : ContactSolverSystem) (c i : nat) :
  (firstPoint s c <= i < firstPoint s c + CMS.nbContacts (constraint s c))%nat ->
  In (point s i) (pointsOfManifold s c).
Proof.
  intros H. unfold pointsOfManifold, manifoldPoints.
  apply in_map, in_seq. lia.
Qed.

(** ** warmStart *)

Lemma warmStartPoint_solver (c : nat) (st : WarmStartLoop) :
  let s := ws_solver st in
  let i := ws_contactPointIndex st in
  mContactConstraints (ws_solver (warmStartPoint c st)) = mContactConstraints s /\
  solverFrame (ws_solver (warmStartPoint c st)) = solverFrame s /\
  mContactPoints (ws_solver (warmStartPoint c st)) =
    (if CPS.isRestingContact (point s i) then mContactPoints s
     else update i (CPS.set_penetrationImpulse 0) (mContactPoints s)) /\
  ws_contactPointIndex (warmStartPoint c st) = Datatypes.S i /\
  ws_atLeastOneRestingContactPoint (warmStartPoint c st) =
    (CPS.isRestingContact (point s i) || ws_atLeastOneRestingContactPoint st)%bool.
Proof.
  cbv zeta. unfold warmStartPoint.
  destruct (CPS.isRestingContact (point (ws_solver st) (ws_contactPointIndex st)));
    cbn [ws_solver ws_contactPointIndex ws_atLeastOneRestingContactPoint orb];
    (split; [effect | split; [effect | split; [effect | split; reflexivity]]]).
Qed.


Lemma existsb_app_one (l : list CPS.t) (P : CPS.t) :
  existsb CPS.isRestingContact (l ++ [P]) =
  (CPS.isRestingContact P || existsb CPS.isRestingContact l)%bool.
Proof.
  rewrite existsb_app. simpl. rewrite orb_false_r. apply orb_comm.
Qed.

(** The contact-point loop of a manifold in [warmStart]: the impulse of every
    contact point that is not resting is reset, and the flag tells whether
    some contact point is resting. *)
Lemma warmStartPoints_loop (c : nat) (s : ContactSolverSystem) (idx nb : nat) :
  (idx + nb <= List.length (mContactPoints s))%nat ->
  let r := for_loop 0 nb (fun _ => warmStartPoint c) (mkWarmStartLoop s idx false) in
  ws_contactPointIndex r = (idx + nb)%nat /\
  mContactConstraints (ws_solver r) = mContactConstraints s /\
  solverFrame (ws_solver r) = solverFrame s /\
  List.length (mContactPoints (ws_solver r)) = List.length (mContactPoints s) /\
  (forall i, ~ (idx <= i < idx + nb)%nat -> point (ws_solver r) i = point s i) /\
  manifoldPoints (ws_solver r) idx nb =
    map (fun P => if CPS.isRestingContact P then P else CPS.set_penetrationImpulse 0 P)
        (manifoldPoints s idx nb) /\
  ws_atLeastOneRestingContactPoint r =
    existsb CPS.isRestingContact (manifoldPoints s idx nb).
Proof.
  induction nb as [|nb IH]; intros Hlen.
  - simpl. repeat split; auto.
  - cbv zeta. rewrite for_loop_succ.
    destruct IH as (Hi & Hc & Hf & Hl & Ho & Hm & Hb); [lia|].
    set (r := for_loop 0 nb (fun _ => warmStartPoint c) (mkWarmStartLoop s idx false)) in *.
    destruct (warmStartPoint_solver c r) as (W1 & W2 & W3 & W4 & W5).
    rewrite Hi in W3, W4, W5.
    assert (Hcur : point (ws_solver r) (idx + nb) = point s (idx + nb))
      by (apply Ho; lia).
    rewrite Hcur in W3, W5.
    assert (Hoth : forall i, i <> (idx + nb)%nat ->
              point (ws_solver (warmStartPoint c r)) i = point (ws_solver r) i).
    { intros i Hne. unfold point. rewrite W3.
      destruct (CPS.isRestingContact (point s (idx + nb))); [reflexivity|].
      apply get_update_other. auto. }
    split; [rewrite W4; lia|].
    split; [rewrite W1; exact Hc|].
    split; [rewrite W2; exact Hf|].
    split.
    { rewrite W3. destruct (CPS.isRestingContact _); [|rewrite update_length]; exact Hl. }
    split.
    { intros i Hni. rewrite Hoth by lia. apply Ho. lia. }
    split.
    + rewrite !manifoldPoints_succ, map_app.
      rewrite (manifoldPoints_ext (ws_solver r)) by (intros i Hr; apply Hoth; lia).
      rewrite Hm. f_equal. simpl. f_equal.
      unfold point at 1. rewrite W3.
      destruct (CPS.isRestingContact (point s (idx + nb))) eqn:Hrest.
      * exact Hcur.
      * rewrite get_update_same by lia. fold (point (ws_solver r) (idx + nb)).
        now rewrite Hcur.
    + rewrite W5, Hb, manifoldPoints_succ, existsb_app_one. reflexivity.
Qed.

Lemma warmStartFriction_effect (c : nat) (s : ContactSolverSystem) :
  let M := constraint s c in
  let oldFrictionImpulse :=
    Vec.add (Vec.scale (CMS.friction1Impulse M) (CMS.oldFrictionVector1 M))
            (Vec.scale (CMS.friction2Impulse M) (CMS.oldFrictionVector2 M)) in
  mContactPoints (warmStartFriction c s) = mContactPoints s /\
  solverFrame (warmStartFriction c s) = solverFrame s /\
  mContactConstraints (warmStartFriction c s) =
    update c (CMS.set_friction2Impulse (Vec.dot oldFrictionImpulse (CMS.frictionVector2 M)))
      (update c (CMS.set_friction1Impulse (Vec.dot oldFrictionImpulse (CMS.frictionVector1 M)))
         (mContactConstraints s)).
Proof. cbv zeta. split; [effect | split; effect]. Qed.

(** One turn of the manifold loop of [warmStart] meets the conditions of the
    shared manifold loop, with [warmStartedManifold] for postcondition. *)
Lemma warmStartManifold_local (s0 : ContactSolverSystem)
  (c : nat) (s : ContactSolverSystem) (idx : nat) :
  solverFrame s = solverFrame s0 ->
  (c < List.length (mContactConstraints s))%nat ->
  (idx + CMS.nbContacts (constraint s c) <= List.length (mContactPoints s))%nat ->
  let s' := fst (warmStartManifold c (s, idx)) in
  let nb := CMS.nbContacts (constraint s c) in
  snd (warmStartManifold c (s, idx)) = (idx + nb)%nat /\
  solverFrame s' = solverFrame s0 /\
  map staticManifold (mContactConstraints s') = map staticManifold (mContactConstraints s) /\
  List.length (mContactPoints s') = List.length (mContactPoints s) /\
  (forall c', c' <> c -> constraint s' c' = constraint s c') /\
  (forall i, ~ (idx <= i < idx + nb)%nat -> point s' i = point s i) /\
  warmStartedManifold (constraint s c) (manifoldPoints s idx nb)
                      (constraint s' c) (manifoldPoints s' idx nb).
Proof.
  intros Hfr Hc Hlen. unfold warmStartManifold. cbv beta iota zeta. cbn [fst snd].
  destruct (warmStartPoints_loop c s idx (CMS.nbContacts (constraint s c)) Hlen)
    as (Hi & Hcs & Hf & Hl & Ho & Hm & Hb).
  set (r := for_loop 0 (CMS.nbContacts (constraint s c)) (fun _ => warmStartPoint c)
              (mkWarmStartLoop s idx false)) in *.
  assert (HM : constraint (ws_solver r) c = constraint s c)
    by (unfold constraint; now rewrite Hcs).
  unfold warmStartedManifold. rewrite Hb.
  destruct (existsb CPS.isRestingContact
              (manifoldPoints s idx (CMS.nbContacts (constraint s c)))) eqn:Hany.
  - destruct (warmStartFriction_effect c (ws_solver r)) as (F1 & F2 & F3).
    rewrite HM in F3.
    assert (Hpts : forall i, point (warmStartFriction c (ws_solver r)) i = point (ws_solver r) i)
      by (intros i; unfold point; now rewrite F1).
    split; [exact Hi|]. split; [rewrite F2, Hf; exact Hfr|].
    split; [rewrite F3, !static_update, Hcs by reflexivity; reflexivity|].
    split; [rewrite F1; exact Hl|].
    split.
    { intros c' Hne. unfold constraint. rewrite F3, !get_update_other, Hcs by auto.
      reflexivity. }
    split; [intros i Hni; rewrite Hpts; now apply Ho|].
    split; [rewrite (manifoldPoints_ext (ws_solver r)) by (intros; apply Hpts); exact Hm|].
    split; [|intros; discriminate].
    intros _. unfold constraint at 1. rewrite F3.
    rewrite !get_update_same by (rewrite ?update_length, Hcs; exact Hc).
    rewrite Hcs. fold (constraint s c). reflexivity.
  - set (s' := modConstraint c (CMS.set_impulses 0 0 0 Vec.zero) (ws_solver r)).
    assert (F1 : mContactPoints s' = mContactPoints (ws_solver r)) by reflexivity.
    assert (F2 : solverFrame s' = solverFrame (ws_solver r)) by reflexivity.
    assert (F3 : mContactConstraints s' =
                 update c (CMS.set_impulses 0 0 0 Vec.zero) (mContactConstraints s))
      by (unfold s', modConstraint; cbn; now rewrite Hcs).
    assert (Hpts : forall i, point s' i = point (ws_solver r) i)
      by (intros i; unfold point; now rewrite F1).
    split; [exact Hi|]. split; [rewrite F2, Hf; exact Hfr|].
    split; [rewrite F3, static_update by reflexivity; reflexivity|].
    split; [rewrite F1; exact Hl|].
    split.
    { intros c' Hne. unfold constraint. rewrite F3, get_update_other by auto. reflexivity. }
    split; [intros i Hni; rewrite Hpts; now apply Ho|].
    split; [rewrite (manifoldPoints_ext (ws_solver r)) by (intros; apply Hpts); exact Hm|].
    split; [intros; discriminate|].
    intros _. unfold constraint at 1. rewrite F3, get_update_same by exact Hc.
    reflexivity.
Qed.

(** [warmStart] as a whole. *)
Lemma warmStart_post (s : ContactSolverSystem) :
  wellFormed s ->
  let s' := warmStart s in
  solverFrame s' = solverFrame s /\
  map staticManifold (mContactConstraints s') = map staticManifold (mContactConstraints s) /\
  List.length (mContactPoints s') = List.length (mContactPoints s) /\
  (forall c, (c < mNbContactManifolds s)%nat ->
     warmStartedManifold (constraint s c) (pointsOfManifold s c)
                         (constraint s' c) (pointsOfManifold s' c)).
Proof.
  intros [Hnb Hpts]. unfold warmStart. cbv zeta.
  destruct (manifold_loop warmStartManifold warmStartedManifold
              (fun t => solverFrame t = solverFrame s)) with (s := s)
              (n := mNbContactManifolds s)
    as (_ & Hfr & Hst & Hlen & _ & _ & Hpost).
  - intros c t idx Ht Hc Hl. now apply warmStartManifold_local.
  - reflexivity.
  - lia.
  - lia.
  - split; [exact Hfr|]. split; [exact Hst|]. split; [exact Hlen|].
    intros c Hc. rewrite (pointsOfManifold_static _ _ c Hst). now apply Hpost.
Qed.

Lemma warmStart_wellFormed (s : ContactSolverSystem) :
  wellFormed s -> wellFormed (warmStart s).
Proof.
  intros H. destruct (warmStart_post s H) as (Hf & Hs & Hl & _).
  apply (wellFormed_static s); auto. now apply solverFrame_nb.
Qed.

(** ** init *)

Lemma nbContactsBefore_app (l : list CMS.t) (M : CMS.t) (c : nat) :
  (c <= List.length l)%nat ->
  nbContactsBefore (l ++ [M]) c = nbContactsBefore l c.
Proof.
  revert c; induction l as [|a l IH]; intros c Hc; simpl in Hc.
  - assert (c = 0%nat) by lia. subst. reflexivity.
  - destruct c as [|c]; [reflexivity|].
    cbn [app nbContactsBefore]. rewrite IH by lia. reflexivity.
Qed.

Lemma nbContactsBefore_app_last (l : list CMS.t) (M : CMS.t) :
  nbContactsBefore (l ++ [M]) (Datatypes.S (List.length l)) =
  (nbContactsBefore l (List.length l) + CMS.nbContacts M)%nat.
Proof.
  rewrite nbContactsBefore_succ by (rewrite length_app; simpl; lia).
  rewrite nbContactsBefore_app by lia. now rewrite get_app_last.
Qed.

Section Init.

Variable MACHINE_EPSILON : R.
Variable getOneUnitOrthogonalVector : Vector3 -> Vector3.

Local Abbreviation newManifold :=
  (newContactManifoldSolver MACHINE_EPSILON getOneUnitOrthogonalVector).
Local Abbreviation initM := (initManifold MACHINE_EPSILON getOneUnitOrthogonalVector).

(** A property of the manifold records that every record built by
    [initializeForIsland] has. *)
Variable Pm : CMS.t -> Prop.
Hypothesis Pm_new : forall s m b, Pm (newManifold s m b).

Local Abbreviation built := (builtArrays Pm).

Lemma initContactPoint_effect (M : ContactManifold.t) (c : nat) (b : ManifoldBuild) :
  let s := build_solver b in
  let s' := build_solver (initContactPoint M c b) in
  mContactConstraints s' = mContactConstraints s /\
  mNbContactManifolds s' = mNbContactManifolds s /\
  mAllContactManifolds s' = mAllContactManifolds s /\
  mContactPoints s' = mContactPoints s ++ [newContactPointSolver s M c].
Proof. cbv zeta. unfold initContactPoint. cbn. repeat split. Qed.

Lemma initContactPoints_loop (M : ContactManifold.t) (start n : nat) (b : ManifoldBuild) :
  let s := build_solver b in
  let s' := build_solver (for_loop start n (initContactPoint M) b) in
  mContactConstraints s' = mContactConstraints s /\
  mNbContactManifolds s' = mNbContactManifolds s /\
  mAllContactManifolds s' = mAllContactManifolds s /\
  List.length (mContactPoints s') = (List.length (mContactPoints s) + n)%nat.
Proof.
  induction n as [|n IH].
  - simpl. repeat split; auto.
  - cbv zeta. rewrite for_loop_succ.
    destruct IH as (H1 & H2 & H3 & H4).
    destruct (initContactPoint_effect M (start + n) (for_loop start n (initContactPoint M) b))
      as (E1 & E2 & E3 & E4).
    rewrite E1, E2, E3, E4, length_app. simpl.
    repeat split; try assumption. lia.
Qed.

Lemma newManifold_nbContacts (s : ContactSolverSystem) (m : nat) (b : ManifoldBuild) :
  CMS.nbContacts (newManifold s m b) =
  ContactManifold.nbContactPoints (get ContactManifold.default (mAllContactManifolds s) m).
Proof. reflexivity. Qed.

Lemma initManifold_effect (m : nat) (s : ContactSolverSystem) :
  let ext := get ContactManifold.default (mAllContactManifolds s) m in
  let b := for_loop (ContactManifold.contactPointsIndex ext)
             (ContactManifold.nbContactPoints ext) (initContactPoint ext)
             (mkManifoldBuild s Vec.zero Vec.zero Vec.zero) in
  mContactConstraints (initM m s) =
    mContactConstraints (build_solver b) ++ [newManifold (build_solver b) m b] /\
  mNbContactManifolds (initM m s) = Datatypes.S (mNbContactManifolds (build_solver b)) /\
  mContactPoints (initM m s) = mContactPoints (build_solver b).
Proof. cbv zeta. split; [reflexivity | split; reflexivity]. Qed.

Lemma initManifold_built (m : nat) (s : ContactSolverSystem) :
  built s -> built (initM m s).
Proof.
  intros (H1 & H2 & H3).
  destruct (initManifold_effect m s) as (E1 & E2 & E3).
  set (ext := get ContactManifold.default (mAllContactManifolds s) m) in *.
  destruct (initContactPoints_loop ext (ContactManifold.contactPointsIndex ext)
              (ContactManifold.nbContactPoints ext)
              (mkManifoldBuild s Vec.zero Vec.zero Vec.zero)) as (L1 & L2 & L3 & L4).
  cbn [build_solver] in L1, L2, L3, L4.
  set (b := for_loop _ _ _ _) in *.
  unfold builtArrays. rewrite E1, E2, E3, L1, L2, L4, length_app. cbn [List.length].
  split; [lia|]. split.
  - rewrite Nat.add_1_r, nbContactsBefore_app_last, newManifold_nbContacts, L3.
    fold ext. lia.
  - apply Forall_app. split; [exact H3|]. constructor; [apply Pm_new | constructor].
Qed.

Lemma initializeForIsland_built (i : nat) (s : ContactSolverSystem) :
  built s ->
  built (initializeForIsland MACHINE_EPSILON getOneUnitOrthogonalVector i s).
Proof.
  intros H. unfold initializeForIsland. cbv zeta.
  generalize (get 0%nat (Islands.contactManifoldsIndices (mIslands s)) i) as start.
  generalize (get 0%nat (Islands.nbContactManifolds (mIslands s)) i) as n.
  intros n start. induction n as [|n IH]; [exact H|].
  rewrite for_loop_succ. apply initManifold_built. exact IH.
Qed.

Lemma built_wellFormed (s : ContactSolverSystem) : built s -> wellFormed s.
Proof.
  intros (H1 & H2 & _). split; [exact H1|]. unfold firstPoint. now rewrite H1.
Qed.

(** [init] leaves well-formed arrays, and every manifold record it leaves was
    built by [initializeForIsland] and then only had its accumulated impulses
    changed by [warmStart]. *)
Lemma init_built (contactManifolds : list ContactManifold.t)
  (contactPoints : list ContactPoint.t) (timeStep : R) (s : ContactSolverSystem) :
  let s' := init MACHINE_EPSILON getOneUnitOrthogonalVector
              contactManifolds contactPoints timeStep s in
  wellFormed s' /\
  exists l, Forall Pm l /\
            map staticManifold (mContactConstraints s') = map staticManifold l.
Proof.
  cbv zeta. unfold init. cbv zeta.
  set (s0 := set_mContactPoints [] _).
  assert (H0 : built s0) by (unfold builtArrays, s0; cbn; repeat split; constructor).
  destruct (_ || _)%bool.
  - split; [now apply built_wellFormed|].
    exists (mContactConstraints s0). split; [apply H0 | reflexivity].
  - set (s1 := for_loop _ _ _ s0).
    assert (H1 : built s1).
    { unfold s1. generalize (Islands.getNbIslands (mIslands s0)) as n.
      induction n as [|n IH]; [exact H0|].
      rewrite for_loop_succ. simpl Nat.add.
      destruct (_ <? _)%nat; [apply initializeForIsland_built|]; exact IH. }
    assert (Hw := built_wellFormed s1 H1).
    split; [now apply warmStart_wellFormed|].
    exists (mContactConstraints s1). split; [apply H1|].
    apply (warmStart_post s1 Hw).
Qed.

End Init.

(** ** The restitution bias of [init] *)

(** The expansion written in [initializeForIsland] is the formula of its
    comment with twice the second products of [w1 x r1] taken away. *)
Lemma deltaV_init_slip (v1 w1 v2 w2 r1 r2 : Vector3) :
  deltaV_init v1 w1 v2 w2 r1 r2 =
  Vec.sub (relativeVelocity v1 w1 v2 w2 r1 r2)
          (Vec.scale 2 (mkVector3 (z w1 * y r1) (x w1 * z r1) (y w1 * x r1))).
Proof.
  apply Vector3_eq;
    unfold deltaV_init, relativeVelocity, Vec.sub, Vec.add, Vec.cross, Vec.scale; simpl; ring.
Qed.

(** The bias is gated by the threshold and scaled by the larger bounciness,
    over the velocity difference that [initializeForIsland] writes out. *)
Lemma newContactPointSolver_restitutionBias (s : ContactSolverSystem)
  (M : ContactManifold.t) (c : nat) :
  let P := newContactPointSolver s M c in
  let w := mWorld s in
  let i1 := World.getEntityIndex w (ContactManifold.bodyEntity1 M) in
  let i2 := World.getEntityIndex w (ContactManifold.bodyEntity2 M) in
  let e := computeMixedRestitutionFactor
             (World.getMaterial w (ContactManifold.colliderEntity1 M))
             (World.getMaterial w (ContactManifold.colliderEntity2 M)) in
  let deltaVN :=
    Vec.dot (deltaV_init (LV s i1) (AV s i1) (LV s i2) (AV s i2) (CPS.r1 P) (CPS.r2 P))
            (CPS.normal P) in
  CPS.restitutionBias P =
  (if Rltb deltaVN (- mRestitutionVelocityThreshold s) then e * deltaVN else 0).
Proof. reflexivity. Qed.

(** C1 (the code departs from the claim).  In the spinning world the relative
    velocity [v2 + w2 x r2 - v1 - w1 x r1] has the normal component +1, above
    minus the threshold, so the claimed restitution bias is 0; [init] stores
    -1, because the velocity difference it writes out has the normal
    component -1. *)
Theorem init_restitution_bias_sign_slip (eps : R) (g : Vector3 -> Vector3) :
  let s := init eps g oneManifold spinningPoints (1 / 60) spinningSolver in
  let P := point s 0 in
  CPS.restitutionBias P = -1 /\
  restitutionBias_spec 1 (1 / 2) (LV s 0) (AV s 0) (LV s 1) (AV s 1)
    (CPS.r1 P) (CPS.r2 P) (CPS.normal P) = 0.
Proof.
  cbv zeta. split.
  - cbn. unfold computeMixedRestitutionFactor; cbn.
    rewrite Rgtb_false by lra. rewrite Rltb_true by lra. lra.
  - unfold restitutionBias_spec. cbn.
    unfold Vec.dot, relativeVelocity, Vec.sub, Vec.add, Vec.cross, Vec.zero; cbn.
    rewrite Rltb_false by lra. reflexivity.
Qed.

(** ** The tangent basis after [init] *)

Lemma newContactManifoldSolver_basis_fields (eps : R) (g : Vector3 -> Vector3)
  (s : ContactSolverSystem) (m : nat) (b : ManifoldBuild) :
  let M := newContactManifoldSolver eps g s m b in
  CMS.normal M = Vec.normalize (build_normal b) /\
  exists dv,
    CMS.frictionVector1 M = fst (computeFrictionVectors eps g dv (CMS.normal M)) /\
    CMS.frictionVector2 M = snd (computeFrictionVectors eps g dv (CMS.normal M)).
Proof.
  cbv zeta. split; [reflexivity|]. eexists. split; reflexivity.
Qed.

(** A non-zero sum of the contact normals is normalised to a unit normal. *)
Lemma newContactManifoldSolver_normal_unit (eps : R) (g : Vector3 -> Vector3)
  (s : ContactSolverSystem) (m : nat) (b : ManifoldBuild) :
  build_normal b <> Vec.zero ->
  Vec.length (CMS.normal (newContactManifoldSolver eps g s m b)) = 1.
Proof.
  intros H. destruct (newContactManifoldSolver_basis_fields eps g s m b) as [-> _].
  now apply getUnit_length.
Qed.



(** ** [init] without contacts *)

Lemma phases_without_manifolds (clamp : Vector3 -> R -> Vector3)
  (s : ContactSolverSystem) (phases : list Phase) :
  mNbContactManifolds s = 0%nat -> runPhases clamp phases s = s.
Proof.
  intros H. induction phases as [|p phases IH]; [reflexivity|].
  unfold runPhases in *. cbn [fold_left].
  replace (runPhase clamp p s) with s; [exact IH|].
  destruct p; unfold runPhase, warmStart, solve, storeImpulses; rewrite H; reflexivity.
Qed.

(** C10.  If [init] receives an empty manifold list or an empty contact-point
    list, it returns before it builds any record: the manifold count is 0 and
    both arrays are empty, the body store is untouched, and no later
    [warmStart], [solve] or [storeImpulses] changes the solver, the body
    store or the external manifolds and contact points. *)
Theorem init_without_contacts (eps : R) (g : Vector3 -> Vector3)
  (clamp : Vector3 -> R -> Vector3)
  (contactManifolds : list ContactManifold.t) (contactPoints : list ContactPoint.t)
  (timeStep : R) (s0 : ContactSolverSystem) :
  contactManifolds = [] \/ contactPoints = [] ->
  let s := init eps g contactManifolds contactPoints timeStep s0 in
  mNbContactManifolds s = 0%nat /\
  mContactConstraints s = [] /\ mContactPoints s = [] /\
  mRigidBodyComponents s = mRigidBodyComponents s0 /\
  mAllContactManifolds s = contactManifolds /\
  mAllContactPoints s = contactPoints /\
  forall phases, runPhases clamp phases s = s.
Proof.
  intros Hempty s.
  assert (Hs : s = set_mContactPoints [] (set_mContactConstraints []
                 (set_mNbContactPoints 0 (set_mNbContactManifolds 0
                   (set_mTimeStep timeStep (set_mAllContactPoints contactPoints
                     (set_mAllContactManifolds contactManifolds s0))))))).
  { unfold s, init. cbv zeta.
    replace ((_ =? 0)%nat || (_ =? 0)%nat)%bool with true; [reflexivity|].
    destruct Hempty as [-> | ->]; cbn; [reflexivity|]. now rewrite orb_true_r. }
  rewrite Hs. repeat (split; [reflexivity|]).
  intros phases. now apply phases_without_manifolds.
Qed.

Lemma init_without_contacts_witness :
  (([] : list ContactManifold.t) = [] \/ slidingPoints = []) /\
  runPhases clampToLength [WarmStart; Solve; Solve; StoreImpulses]
    (init epsilonFloat unitOrthogonalVector [] slidingPoints (1 / 60) slidingSolver) =
  init epsilonFloat unitOrthogonalVector [] slidingPoints (1 / 60) slidingSolver.
Proof.
  split; [left; reflexivity|].
  apply (init_without_contacts epsilonFloat unitOrthogonalVector clampToLength
           [] slidingPoints (1 / 60) slidingSolver (or_introl eq_refl)).
Defined.

(** ** What [init] guarantees to the later phases *)

Lemma init_wellFormed (eps : R) (g : Vector3 -> Vector3)
  (contactManifolds : list ContactManifold.t) (contactPoints : list ContactPoint.t)
  (timeStep : R) (s0 : ContactSolverSystem) :
  wellFormed (init eps g contactManifolds contactPoints timeStep s0).
Proof.
  destruct (init_built eps g (fun _ => True)) with (contactManifolds := contactManifolds)
    (contactPoints := contactPoints) (timeStep := timeStep) (s := s0) as [H _]; auto.
Qed.

(** The mixed friction coefficient is a square root, hence not negative. *)
Lemma init_frictionCoefficient_nonneg (eps : R) (g : Vector3 -> Vector3)
  (contactManifolds : list ContactManifold.t) (contactPoints : list ContactPoint.t)
  (timeStep : R) (s0 : ContactSolverSystem) (c : nat) :
  0 <= CMS.frictionCoefficient
         (constraint (init eps g contactManifolds contactPoints timeStep s0) c).
Proof.
  set (s := init _ _ _ _ _ _).
  destruct (init_built eps g (fun M => 0 <= CMS.frictionCoefficient M))
    with (contactManifolds := contactManifolds)
    (contactPoints := contactPoints) (timeStep := timeStep) (s := s0)
    as (_ & l & Hl & Hst).
  { intros t m b. apply sqrt_pos. }
  fold s in Hst.
  assert (HM : staticManifold (constraint s c) = staticManifold (get CMS.default l c)).
  { unfold constraint. rewrite <- !(get_map staticManifold). now rewrite Hst. }
  change (0 <= CMS.frictionCoefficient (staticManifold (constraint s c))).
  rewrite HM. cbn.
  destruct (Nat.lt_ge_cases c (List.length l)) as [Hlt|Hge].
  - apply Forall_forall with (x := get CMS.default l c) in Hl; [exact Hl|].
    now apply nth_In.
  - unfold get. rewrite nth_overflow by exact Hge. cbn. lra.
Qed.

(** ** The accumulated impulses after [solve] *)

(** C3.  After a call of [solve] on well-formed arrays, every contact point
    has a non-negative accumulated [penetrationImpulse] and, when split
    impulse is active, a non-negative [penetrationSplitImpulse]. *)
Theorem solve_penetration_impulses_nonneg (clamp : Vector3 -> R -> Vector3)
  (s : ContactSolverSystem) :
  wellFormed s ->
  Forall (fun P => 0 <= CPS.penetrationImpulse P /\
                   (mIsSplitImpulseActive s = true -> 0 <= CPS.penetrationSplitImpulse P))
         (mContactPoints (solve clamp s)).
Proof.
  intros Hwf. destruct (solve_post clamp s Hwf) as (_ & Hst & Hlen & Hpost).
  destruct Hwf as [Hnb Hpts].
  apply Forall_forall. intros P HP.
  destruct (In_nth _ _ CPS.default HP) as (i & Hi & <-).
  destruct (point_in_manifold s (mNbContactManifolds s) i) as (c & Hc & Hr); [lia | lia |].
  specialize (Hpost c Hc). destruct Hpost as (Hnn & _).
  rewrite Forall_forall in Hnn. apply Hnn.
  change (nth i (mContactPoints (solve clamp s)) CPS.default) with (point (solve clamp s) i).
  apply in_pointsOfManifold.
  now rewrite (firstPoint_static _ _ c Hst), (nbContacts_static _ _ c Hst).
Qed.

Lemma solve_penetration_impulses_nonneg_witness :
  let s := init epsilonFloat unitOrthogonalVector oneManifold slidingPoints (1 / 60)
             slidingSolver in
  wellFormed s /\
  Forall (fun P => 0 <= CPS.penetrationImpulse P /\
                   (mIsSplitImpulseActive s = true -> 0 <= CPS.penetrationSplitImpulse P))
         (mContactPoints (solve clampToLength s)).
Proof.
  cbv zeta. split; [apply init_wellFormed|].
  apply solve_penetration_impulses_nonneg. apply init_wellFormed.
Defined.

(** C4.  After a call of [solve], the two tangential friction impulses and the
    twist friction impulse of every manifold whose friction coefficient is
    not negative are bounded in magnitude by the friction coefficient times
    the sum of the penetration impulses that the same call accumulated at the
    contact points of the manifold. *)
Theorem solve_friction_impulses_bounded (clamp : Vector3 -> R -> Vector3)
  (s : ContactSolverSystem) (c : nat) :
  wellFormed s ->
  (c < mNbContactManifolds s)%nat ->
  0 <= CMS.frictionCoefficient (constraint s c) ->
  let s' := solve clamp s in
  let M' := constraint s' c in
  let limit := CMS.frictionCoefficient M' * sumPenetrationImpulse s' c in
  Rabs (CMS.friction1Impulse M') <= limit /\
  Rabs (CMS.friction2Impulse M') <= limit /\
  Rabs (CMS.frictionTwistImpulse M') <= limit.
Proof.
  intros Hwf Hc Hmu. cbv zeta.
  destruct (solve_post clamp s Hwf) as (_ & Hst & _ & Hpost).
  destruct (Hpost c Hc) as (_ & Hfr & _).
  assert (HM : CMS.frictionCoefficient (constraint (solve clamp s) c) =
               CMS.frictionCoefficient (constraint s c)).
  { change (CMS.frictionCoefficient (staticManifold (constraint (solve clamp s) c)) =
            CMS.frictionCoefficient (staticManifold (constraint s c))).
    now rewrite (constraint_static _ _ c Hst). }
  rewrite HM. unfold sumPenetrationImpulse. now apply Hfr.
Qed.

Lemma solve_friction_impulses_bounded_witness :
  let s := init epsilonFloat unitOrthogonalVector oneManifold slidingPoints (1 / 60)
             slidingSolver in
  let s' := solve clampToLength s in
  let M' := constraint s' 0 in
  let limit := CMS.frictionCoefficient M' * sumPenetrationImpulse s' 0 in
  wellFormed s /\ (0 < mNbContactManifolds s)%nat /\
  0 <= CMS.frictionCoefficient (constraint s 0) /\
  Rabs (CMS.friction1Impulse M') <= limit /\
  Rabs (CMS.friction2Impulse M') <= limit /\
  Rabs (CMS.frictionTwistImpulse M') <= limit.
Proof.
  cbv zeta.
  split; [apply init_wellFormed|]. split; [lazy; lia|].
  split; [apply init_frictionCoefficient_nonneg|].
  apply solve_friction_impulses_bounded.
  - apply init_wellFormed.
  - lazy; lia.
  - apply init_frictionCoefficient_nonneg.
Defined.

(** ** Rolling resistance *)

Lemma length_mulr (a : Vector3) (k : R) :
  Vec.length (Vec.mulr a k) = Rabs k * Vec.length a.
Proof.
  unfold Vec.length.
  replace (Vec.lengthSquare (Vec.mulr a k)) with (k * k * Vec.lengthSquare a)
    by (unfold Vec.lengthSquare, Vec.mulr; simpl; ring).
  rewrite sqrt_mult by (try apply lengthSquare_nonneg; nra).
  f_equal. change (k * k) with (Rsqr k). apply sqrt_Rsqr_abs.
Qed.

(** The model of [clamp] never returns a vector longer than the limit. *)
Lemma clampToLength_bound (v : Vector3) (L : R) :
  0 <= L -> Vec.length (clampToLength v L) <= L.
Proof.
  intros HL. unfold clampToLength.
  destruct (Rgtb (Vec.lengthSquare v) (L * L)) eqn:Hb.
  - apply Rltb_spec in Hb.
    assert (Hv : v <> Vec.zero).
    { intros ->. unfold Vec.lengthSquare, Vec.zero in Hb; simpl in Hb. nra. }
    rewrite length_mulr, (getUnit_length v Hv), Rabs_pos_eq by exact HL. lra.
  - assert (Hle : Vec.lengthSquare v <= L * L).
    { unfold Rgtb, Rltb in Hb. destruct (Rlt_dec _ _); [discriminate | lra]. }
    unfold Vec.length. rewrite <- (sqrt_square L) by exact HL.
    now apply sqrt_le_1_alt.
Qed.

(** C9.  [solveRolling] is the identity on a manifold whose rolling
    resistance factor is not positive, and [solve] keeps the rolling impulse
    of such a manifold; for a manifold with a positive factor, after a call
    of [solve] the length of the accumulated [rollingResistanceImpulse] is at
    most the factor times the sum of the penetration impulses that the same
    call accumulated for the manifold.  [clamp] is taken from the mathematics
    library as a function that bounds the length of a vector. *)
Theorem solve_rolling_resistance_bounded (clamp : Vector3 -> R -> Vector3)
  (s : ContactSolverSystem) (c : nat) :
  (forall v L, 0 <= L -> Vec.length (clamp v L) <= L) ->
  wellFormed s ->
  (c < mNbContactManifolds s)%nat ->
  let s' := solve clamp s in
  let rho := CMS.rollingResistanceFactor (constraint s c) in
  (forall sum t, CMS.rollingResistanceFactor (constraint t c) <= 0 ->
                 solveRolling clamp c sum t = t) /\
  (rho <= 0 ->
   CMS.rollingResistanceImpulse (constraint s' c) =
   CMS.rollingResistanceImpulse (constraint s c)) /\
  (0 < rho ->
   Vec.length (CMS.rollingResistanceImpulse (constraint s' c)) <=
   CMS.rollingResistanceFactor (constraint s' c) * sumPenetrationImpulse s' c).
Proof.
  intros Hclamp Hwf Hc. cbv zeta.
  destruct (solve_post clamp s Hwf) as (_ & Hst & _ & Hpost).
  destruct (Hpost c Hc) as (_ & _ & Hskip & Hroll).
  assert (HM : CMS.rollingResistanceFactor (constraint (solve clamp s) c) =
               CMS.rollingResistanceFactor (constraint s c)).
  { change (CMS.rollingResistanceFactor (staticManifold (constraint (solve clamp s) c)) =
            CMS.rollingResistanceFactor (staticManifold (constraint s c))).
    now rewrite (constraint_static _ _ c Hst). }
  split; [intros sum t Ht; now apply solveRolling_skipped|].
  split; [exact Hskip|].
  intros Hrho. rewrite HM. unfold sumPenetrationImpulse. now apply Hroll.
Qed.

Lemma solve_rolling_resistance_bounded_witness :
  let s := init epsilonFloat unitOrthogonalVector oneManifold slidingPoints (1 / 60)
             slidingSolver in
  let s' := solve clampToLength s in
  let rho := CMS.rollingResistanceFactor (constraint s 0) in
  (forall v L, 0 <= L -> Vec.length (clampToLength v L) <= L) /\
  wellFormed s /\ (0 < mNbContactManifolds s)%nat /\
  (forall sum t, CMS.rollingResistanceFactor (constraint t 0) <= 0 ->
                 solveRolling clampToLength 0 sum t = t) /\
  (rho <= 0 ->
   CMS.rollingResistanceImpulse (constraint s' 0) =
   CMS.rollingResistanceImpulse (constraint s 0)) /\
  (0 < rho ->
   Vec.length (CMS.rollingResistanceImpulse (constraint s' 0)) <=
   CMS.rollingResistanceFactor (constraint s' 0) * sumPenetrationImpulse s' 0).
Proof.
  cbv zeta.
  split; [exact clampToLength_bound|]. split; [apply init_wellFormed|].
  split; [lazy; lia|].
  apply (solve_rolling_resistance_bounded clampToLength _ 0%nat clampToLength_bound).
  - apply init_wellFormed.
  - lazy; lia.
Defined.

(** ** The accumulated impulses after [warmStart] *)

Lemma manifoldPoints_nth (s : ContactSolverSystem) (first nb j : nat) :
  (j < nb)%nat -> nth j (manifoldPoints s first nb) CPS.default = point s (first + j).
Proof.
  intros Hj. unfold manifoldPoints.
  rewrite nth_indep with (d' := point s 0) by (now rewrite length_map, length_seq).
  rewrite map_nth. now rewrite seq_nth.
Qed.

(** C6.  [warmStart] on well-formed arrays keeps every manifold record and
    every contact-point record but for their accumulated impulses; in
    particular the tangent basis of a manifold is the same before and after.
    For a manifold with a resting contact point, the old friction impulse
    [F_old = friction1Impulse * oldFrictionVector1 + friction2Impulse * oldFrictionVector2]
    is projected on that tangent basis,
    [friction1Impulse = F_old . frictionVector1] and
    [friction2Impulse = F_old . frictionVector2], and the twist and rolling
    resistance impulses are kept; for a manifold without one, the four
    accumulated manifold impulses are set to zero.  A contact point that is
    resting keeps its record, and the [penetrationImpulse] of every contact
    point that is not resting is set to zero. *)
Theorem warmStart_projects_or_resets (s : ContactSolverSystem) :
  wellFormed s ->
  let s' := warmStart s in
  (forall c, (c < mNbContactManifolds s)%nat ->
     let M := constraint s c in
     let M' := constraint s' c in
     let F_old :=
       Vec.add (Vec.scale (CMS.friction1Impulse M) (CMS.oldFrictionVector1 M))
               (Vec.scale (CMS.friction2Impulse M) (CMS.oldFrictionVector2 M)) in
     CMS.frictionVector1 M' = CMS.frictionVector1 M /\
     CMS.frictionVector2 M' = CMS.frictionVector2 M /\
     (hasRestingContact s c = true ->
      CMS.friction1Impulse M' = Vec.dot F_old (CMS.frictionVector1 M') /\
      CMS.friction2Impulse M' = Vec.dot F_old (CMS.frictionVector2 M') /\
      M' = CMS.set_impulses (Vec.dot F_old (CMS.frictionVector1 M))
                            (Vec.dot F_old (CMS.frictionVector2 M))
                            (CMS.frictionTwistImpulse M)
                            (CMS.rollingResistanceImpulse M) M) /\
     (hasRestingContact s c = false ->
      CMS.friction1Impulse M' = 0 /\ CMS.friction2Impulse M' = 0 /\
      CMS.frictionTwistImpulse M' = 0 /\ CMS.rollingResistanceImpulse M' = Vec.zero /\
      M' = CMS.set_impulses 0 0 0 Vec.zero M)) /\
  (forall i, (i < List.length (mContactPoints s))%nat ->
     (CPS.isRestingContact (point s i) = true -> point s' i = point s i) /\
     (CPS.isRestingContact (point s i) = false ->
      CPS.penetrationImpulse (point s' i) = 0 /\
      point s' i = CPS.set_penetrationImpulse 0 (point s i))).
Proof.
  intros Hwf. cbv zeta.
  destruct (warmStart_post s Hwf) as (_ & Hst & _ & Hpost).
  split.
  - intros c Hc. destruct (Hpost c Hc) as (_ & Hrest & Hnew).
    pose proof (constraint_static s (warmStart s) c Hst) as HS.
    split; [exact (f_equal CMS.frictionVector1 HS)|].
    split; [exact (f_equal CMS.frictionVector2 HS)|].
    unfold hasRestingContact. split.
    + intros Hany. rewrite (Hrest Hany). repeat split; reflexivity.
    + intros Hnone. rewrite (Hnew Hnone). repeat split; reflexivity.
  - intros i Hi. destruct Hwf as [Hnb Hpts].
    destruct (point_in_manifold s (mNbContactManifolds s) i) as (c & Hc & Hr); [lia | lia |].
    destruct (Hpost c Hc) as (Hmap & _).
    rewrite (pointsOfManifold_static _ _ c Hst) in Hmap.
    set (first := firstPoint s c) in *. set (nb := CMS.nbContacts (constraint s c)) in *.
    assert (Hj : (i - first < nb)%nat) by lia.
    assert (H1 := manifoldPoints_nth (warmStart s) first nb (i - first) Hj).
    assert (H2 := manifoldPoints_nth s first nb (i - first) Hj).
    replace (first + (i - first))%nat with i in H1, H2 by lia.
    rewrite <- H1, Hmap. unfold pointsOfManifold. fold first. fold nb.
    set (F := fun P => if CPS.isRestingContact P then P else CPS.set_penetrationImpulse 0 P).
    rewrite nth_indep with (d' := F CPS.default)
      by (rewrite length_map; unfold manifoldPoints;
          rewrite length_map, length_seq; exact Hj).
    rewrite map_nth, H2. unfold F. split.
    + intros Hr1. rewrite Hr1. reflexivity.
    + intros Hnr. rewrite Hnr. split; reflexivity.
Qed.

Lemma restingRecords_wellFormed : wellFormed restingRecords.
Proof. split; reflexivity. Qed.

Lemma warmStart_projects_or_resets_witness :
  let s := restingRecords in
  let s' := warmStart s in
  let t := init epsilonFloat unitOrthogonalVector oneManifold slidingPoints (1 / 60)
             slidingSolver in
  wellFormed s /\ (0 < mNbContactManifolds s)%nat /\
  hasRestingContact s 0 = true /\
  CPS.isRestingContact (point s 0) = true /\
  CMS.frictionVector1 (constraint s' 0) = mkVector3 (-1) 0 0 /\
  CMS.frictionVector2 (constraint s' 0) = mkVector3 0 0 (-1) /\
  CMS.friction1Impulse (constraint s' 0) = 5 /\
  CMS.friction2Impulse (constraint s' 0) = 3 /\
  CMS.frictionTwistImpulse (constraint s' 0) = 7 /\
  CMS.rollingResistanceImpulse (constraint s' 0) = mkVector3 1 0 0 /\
  CPS.penetrationImpulse (point s' 0) = 2 /\
  wellFormed t /\
  (hasRestingContact t 0 = false ->
   CMS.friction1Impulse (constraint (warmStart t) 0) = 0) /\
  (forall i, (i < List.length (mContactPoints t))%nat ->
     CPS.isRestingContact (point t i) = false ->
     CPS.penetrationImpulse (point (warmStart t) i) = 0).
Proof.
  intros s s' t.
  assert (Hwf : wellFormed s) by exact restingRecords_wellFormed.
  assert (Hc : (0 < mNbContactManifolds s)%nat) by (cbn; lia).
  assert (Hany : hasRestingContact s 0 = true) by reflexivity.
  assert (Hrest : CPS.isRestingContact (point s 0) = true) by reflexivity.
  assert (Hi : (0 < List.length (mContactPoints s))%nat) by (cbn; lia).
  destruct (warmStart_projects_or_resets s Hwf) as [Hm Hp].
  destruct (Hm 0%nat Hc) as (B1 & B2 & Hproj & _).
  destruct (Hproj Hany) as (_ & _ & HM).
  destruct (Hp 0%nat Hi) as (Hkept & _).
  assert (Hwt : wellFormed t) by apply init_wellFormed.
  destruct (warmStart_projects_or_resets t Hwt) as [Hmt Hpt].
  split; [exact Hwf|]. split; [exact Hc|]. split; [exact Hany|]. split; [exact Hrest|].
  fold s' in B1, B2, HM, Hkept.
  split; [rewrite B1; reflexivity|]. split; [rewrite B2; reflexivity|].
  split; [rewrite HM; unfold Vec.dot, Vec.add, Vec.scale; cbn; lra|].
  split; [rewrite HM; unfold Vec.dot, Vec.add, Vec.scale; cbn; lra|].
  split; [rewrite HM; reflexivity|].
  split; [rewrite HM; reflexivity|].
  split; [rewrite (Hkept Hrest); reflexivity|].
  split; [exact Hwt|]. split.
  - intros Hnone.
    assert (Hct : (0 < mNbContactManifolds t)%nat) by (lazy; lia).
    destruct (Hmt 0%nat Hct) as (_ & _ & _ & Hzero).
    exact (proj1 (Hzero Hnone)).
  - intros i Hlt Hnr. exact (proj1 (proj2 (Hpt i Hlt) Hnr)).
Defined.

(** ** The normal constraint at one contact point *)


Lemma solvePenetration_splitColumns (beta : R) (c i : nat) (s : ContactSolverSystem) :
  RBC.mSplitLinearVelocities (mRigidBodyComponents (solvePenetration beta c i s)) =
    RBC.mSplitLinearVelocities (mRigidBodyComponents s) /\
  RBC.mSplitAngularVelocities (mRigidBodyComponents (solvePenetration beta c i s)) =
    RBC.mSplitAngularVelocities (mRigidBodyComponents s).
Proof. split; effect. Qed.





(** ** The loops over the axes in the normal pass *)

Lemma scaleAxis_all (v f : Vector3) :
  scaleAxis 2 f (scaleAxis 1 f (scaleAxis 0 f v)) = timesFactors v f.
Proof. reflexivity. Qed.

Lemma update_update {A : Type} (i : nat) (f g : A -> A) (l : list A) :
  update i f (update i g l) = update i (fun a => f (g a)) l.
Proof.
  revert i; induction l as [|a l IH]; intros [|i]; simpl; auto.
  now rewrite IH.
Qed.

(** The step-start velocity columns after the penetration step: the rows of
    body 1 are multiplied by the velocity factors (lines 571-574). *)
Lemma solvePenetration_snapshot (beta : R) (c i : nat) (s : ContactSolverSystem) :
  let i1 := CMS.rigidBodyComponentIndexBody1 (constraint s c) in
  RBC.mLinearVelocities (mRigidBodyComponents (solvePenetration beta c i s)) =
    update i1 (fun v => timesFactors v (LVF s i1))
      (RBC.mLinearVelocities (mRigidBodyComponents s)) /\
  RBC.mAngularVelocities (mRigidBodyComponents (solvePenetration beta c i s)) =
    update i1 (fun v => timesFactors v (AVF s i1))
      (RBC.mAngularVelocities (mRigidBodyComponents s)).
Proof.
  cbv zeta. split.
  - transitivity
      (update (CMS.rigidBodyComponentIndexBody1 (constraint s c))
         (scaleAxis 2 (LVF s (CMS.rigidBodyComponentIndexBody1 (constraint s c))))
         (update (CMS.rigidBodyComponentIndexBody1 (constraint s c))
            (scaleAxis 1 (LVF s (CMS.rigidBodyComponentIndexBody1 (constraint s c))))
            (update (CMS.rigidBodyComponentIndexBody1 (constraint s c))
               (scaleAxis 0 (LVF s (CMS.rigidBodyComponentIndexBody1 (constraint s c))))
               (RBC.mLinearVelocities (mRigidBodyComponents s))))).
    + effect.
    + rewrite !update_update. reflexivity.
  - transitivity
      (update (CMS.rigidBodyComponentIndexBody1 (constraint s c))
         (scaleAxis 2 (AVF s (CMS.rigidBodyComponentIndexBody1 (constraint s c))))
         (update (CMS.rigidBodyComponentIndexBody1 (constraint s c))
            (scaleAxis 1 (AVF s (CMS.rigidBodyComponentIndexBody1 (constraint s c))))
            (update (CMS.rigidBodyComponentIndexBody1 (constraint s c))
               (scaleAxis 0 (AVF s (CMS.rigidBodyComponentIndexBody1 (constraint s c))))
               (RBC.mAngularVelocities (mRigidBodyComponents s))))).
    + effect.
    + rewrite !update_update. reflexivity.
Qed.

Lemma solveSplit_snapshot (beta : R) (c i : nat) (s : ContactSolverSystem) :
  RBC.mLinearVelocities (mRigidBodyComponents (solveSplit beta c i s)) =
    RBC.mLinearVelocities (mRigidBodyComponents s) /\
  RBC.mAngularVelocities (mRigidBodyComponents (solveSplit beta c i s)) =
    RBC.mAngularVelocities (mRigidBodyComponents s).
Proof. split; effect. Qed.

Lemma solveFriction_snapshot (b : bool) (c : nat) (sum : R) (s : ContactSolverSystem) :
  RBC.mLinearVelocities (mRigidBodyComponents (solveFriction b c sum s)) =
    RBC.mLinearVelocities (mRigidBodyComponents s) /\
  RBC.mAngularVelocities (mRigidBodyComponents (solveFriction b c sum s)) =
    RBC.mAngularVelocities (mRigidBodyComponents s).
Proof. split; effect. Qed.

Lemma solveTwist_snapshot (c : nat) (sum : R) (s : ContactSolverSystem) :
  RBC.mLinearVelocities (mRigidBodyComponents (solveTwist c sum s)) =
    RBC.mLinearVelocities (mRigidBodyComponents s) /\
  RBC.mAngularVelocities (mRigidBodyComponents (solveTwist c sum s)) =
    RBC.mAngularVelocities (mRigidBodyComponents s).
Proof. split; effect. Qed.

Lemma solveRolling_snapshot (clamp : Vector3 -> R -> Vector3) (c : nat) (sum : R)
  (s : ContactSolverSystem) :
  RBC.mLinearVelocities (mRigidBodyComponents (solveRolling clamp c sum s)) =
    RBC.mLinearVelocities (mRigidBodyComponents s) /\
  RBC.mAngularVelocities (mRigidBodyComponents (solveRolling clamp c sum s)) =
    RBC.mAngularVelocities (mRigidBodyComponents s).
Proof. unfold solveRolling. destruct (Rgtb _ _); split; effect. Qed.

(** C2 (the code departs from the claim).  In the sliding world, body 0 starts
    the step with the linear velocity (4,0,0) in the [linearVelocities]
    column; one call of [solve] leaves (2,0,0) there: the column is written,
    not only read. *)
Theorem solve_rescales_step_start_velocity (clamp : Vector3 -> R -> Vector3) :
  let s := init epsilonFloat unitOrthogonalVector oneManifold slidingPoints (1 / 60)
             slidingSolver in
  LV s 0 = mkVector3 4 0 0 /\ LV (solve clamp s) 0 = mkVector3 2 0 0.
Proof.
  intros s. split; [lazy; reflexivity|].
  assert (Hn : mNbContactManifolds s = 1%nat) by (lazy; reflexivity).
  assert (Hnb : CMS.nbContacts (constraint s 0) = 1%nat) by (lazy; reflexivity).
  assert (Hflag : mIsSplitImpulseActive s = true) by (lazy; reflexivity).
  unfold solve, LV. rewrite Hn. cbn [for_loop].
  unfold solveManifold. cbv beta iota zeta. cbn [fst].
  rewrite (proj1 (solveRolling_snapshot _ _ _ _)), (proj1 (solveTwist_snapshot _ _ _)),
    !(proj1 (solveFriction_snapshot _ _ _ _)).
  rewrite Hnb. cbn [for_loop]. rewrite solvePoint_solver. cbv zeta.
  cbn [sl_solver sl_contactPointIndex]. rewrite Hflag.
  rewrite (proj1 (solveSplit_snapshot _ _ _ _)), (proj1 (solvePenetration_snapshot _ _ _ _)).
  lazy. f_equal; lra.
Qed.

(** The constrained linear velocity column after the penetration step, update
    by update (lines 559-561, 567-570, 577-579 and 585-592). *)
Lemma solvePenetration_constrainedLinear (beta : R) (c i : nat) (s : ContactSolverSystem) :
  let M := constraint s c in
  let P := point s i in
  let i1 := CMS.rigidBodyComponentIndexBody1 M in
  let i2 := CMS.rigidBodyComponentIndexBody2 M in
  let deltaLambda :=
    Rmax (CPS.penetrationImpulse P + penetrationDeltaLambda beta c i s) 0 -
    CPS.penetrationImpulse P in
  let linearImpulse := Vec.mulr (CPS.normal P) deltaLambda in
  RBC.mConstrainedLinearVelocities (mRigidBodyComponents (solvePenetration beta c i s)) =
  update i1 (scaleAxis 2 (LVF s i1))
    (update i2 (scaleAxis 2 (LVF s i2))
       (update i1 (scaleAxis 1 (LVF s i1))
          (update i2 (scaleAxis 1 (LVF s i2))
             (update i1 (scaleAxis 0 (LVF s i1))
                (update i2 (scaleAxis 0 (LVF s i2))
                   (update i2 (fun v => Vec.add v (Vec.scale (CMS.massInverseBody2 M) linearImpulse))
                      (update i1 (scaleAxis 2 (LVF s i1))
                         (update i1 (scaleAxis 1 (LVF s i1))
                            (update i1 (scaleAxis 0 (LVF s i1))
                               (update i1 (fun v => Vec.sub v (Vec.scale (CMS.massInverseBody1 M) linearImpulse))
                                  (RBC.mConstrainedLinearVelocities
                                     (mRigidBodyComponents s)))))))))))).
Proof. cbv zeta. effect. Qed.

(** What the penetration step does to the constrained linear velocities of
    the two bodies of a manifold: the impulse is applied, then the velocity of
    body 1 is multiplied twice by its factors and that of body 2 once. *)
Lemma solvePenetration_factors (beta : R) (c i : nat) (s : ContactSolverSystem) :
  let M := constraint s c in
  let P := point s i in
  let i1 := CMS.rigidBodyComponentIndexBody1 M in
  let i2 := CMS.rigidBodyComponentIndexBody2 M in
  let deltaLambda :=
    Rmax (CPS.penetrationImpulse P + penetrationDeltaLambda beta c i s) 0 -
    CPS.penetrationImpulse P in
  let linearImpulse := Vec.mulr (CPS.normal P) deltaLambda in
  let s' := solvePenetration beta c i s in
  let n := List.length (RBC.mConstrainedLinearVelocities (mRigidBodyComponents s)) in
  i1 <> i2 -> (i1 < n)%nat -> (i2 < n)%nat ->
  CLV s' i1 =
    timesFactors
      (timesFactors (Vec.sub (CLV s i1) (Vec.scale (CMS.massInverseBody1 M) linearImpulse))
                    (LVF s i1))
      (LVF s i1) /\
  CLV s' i2 =
    timesFactors (Vec.add (CLV s i2) (Vec.scale (CMS.massInverseBody2 M) linearImpulse))
                 (LVF s i2).
Proof.
  intros M P i1 i2 deltaLambda linearImpulse s' n Hne H1 H2.
  unfold s', CLV. rewrite solvePenetration_constrainedLinear. fold M P i1 i2.
  fold deltaLambda. fold linearImpulse.
  split.
  - repeat ((rewrite get_update_other by congruence) ||
            (rewrite get_update_same by (rewrite ?update_length; exact H1))).
    reflexivity.
  - repeat ((rewrite get_update_other by congruence) ||
            (rewrite get_update_same by (rewrite ?update_length; exact H2))).
    reflexivity.
Qed.

(** A friction limit of 0 leaves no impulse. *)
Lemma clampImpulse_zero (v : R) : clampImpulse v 0 = 0.
Proof.
  unfold clampImpulse, Rmax, Rmin.
  repeat (destruct (Rle_dec _ _)); lra.
Qed.

(** Updating a row with a function that changes nothing. *)
Lemma update_same {A : Type} (i : nat) (f : A -> A) (l : list A) :
  (forall a, f a = a) -> update i f l = l.
Proof.
  intros Hf; revert i; induction l as [|a l IH]; intros [|i]; simpl; auto.
  - now rewrite Hf.
  - now rewrite IH.
Qed.

(** The constrained linear velocities after one friction step. *)
Lemma solveFriction_constrainedLinear (b : bool) (c : nat) (sum : R)
  (s : ContactSolverSystem) :
  let M := constraint s c in
  let t := if b then CMS.frictionVector2 M else CMS.frictionVector1 M in
  let f := if b then CMS.friction2Impulse M else CMS.friction1Impulse M in
  exists v,
    RBC.mConstrainedLinearVelocities (mRigidBodyComponents (solveFriction b c sum s)) =
    update (CMS.rigidBodyComponentIndexBody2 M)
      (fun u => Vec.add u (Vec.scale (CMS.massInverseBody2 M)
                 (Vec.mulr t (clampImpulse v (CMS.frictionCoefficient M * sum) - f))))
      (update (CMS.rigidBodyComponentIndexBody1 M)
         (fun u => Vec.sub u (Vec.scale (CMS.massInverseBody1 M)
                    (Vec.mulr t (clampImpulse v (CMS.frictionCoefficient M * sum) - f))))
         (RBC.mConstrainedLinearVelocities (mRigidBodyComponents s))).
Proof. cbv zeta. destruct b; eexists; effect. Qed.

(** A friction step without accumulated normal impulse and without
    accumulated friction impulse applies no impulse. *)
Lemma solveFriction_idle (b : bool) (c : nat) (s : ContactSolverSystem) :
  (if b then CMS.friction2Impulse (constraint s c)
   else CMS.friction1Impulse (constraint s c)) = 0 ->
  RBC.mConstrainedLinearVelocities (mRigidBodyComponents (solveFriction b c 0 s)) =
  RBC.mConstrainedLinearVelocities (mRigidBodyComponents s).
Proof.
  intros Hf. destruct (solveFriction_constrainedLinear b c 0 s) as [v ->].
  rewrite Hf, Rmult_0_r, clampImpulse_zero.
  rewrite !update_same; [reflexivity | |];
    intros [ux uy uz]; unfold Vec.add, Vec.sub, Vec.scale, Vec.mulr; cbn;
    apply Vector3_eq; cbn; ring.
Qed.

(** The split-impulse, twist and rolling steps do not write the constrained
    linear velocities. *)
Lemma solveSplit_constrainedLinear (beta : R) (c i : nat) (s : ContactSolverSystem) :
  RBC.mConstrainedLinearVelocities (mRigidBodyComponents (solveSplit beta c i s)) =
  RBC.mConstrainedLinearVelocities (mRigidBodyComponents s).
Proof. effect. Qed.

Lemma solveTwist_constrainedLinear (c : nat) (sum : R) (s : ContactSolverSystem) :
  RBC.mConstrainedLinearVelocities (mRigidBodyComponents (solveTwist c sum s)) =
  RBC.mConstrainedLinearVelocities (mRigidBodyComponents s).
Proof. effect. Qed.

Lemma solveRolling_constrainedLinear (clamp : Vector3 -> R -> Vector3) (c : nat) (sum : R)
  (s : ContactSolverSystem) :
  RBC.mConstrainedLinearVelocities (mRigidBodyComponents (solveRolling clamp c sum s)) =
  RBC.mConstrainedLinearVelocities (mRigidBodyComponents s).
Proof. unfold solveRolling. destruct (Rgtb _ _); effect. Qed.

(** The first friction step does not touch the second friction impulse. *)
Lemma solveFriction1_keeps_friction2 (c : nat) (sum : R) (s : ContactSolverSystem) :
  CMS.friction2Impulse (constraint (solveFriction false c sum s) c) =
  CMS.friction2Impulse (constraint s c).
Proof.
  destruct (solveFriction1_constraints c sum s) as [v E].
  unfold constraint. rewrite E.
  destruct (Nat.lt_ge_cases c (List.length (mContactConstraints s))) as [Hlt|Hge].
  - rewrite get_update_same by exact Hlt. reflexivity.
  - now rewrite update_out_of_range.
Qed.


(** One call of [solve] on a solver with a single manifold of a single
    contact point, when the normal pass applies no impulse and nothing has
    been accumulated: the constrained linear velocities are those left by the
    normal pass. *)
Lemma solve_single_idle_contact (clamp : Vector3 -> R -> Vector3)
  (s : ContactSolverSystem) :
  let beta := if mIsSplitImpulseActive s then BETA_SPLIT_IMPULSE else BETA in
  mNbContactManifolds s = 1%nat ->
  CMS.nbContacts (constraint s 0) = 1%nat ->
  (0 < List.length (mContactPoints s))%nat ->
  CPS.penetrationImpulse (point s 0) = 0 ->
  CMS.friction1Impulse (constraint s 0) = 0 ->
  CMS.friction2Impulse (constraint s 0) = 0 ->
  penetrationDeltaLambda beta 0 0 s = 0 ->
  RBC.mConstrainedLinearVelocities (mRigidBodyComponents (solve clamp s)) =
  RBC.mConstrainedLinearVelocities (mRigidBodyComponents (solvePenetration beta 0 0 s)).
Proof.
  intros beta Hn Hnb Hi Hp0 Hf1 Hf2 HL.
  assert (Hsum : sl_sumPenetrationImpulse (solvePoint beta 0 (mkSolveLoop s 0 0)) = 0).
  { rewrite solvePoint_sum.
    destruct (solvePoint_same beta 0 (mkSolveLoop s 0 0) Hi) as (Hp & _).
    cbn [sl_solver sl_contactPointIndex sl_sumPenetrationImpulse] in Hp |- *.
    rewrite Hp, HL, Hp0.
    rewrite Rplus_0_l, Rmax_left by lra. lra. }
  assert (Hcons : forall c, constraint (sl_solver (solvePoint beta 0 (mkSolveLoop s 0 0))) c =
                            constraint s c).
  { intros c. unfold constraint. now rewrite solvePoint_constraints. }
  unfold solve. fold beta. rewrite Hn. cbn [for_loop].
  unfold solveManifold. cbv beta iota zeta. cbn [fst].
  rewrite solveRolling_constrainedLinear, solveTwist_constrainedLinear.
  rewrite Hnb. cbn [for_loop]. rewrite Hsum.
  rewrite solveFriction_idle
    by (rewrite solveFriction1_keeps_friction2, Hcons; exact Hf2).
  rewrite solveFriction_idle by (rewrite Hcons; exact Hf1).
  rewrite solvePoint_solver. cbv zeta. cbn [sl_solver sl_contactPointIndex].
  destruct (mIsSplitImpulseActive s).
  - now rewrite solveSplit_constrainedLinear.
  - reflexivity.
Qed.



(** The same, read at one body. *)
Lemma solve_single_idle_contact_body (clamp : Vector3 -> R -> Vector3)
  (s : ContactSolverSystem) (b : nat) :
  let beta := if mIsSplitImpulseActive s then BETA_SPLIT_IMPULSE else BETA in
  mNbContactManifolds s = 1%nat ->
  CMS.nbContacts (constraint s 0) = 1%nat ->
  (0 < List.length (mContactPoints s))%nat ->
  CPS.penetrationImpulse (point s 0) = 0 ->
  CMS.friction1Impulse (constraint s 0) = 0 ->
  CMS.friction2Impulse (constraint s 0) = 0 ->
  penetrationDeltaLambda beta 0 0 s = 0 ->
  CLV (solve clamp s) b = CLV (solvePenetration beta 0 0 s) b.
Proof.
  intros beta Hn Hnb Hi Hp0 Hf1 Hf2 HL. unfold CLV.
  now rewrite (solve_single_idle_contact clamp s).
Qed.

(** C8 (the code departs from the claim).  In the sliding world the normal
    pass at the only contact point applies no impulse to body 0, whose
    constrained linear velocity is (4,0,0) and whose linear velocity factor is
    (1/2,1,1); the pass leaves (1,0,0), and so does the whole call of solve:
    the velocity is multiplied twice by the factor, where a single
    multiplication gives (2,0,0). *)
Theorem solve_applies_body1_factors_twice :
  let s := init epsilonFloat unitOrthogonalVector oneManifold slidingPoints (1 / 60)
             slidingSolver in
  let beta := if mIsSplitImpulseActive s then BETA_SPLIT_IMPULSE else BETA in
  CLV s 0 = mkVector3 4 0 0 /\ LVF s 0 = mkVector3 (1 / 2) 1 1 /\
  penetrationDeltaLambda beta 0 0 s = 0 /\
  CLV (solvePenetration beta 0 0 s) 0 = mkVector3 1 0 0 /\
  (forall clamp, CLV (solve clamp s) 0 = mkVector3 1 0 0) /\
  timesFactors (CLV s 0) (LVF s 0) = mkVector3 2 0 0.
Proof.
  intros s beta.
  assert (H0 : CLV s 0 = mkVector3 4 0 0) by (lazy; reflexivity).
  assert (HF : LVF s 0 = mkVector3 (1 / 2) 1 1) by (lazy; reflexivity).
  assert (HL : penetrationDeltaLambda beta 0 0 s = 0).
  { unfold penetrationDeltaLambda.
    replace (mIsSplitImpulseActive s) with true by (lazy; reflexivity).
    replace (CPS.restitutionBias (point s 0)) with 0.
    - cbn. unfold Vec.sub, Vec.zero; cbn. ring.
    - cbn. unfold computeMixedRestitutionFactor, Vec.sub, Vec.zero; cbn.
      rewrite Rltb_false by lra. reflexivity. }
  assert (H1 : CLV (solvePenetration beta 0 0 s) 0 = mkVector3 1 0 0).
  { destruct (solvePenetration_factors beta 0 0 s) as [H1 _];
      [lazy; lia | lazy; lia | lazy; lia |].
    replace (CMS.rigidBodyComponentIndexBody1 (constraint s 0)) with 0%nat in H1
      by (lazy; reflexivity).
    replace (CMS.massInverseBody1 (constraint s 0)) with 1 in H1 by (lazy; reflexivity).
    rewrite H1, HL, H0, HF.
    replace (CPS.penetrationImpulse (point s 0)) with 0 by (lazy; reflexivity).
    rewrite Rplus_0_l, Rmax_left by lra.
    unfold timesFactors, Vec.sub, Vec.scale, Vec.mulr; cbn.
    apply Vector3_eq; cbn; lra. }
  assert (A1 : mNbContactManifolds s = 1%nat) by (lazy; reflexivity).
  assert (A2 : CMS.nbContacts (constraint s 0) = 1%nat) by (lazy; reflexivity).
  assert (A3 : (0 < List.length (mContactPoints s))%nat) by (lazy; lia).
  assert (A4 : CPS.penetrationImpulse (point s 0) = 0) by (lazy; reflexivity).
  assert (A5 : CMS.friction1Impulse (constraint s 0) = 0) by (lazy; reflexivity).
  assert (A6 : CMS.friction2Impulse (constraint s 0) = 0) by (lazy; reflexivity).
  split; [exact H0|]. split; [exact HF|]. split; [exact HL|]. split; [exact H1|].
  split.
  - intros clamp.
    exact (eq_trans (solve_single_idle_contact_body clamp s 0 A1 A2 A3 A4 A5 A6 HL) H1).
  - rewrite H0, HF. unfold timesFactors; cbn. apply Vector3_eq; cbn; lra.
Qed.

(** ** An instance of the tangent basis *)

(** The model of [getOneUnitOrthogonalVector] returns a unit vector orthogonal
    to its argument. *)
Lemma unitOrthogonalVector_spec (n : Vector3) :
  Vec.length (unitOrthogonalVector n) = 1 /\ Vec.dot (unitOrthogonalVector n) n = 0.
Proof.
  unfold unitOrthogonalVector.
  destruct (Rgtb (x n * x n + y n * y n) 0) eqn:Hb.
  - apply Rltb_spec in Hb.
    set (q := x n * x n + y n * y n) in *.
    assert (Hr : 0 < sqrt q) by (apply sqrt_lt_R0; exact Hb).
    assert (Hq : sqrt q * sqrt q = q) by (apply sqrt_sqrt; lra).
    split.
    + apply length_one_iff. rewrite lengthSquare_div by lra.
      rewrite Hq. unfold Vec.lengthSquare; simpl. fold q.
      replace (- y n * - y n + x n * x n + 0 * 0) with q by (unfold q; ring).
      field. lra.
    + unfold Vec.dot, Vec.div; simpl. field. lra.
  - assert (Hle : x n * x n + y n * y n <= 0).
    { unfold Rgtb, Rltb in Hb. destruct (Rlt_dec _ _); [discriminate | lra]. }
    assert (Hx : x n = 0) by nra.
    split.
    + apply length_one_iff. unfold Vec.lengthSquare; simpl. ring.
    + unfold Vec.dot; simpl. rewrite Hx. ring.
Qed.


(** ** Mixing of the collider materials *)

(** X1.  The three mixed material values do not depend on the order of the two
    colliders: the restitution factor is the larger bounciness, the friction
    coefficient the geometric mean and the rolling resistance the arithmetic
    mean. *)
Theorem material_mixing_symmetric (m1 m2 : Material.t) :
  computeMixedRestitutionFactor m1 m2 = computeMixedRestitutionFactor m2 m1 /\
  computeMixedFrictionCoefficient m1 m2 = computeMixedFrictionCoefficient m2 m1 /\
  computeMixedRollingResistance m1 m2 = computeMixedRollingResistance m2 m1.
Proof.
  split; [|split].
  - unfold computeMixedRestitutionFactor, Rgtb, Rltb. cbv zeta.
    destruct (Rlt_dec _ _), (Rlt_dec _ _); lra.
  - unfold computeMixedFrictionCoefficient. now rewrite Rmult_comm.
  - unfold computeMixedRollingResistance. ring.
Qed.

(** The mixed restitution factor is the maximum of the two bouncinesses. *)
Lemma computeMixedRestitutionFactor_max (m1 m2 : Material.t) :
  computeMixedRestitutionFactor m1 m2 =
  Rmax (Material.getBounciness m1) (Material.getBounciness m2).
Proof.
  unfold computeMixedRestitutionFactor, Rgtb, Rltb, Rmax. cbv zeta.
  destruct (Rlt_dec _ _), (Rle_dec _ _); lra.
Qed.

(** X2.  With friction coefficients that are not negative, every mixed value
    lies between the values of the two materials; the mixed friction
    coefficient squares to their product, so one frictionless collider makes
    the contact frictionless. *)
Theorem material_mixing_between (m1 m2 : Material.t) :
  0 <= Material.getFrictionCoefficient m1 ->
  0 <= Material.getFrictionCoefficient m2 ->
  let between (a b v : R) := Rmin a b <= v <= Rmax a b in
  between (Material.getBounciness m1) (Material.getBounciness m2)
          (computeMixedRestitutionFactor m1 m2) /\
  between (Material.getFrictionCoefficient m1) (Material.getFrictionCoefficient m2)
          (computeMixedFrictionCoefficient m1 m2) /\
  between (Material.getRollingResistance m1) (Material.getRollingResistance m2)
          (computeMixedRollingResistance m1 m2) /\
  computeMixedFrictionCoefficient m1 m2 * computeMixedFrictionCoefficient m1 m2 =
    Material.getFrictionCoefficient m1 * Material.getFrictionCoefficient m2.
Proof.
  intros H1 H2 between. unfold between.
  split; [|split; [|split]].
  - rewrite computeMixedRestitutionFactor_max.
    split; [|lra].
    unfold Rmin, Rmax. destruct (Rle_dec _ _); lra.
  - unfold computeMixedFrictionCoefficient.
    set (a := Material.getFrictionCoefficient m1) in *.
    set (b := Material.getFrictionCoefficient m2) in *.
    assert (Hs : sqrt (a * b) * sqrt (a * b) = a * b) by (apply sqrt_sqrt; nra).
    assert (Hp : 0 <= sqrt (a * b)) by apply sqrt_pos.
    unfold Rmin, Rmax. destruct (Rle_dec a b); split; nra.
  - unfold computeMixedRollingResistance, Rmin, Rmax.
    destruct (Rle_dec _ _); lra.
  - unfold computeMixedFrictionCoefficient. apply sqrt_sqrt. nra.
Qed.

Lemma material_mixing_between_witness :
  let m1 := Material.mk 0 (1 / 2) 0 in
  let m2 := Material.mk 1 2 1 in
  0 <= Material.getFrictionCoefficient m1 /\
  0 <= Material.getFrictionCoefficient m2 /\
  computeMixedFrictionCoefficient m1 m2 * computeMixedFrictionCoefficient m1 m2 = 1 / 2 * 2.
Proof.
  intros m1 m2.
  assert (H1 : 0 <= Material.getFrictionCoefficient m1) by (simpl; lra).
  assert (H2 : 0 <= Material.getFrictionCoefficient m2) by (simpl; lra).
  split; [exact H1|]. split; [exact H2|].
  exact (proj2 (proj2 (proj2 (material_mixing_between m1 m2 H1 H2)))).
Defined.

(** ** The friction vectors *)

Lemma length_cross_unit (n f1 : Vector3) :
  Vec.length n = 1 -> Vec.length f1 = 1 -> Vec.dot f1 n = 0 ->
  Vec.length (Vec.cross n f1) = 1.
Proof.
  intros Hn Hf Hd. apply length_one_iff in Hn. apply length_one_iff in Hf.
  apply length_one_iff. rewrite lengthSquare_cross, Hn, Hf, (dot_comm n f1), Hd. ring.
Qed.

(** The tangential part of the velocity difference, as the source builds it. *)
Lemma computeFrictionVectors_first (eps : R) (g : Vector3 -> Vector3) (dv n : Vector3) :
  let t := Vec.sub dv (Vec.scale (Vec.dot dv n) n) in
  fst (computeFrictionVectors eps g dv n) =
  if Rgtb (Vec.length t) eps then Vec.div t (Vec.length t) else g n.
Proof. reflexivity. Qed.

(** X3.  Both friction vectors have length 1, in the branch of the tangential
    velocity and in the fallback branch. *)
Theorem computeFrictionVectors_unit (eps : R) (g : Vector3 -> Vector3) (dv n : Vector3) :
  0 <= eps -> Vec.length n = 1 ->
  Vec.length (g n) = 1 -> Vec.dot (g n) n = 0 ->
  Vec.length (fst (computeFrictionVectors eps g dv n)) = 1 /\
  Vec.length (snd (computeFrictionVectors eps g dv n)) = 1.
Proof.
  intros He Hn Hg1 Hg2.
  assert (H1 : Vec.length (fst (computeFrictionVectors eps g dv n)) = 1 /\
               Vec.dot (fst (computeFrictionVectors eps g dv n)) n = 0).
  { rewrite computeFrictionVectors_first. cbv zeta.
    set (t := Vec.sub dv _).
    destruct (Rgtb (Vec.length t) eps) eqn:Hb.
    - apply Rltb_spec in Hb. apply unit_direction; [lra|].
      apply tangentVelocity_orthogonal. exact Hn.
    - split; assumption. }
  destruct H1 as [H1 H2]. split; [exact H1|].
  change (snd (computeFrictionVectors eps g dv n))
    with (Vec.getUnit (Vec.cross n (fst (computeFrictionVectors eps g dv n)))).
  rewrite getUnit_of_unit; now apply length_cross_unit.
Qed.

(** X4.  When the bodies slide at the friction point (tangential speed above
    the machine epsilon), the first friction vector points along the sliding
    velocity: the velocity difference has the tangential speed for component
    along the first friction vector, and no component along the second. *)
Theorem computeFrictionVectors_sliding_direction (eps : R) (g : Vector3 -> Vector3)
  (dv n : Vector3) :
  let t := Vec.sub dv (Vec.scale (Vec.dot dv n) n) in
  let f1 := fst (computeFrictionVectors eps g dv n) in
  let f2 := snd (computeFrictionVectors eps g dv n) in
  0 <= eps -> Vec.length n = 1 -> eps < Vec.length t ->
  Vec.dot dv f1 = Vec.length t /\ Vec.dot dv f2 = 0.
Proof.
  intros t f1 f2 He Hn Ht.
  assert (Hf1 : f1 = Vec.div t (Vec.length t)).
  { unfold f1. rewrite computeFrictionVectors_first. cbv zeta. fold t.
    now rewrite Rgtb_true by lra. }
  assert (Hl : 0 < Vec.length t) by lra.
  assert (Hne : Vec.length t <> 0) by lra.
  assert (Hn2 : Vec.lengthSquare n = 1) by (now apply length_one_iff).
  assert (Htn : Vec.dot t n = 0) by (apply tangentVelocity_orthogonal; exact Hn).
  assert (Hdt : Vec.dot dv t = Vec.lengthSquare t).
  { assert (E : Vec.dot dv t - Vec.lengthSquare t = Vec.dot dv n * Vec.dot t n)
      by (unfold t, Vec.dot, Vec.lengthSquare, Vec.sub, Vec.scale; simpl; ring).
    rewrite Htn in E. lra. }
  destruct (unit_direction t n Hl Htn) as [U1 U2]. rewrite <- Hf1 in U1, U2.
  split.
  - rewrite Hf1.
    replace (Vec.dot dv (Vec.div t (Vec.length t))) with (Vec.dot dv t / Vec.length t)
      by (unfold Vec.dot, Vec.div; simpl; field; exact Hne).
    rewrite Hdt, <- length_square. field. exact Hne.
  - change f2 with (Vec.getUnit (Vec.cross n f1)).
    rewrite getUnit_of_unit by (now apply length_cross_unit).
    rewrite Hf1.
    replace (Vec.dot dv (Vec.cross n (Vec.div t (Vec.length t))))
      with (Vec.dot dv (Vec.cross n t) / Vec.length t)
      by (unfold Vec.dot, Vec.cross, Vec.div; simpl; field; exact Hne).
    replace (Vec.dot dv (Vec.cross n t)) with 0; [unfold Rdiv; ring|].
    unfold t, Vec.dot, Vec.cross, Vec.sub, Vec.scale; simpl. ring.
Qed.

Lemma epsilonFloat_nonneg : 0 <= epsilonFloat.
Proof. unfold epsilonFloat. apply Rlt_le, Rinv_0_lt_compat. lra. Qed.

Lemma computeFrictionVectors_unit_witness :
  let n := mkVector3 0 (-1) 0 in
  let dv := Vec.zero in
  0 <= epsilonFloat /\ Vec.length n = 1 /\
  Vec.length (unitOrthogonalVector n) = 1 /\ Vec.dot (unitOrthogonalVector n) n = 0 /\
  Vec.length (fst (computeFrictionVectors epsilonFloat unitOrthogonalVector dv n)) = 1 /\
  Vec.length (snd (computeFrictionVectors epsilonFloat unitOrthogonalVector dv n)) = 1.
Proof.
  intros n dv.
  assert (Hn : Vec.length n = 1)
    by (apply length_one_iff; unfold Vec.lengthSquare; simpl; lra).
  destruct (unitOrthogonalVector_spec n) as [G1 G2].
  split; [exact epsilonFloat_nonneg|]. split; [exact Hn|].
  split; [exact G1|]. split; [exact G2|].
  exact (computeFrictionVectors_unit epsilonFloat unitOrthogonalVector dv n
           epsilonFloat_nonneg Hn G1 G2).
Defined.

Lemma computeFrictionVectors_sliding_direction_witness :
  let n := mkVector3 0 (-1) 0 in
  let dv := mkVector3 4 0 0 in
  let t := Vec.sub dv (Vec.scale (Vec.dot dv n) n) in
  0 <= epsilonFloat /\ Vec.length n = 1 /\ epsilonFloat < Vec.length t /\
  Vec.dot dv (fst (computeFrictionVectors epsilonFloat unitOrthogonalVector dv n)) =
    Vec.length t /\
  Vec.dot dv (snd (computeFrictionVectors epsilonFloat unitOrthogonalVector dv n)) = 0.
Proof.
  intros n dv t.
  assert (Hn : Vec.length n = 1)
    by (apply length_one_iff; unfold Vec.lengthSquare; simpl; lra).
  assert (Ht : Vec.length t = 4).
  { apply sqrt_lem_1; [apply lengthSquare_nonneg | lra |].
    unfold t, Vec.lengthSquare, Vec.sub, Vec.scale, Vec.dot; simpl. lra. }
  assert (He : epsilonFloat < Vec.length t).
  { rewrite Ht. unfold epsilonFloat. lra. }
  split; [exact epsilonFloat_nonneg|]. split; [exact Hn|]. split; [exact He|].
  exact (computeFrictionVectors_sliding_direction epsilonFloat unitOrthogonalVector dv n
           epsilonFloat_nonneg Hn He).
Defined.

(** ** What [warmStart] leaves alone *)

Lemma warmStartPoint_frame (c : nat) (st : WarmStartLoop) :
  bodyFrame (ws_solver (warmStartPoint c st)) = bodyFrame (ws_solver st) /\
  map staticPoint (mContactPoints (ws_solver (warmStartPoint c st))) =
    map staticPoint (mContactPoints (ws_solver st)).
Proof.
  destruct (warmStartPoint_solver c st) as (_ & _ & W3 & _). cbv zeta in W3.
  split.
  - unfold warmStartPoint.
    destruct (CPS.isRestingContact (point (ws_solver st) (ws_contactPointIndex st)));
      cbn [ws_solver]; effect.
  - rewrite W3. destruct (CPS.isRestingContact _); [reflexivity|].
    apply map_update_invariant. reflexivity.
Qed.

Lemma warmStartPoints_frame (c : nat) (st : WarmStartLoop) (nb : nat) :
  let r := for_loop 0 nb (fun _ => warmStartPoint c) st in
  mContactConstraints (ws_solver r) = mContactConstraints (ws_solver st) /\
  solverFrame (ws_solver r) = solverFrame (ws_solver st) /\
  bodyFrame (ws_solver r) = bodyFrame (ws_solver st) /\
  map staticPoint (mContactPoints (ws_solver r)) =
    map staticPoint (mContactPoints (ws_solver st)).
Proof.
  induction nb as [|nb IH]; [repeat split|].
  cbv zeta. rewrite for_loop_succ.
  destruct IH as (H1 & H2 & H3 & H4).
  set (r := for_loop 0 nb (fun _ => warmStartPoint c) st) in *.
  destruct (warmStartPoint_solver c r) as (W1 & W2 & _).
  destruct (warmStartPoint_frame c r) as (F1 & F2).
  cbv zeta in W1, W2.
  rewrite W1, W2, F1, F2. repeat split; assumption.
Qed.

Lemma warmStartFriction_frame (c : nat) (s : ContactSolverSystem) :
  bodyFrame (warmStartFriction c s) = bodyFrame s.
Proof. effect. Qed.

Lemma warmStartManifold_frame (c : nat) (s : ContactSolverSystem) (idx : nat) :
  let s' := fst (warmStartManifold c (s, idx)) in
  solverFrame s' = solverFrame s /\ bodyFrame s' = bodyFrame s /\
  map staticPoint (mContactPoints s') = map staticPoint (mContactPoints s) /\
  map staticManifold (mContactConstraints s') = map staticManifold (mContactConstraints s).
Proof.
  unfold warmStartManifold. cbv beta iota zeta. cbn [fst].
  destruct (warmStartPoints_frame c (mkWarmStartLoop s idx false)
              (CMS.nbContacts (constraint s c))) as (H1 & H2 & H3 & H4).
  cbn [ws_solver] in H1, H2, H3, H4.
  set (r := for_loop 0 _ _ _) in *.
  destruct (ws_atLeastOneRestingContactPoint r).
  - destruct (warmStartFriction_effect c (ws_solver r)) as (E1 & E2 & E3).
    cbv zeta in E3. rewrite E1, E2, E3, warmStartFriction_frame.
    rewrite !static_update by reflexivity. rewrite H1.
    repeat split; assumption.
  - unfold modConstraint.
    change (solverFrame (set_mContactConstraints ?l ?t)) with (solverFrame t).
    change (bodyFrame (set_mContactConstraints ?l ?t)) with (bodyFrame t).
    change (mContactPoints (set_mContactConstraints ?l ?t)) with (mContactPoints t).
    change (mContactConstraints (set_mContactConstraints ?l ?t)) with l.
    rewrite static_update by reflexivity. rewrite H1.
    repeat split; assumption.
Qed.

(** The manifold loop of [warmStart], whatever the arrays. *)
Lemma warmStart_unchanged (s : ContactSolverSystem) :
  solverFrame (warmStart s) = solverFrame s /\
  bodyFrame (warmStart s) = bodyFrame s /\
  map staticPoint (mContactPoints (warmStart s)) = map staticPoint (mContactPoints s) /\
  map staticManifold (mContactConstraints (warmStart s)) =
    map staticManifold (mContactConstraints s).
Proof.
  unfold warmStart. generalize (mNbContactManifolds s) as n.
  induction n as [|n IH]; [repeat split|].
  rewrite for_loop_succ. simpl Nat.add.
  destruct (for_loop 0 n warmStartManifold (s, 0%nat)) as [t idx].
  cbn [fst] in IH. destruct IH as (H1 & H2 & H3 & H4).
  destruct (warmStartManifold_frame n t idx) as (F1 & F2 & F3 & F4).
  cbv zeta in F1, F2, F3, F4. rewrite F1, F2, F3, F4.
  repeat split; assumption.
Qed.

(** X5.  [warmStart] writes the two constrained velocity columns and the
    accumulated impulses of the solver records, and nothing else: the
    step-start and split velocity columns, the other body columns, the
    external stores, the counters and every other field of the records are as
    before. *)
Theorem warmStart_frame (s : ContactSolverSystem) :
  let s' := warmStart s in
  let rb := mRigidBodyComponents s in
  let rb' := mRigidBodyComponents s' in
  RBC.mLinearVelocities rb' = RBC.mLinearVelocities rb /\
  RBC.mAngularVelocities rb' = RBC.mAngularVelocities rb /\
  RBC.mSplitLinearVelocities rb' = RBC.mSplitLinearVelocities rb /\
  RBC.mSplitAngularVelocities rb' = RBC.mSplitAngularVelocities rb /\
  RBC.mCentersOfMassWorld rb' = RBC.mCentersOfMassWorld rb /\
  RBC.mInverseMasses rb' = RBC.mInverseMasses rb /\
  RBC.mLinearVelocitiesFactors rb' = RBC.mLinearVelocitiesFactors rb /\
  RBC.mAngularVelocitiesFactors rb' = RBC.mAngularVelocitiesFactors rb /\
  mAllContactManifolds s' = mAllContactManifolds s /\
  mAllContactPoints s' = mAllContactPoints s /\
  mNbContactManifolds s' = mNbContactManifolds s /\
  mNbContactPoints s' = mNbContactPoints s /\
  map staticPoint (mContactPoints s') = map staticPoint (mContactPoints s) /\
  map staticManifold (mContactConstraints s') = map staticManifold (mContactConstraints s).
Proof.
  intros s' rb rb'.
  destruct (warmStart_unchanged s) as (F1 & F2 & F3 & F4).
  fold s' in F1, F2, F3, F4.
  unfold bodyFrame in F2. cbv zeta in F2. fold rb rb' in F2.
  unfold solverFrame in F1.
  injection F1; intros. injection F2; intros.
  repeat split; assumption.
Qed.

(** ** storeImpulses *)

Lemma storePoint_frame (l : list ContactPoint.t) (P : CPS.t) :
  map withoutImpulse (storePoint l P) = map withoutImpulse l.
Proof. apply map_update_invariant. reflexivity. Qed.

Lemma storeManifold_frame (l : list ContactManifold.t) (M : CMS.t) :
  map withoutStored (storeManifold l M) = map withoutStored l.
Proof. apply map_update_invariant. reflexivity. Qed.

(** The contact-point loop of a manifold in [storeImpulses] writes the
    records from [idx] on, in order. *)
Lemma storeImpulsesPoints_loop (c : nat) (s : ContactSolverSystem) (idx nb : nat) :
  let r := for_loop 0 nb (fun _ => storeImpulsesPoint c) (s, idx) in
  snd r = (idx + nb)%nat /\
  internalState (fst r) = internalState s /\
  mAllContactManifolds (fst r) = mAllContactManifolds s /\
  mAllContactPoints (fst r) =
    fold_left storePoint (manifoldPoints s idx nb) (mAllContactPoints s).
Proof.
  induction nb as [|nb IH].
  - simpl. rewrite Nat.add_0_r. repeat split.
  - cbv zeta. rewrite for_loop_succ.
    destruct (for_loop 0 nb (fun _ => storeImpulsesPoint c) (s, idx)) as [t k].
    cbn [fst snd] in IH. destruct IH as (H1 & H2 & H3 & H4). subst k.
    unfold storeImpulsesPoint. cbn [fst snd].
    assert (HP : point t (idx + nb) = point s (idx + nb)).
    { unfold point. unfold internalState in H2. congruence. }
    rewrite HP.
    split; [lia|]. split; [exact H2|]. split; [exact H3|].
    cbn [mAllContactPoints set_mAllContactPoints].
    rewrite manifoldPoints_succ, fold_left_app, H4. reflexivity.
Qed.

Lemma storeImpulsesManifold_effect (c : nat) (s : ContactSolverSystem) (idx : nat) :
  let r := storeImpulsesManifold c (s, idx) in
  let nb := CMS.nbContacts (constraint s c) in
  snd r = (idx + nb)%nat /\
  internalState (fst r) = internalState s /\
  mAllContactManifolds (fst r) = storeManifold (mAllContactManifolds s) (constraint s c) /\
  mAllContactPoints (fst r) =
    fold_left storePoint (manifoldPoints s idx nb) (mAllContactPoints s).
Proof.
  cbv zeta. unfold storeImpulsesManifold.
  destruct (storeImpulsesPoints_loop c s idx (CMS.nbContacts (constraint s c)))
    as (H1 & H2 & H3 & H4).
  destruct (for_loop 0 _ _ _) as [t k]. cbn [fst snd] in *.
  assert (HM : constraint t c = constraint s c).
  { unfold constraint. unfold internalState in H2. congruence. }
  rewrite HM. split; [exact H1|]. split; [exact H2|].
  split; [|exact H4].
  cbn [mAllContactManifolds set_mAllContactManifolds]. rewrite H3. reflexivity.
Qed.

Lemma firstn_succ_get {A : Type} (d : A) (l : list A) (n : nat) :
  (n < List.length l)%nat -> firstn (Datatypes.S n) l = firstn n l ++ [get d l n].
Proof.
  revert n; induction l as [|a l IH]; intros n Hn; simpl in Hn; [lia|].
  destruct n as [|n]; [reflexivity|].
  rewrite !firstn_cons, (IH n) by lia. reflexivity.
Qed.

(** [storeImpulses] over the first [n] manifolds. *)
Lemma storeImpulses_loop (s : ContactSolverSystem) (n : nat) :
  (n <= List.length (mContactConstraints s))%nat ->
  let r := for_loop 0 n storeImpulsesManifold (s, 0%nat) in
  snd r = firstPoint s n /\
  internalState (fst r) = internalState s /\
  mAllContactManifolds (fst r) =
    fold_left storeManifold (firstn n (mContactConstraints s)) (mAllContactManifolds s) /\
  mAllContactPoints (fst r) =
    fold_left storePoint (manifoldPoints s 0 (firstPoint s n)) (mAllContactPoints s).
Proof.
  induction n as [|n IH]; intros Hn.
  - simpl. rewrite firstPoint_zero. repeat split.
  - cbv zeta. rewrite for_loop_succ. simpl Nat.add.
    destruct IH as (H1 & H2 & H3 & H4); [lia|].
    destruct (for_loop 0 n storeImpulsesManifold (s, 0%nat)) as [t idx].
    cbn [fst snd] in H1, H2, H3, H4. subst idx.
    destruct (storeImpulsesManifold_effect n t (firstPoint s n)) as (E1 & E2 & E3 & E4).
    cbv zeta in E1, E2, E3, E4.
    assert (HM : constraint t n = constraint s n).
    { unfold constraint. unfold internalState in H2. congruence. }
    assert (HP : forall a b, manifoldPoints t a b = manifoldPoints s a b).
    { intros a b. apply manifoldPoints_ext. intros i _.
      unfold point. unfold internalState in H2. congruence. }
    rewrite HM, HP in *.
    rewrite firstPoint_succ by lia.
    split; [exact E1|]. split; [congruence|]. split.
    + rewrite E3, H3.
      rewrite (firstn_succ_get CMS.default) by lia.
      rewrite fold_left_app. reflexivity.
    + rewrite E4, H4. unfold manifoldPoints.
      rewrite seq_app, map_app, fold_left_app. reflexivity.
Qed.

(** *** Writes of a loop to an array *)

Section Writes.

Context {A B : Type}.
Variable key : B -> nat.
Variable w : B -> A -> A.

Local Abbreviation write := (fun (l : list A) (b : B) => update (key b) (w b) l).

Lemma writes_length (bs : list B) (l : list A) :
  List.length (fold_left write bs l) = List.length l.
Proof.
  revert l; induction bs as [|b bs IH]; intros l; [reflexivity|].
  cbn [fold_left]. now rewrite IH, update_length.
Qed.

Lemma writes_invariant {C : Type} (g : A -> C) (bs : list B) (l : list A) :
  (forall b a, g (w b a) = g a) ->
  map g (fold_left write bs l) = map g l.
Proof.
  intros Hg. revert l; induction bs as [|b bs IH]; intros l; [reflexivity|].
  cbn [fold_left]. rewrite IH. apply map_update_invariant. apply Hg.
Qed.

Lemma writes_other (d : A) (bs : list B) (l : list A) (k : nat) :
  ~ In k (map key bs) -> get d (fold_left write bs l) k = get d l k.
Proof.
  revert l; induction bs as [|b bs IH]; intros l Hk; [reflexivity|].
  cbn [fold_left map In] in *. rewrite IH by tauto.
  apply get_update_other. tauto.
Qed.

(** With pairwise distinct keys, the entry of a key holds what its own write
    left. *)
Lemma writes_lookup (d : A) (bs : list B) (l : list A) (b : B) :
  NoDup (map key bs) -> In b bs -> (key b < List.length l)%nat ->
  get d (fold_left write bs l) (key b) = w b (get d l (key b)).
Proof.
  revert l; induction bs as [|b0 bs IH]; intros l Hnd Hin Hlen; [contradiction|].
  cbn [fold_left map] in *. inversion Hnd as [|k ks Hk Hnd']; subst.
  destruct Hin as [-> | Hin].
  - rewrite writes_other by exact Hk. now apply get_update_same.
  - rewrite IH by (rewrite ?update_length; assumption).
    rewrite get_update_other; [reflexivity|].
    intros E. apply Hk. rewrite E. now apply in_map.
Qed.

Lemma update_comm (i j : nat) (f g : A -> A) (l : list A) :
  i <> j -> update i f (update j g l) = update j g (update i f l).
Proof.
  revert i j; induction l as [|a l IH]; intros [|i] [|j] Hij; simpl;
    try congruence; auto.
  f_equal. apply IH. congruence.
Qed.

Lemma update_ext (i : nat) (f g : A -> A) (l : list A) :
  (forall a, f a = g a) -> update i f l = update i g l.
Proof.
  intros H. revert i; induction l as [|a l IH]; intros [|i]; simpl; auto.
  - now rewrite H.
  - now rewrite IH.
Qed.

Hypothesis w_absorbs : forall b b' a, w b (w b' a) = w b a.

(** A write to an entry is forgotten once the same entry is written again. *)
Lemma writes_overwrite (bs : list B) (l : list A) (b b' : B) :
  key b = key b' ->
  update (key b) (w b) (fold_left write bs (update (key b') (w b') l)) =
  update (key b) (w b) (fold_left write bs l).
Proof.
  intros Hk. revert l; induction bs as [|b0 bs IH]; intros l.
  - cbn [fold_left]. rewrite Hk, update_update. apply update_ext.
    intros a. apply w_absorbs.
  - cbn [fold_left].
    destruct (Nat.eq_dec (key b0) (key b')) as [E|E].
    + rewrite E, update_update.
      rewrite (update_ext _ (fun a => w b0 (w b' a)) (w b0)) by (intros; apply w_absorbs).
      reflexivity.
    + rewrite update_comm by exact E. apply IH.
Qed.

(** Running the same writes a second time changes nothing. *)
Lemma writes_idempotent (bs : list B) (l : list A) :
  fold_left write bs (fold_left write bs l) = fold_left write bs l.
Proof.
  revert l; induction bs as [|b bs IH] using rev_ind; intros l; [reflexivity|].
  rewrite !fold_left_app. cbn [fold_left].
  rewrite writes_overwrite by reflexivity.
  now rewrite IH.
Qed.

End Writes.

Lemma state_eq (a b : ContactSolverSystem) :
  internalState a = internalState b ->
  mAllContactManifolds a = mAllContactManifolds b ->
  mAllContactPoints a = mAllContactPoints b -> a = b.
Proof.
  destruct a, b; unfold internalState; cbn. intros H1 H2 H3.
  injection H1; intros; subst. reflexivity.
Qed.

Lemma manifoldPoints_all (s : ContactSolverSystem) :
  manifoldPoints s 0 (List.length (mContactPoints s)) = mContactPoints s.
Proof.
  unfold manifoldPoints, point, get.
  apply nth_ext with (d := CPS.default) (d' := CPS.default).
  - now rewrite length_map, length_seq.
  - intros i Hi. rewrite length_map, length_seq in Hi.
    rewrite nth_indep with (d' := nth 0 (mContactPoints s) CPS.default)
      by (now rewrite length_map, length_seq).
    rewrite (map_nth (fun i => nth i (mContactPoints s) CPS.default)).
    now rewrite seq_nth.
Qed.

(** On well-formed arrays, [storeImpulses] writes every contact-point record
    and every manifold record back to its external record, in the order of
    the arrays. *)
Lemma storeImpulses_writes (s : ContactSolverSystem) :
  wellFormed s ->
  internalState (storeImpulses s) = internalState s /\
  mAllContactManifolds (storeImpulses s) =
    fold_left storeManifold (mContactConstraints s) (mAllContactManifolds s) /\
  mAllContactPoints (storeImpulses s) =
    fold_left storePoint (mContactPoints s) (mAllContactPoints s).
Proof.
  intros [Hn Hp]. unfold storeImpulses.
  destruct (storeImpulses_loop s (mNbContactManifolds s)) as (_ & H2 & H3 & H4); [lia|].
  rewrite H2, H3, H4. split; [reflexivity|]. split.
  - now rewrite Hn, firstn_all.
  - now rewrite <- Hp, manifoldPoints_all.
Qed.

Lemma storeImpulses_wellFormed (s : ContactSolverSystem) :
  wellFormed s -> wellFormed (storeImpulses s).
Proof.
  intros H. destruct (storeImpulses_writes s H) as (Hi & _).
  unfold internalState in Hi.
  apply (wellFormed_static s); [congruence | | | exact H].
  - f_equal. congruence.
  - f_equal. congruence.
Qed.

(** X6.  [storeImpulses] writes the external stores only, and there only the
    impulse of the contact points and the three friction impulses, the rolling
    resistance impulse and the two friction vectors of the manifolds: the
    solver records, the body store and every other field of the external
    records are as before. *)
Theorem storeImpulses_frame (s : ContactSolverSystem) :
  wellFormed s ->
  internalState (storeImpulses s) = internalState s /\
  map withoutImpulse (mAllContactPoints (storeImpulses s)) =
    map withoutImpulse (mAllContactPoints s) /\
  map withoutStored (mAllContactManifolds (storeImpulses s)) =
    map withoutStored (mAllContactManifolds s).
Proof.
  intros H. destruct (storeImpulses_writes s H) as (Hi & Hm & Hp).
  split; [exact Hi|]. rewrite Hm, Hp. split.
  - apply (writes_invariant CPS.externalContact
             (fun P => ContactPoint.setPenetrationImpulse (CPS.penetrationImpulse P))).
    reflexivity.
  - apply (writes_invariant CMS.externalContactManifold
             (fun M => ContactManifold.store (CMS.friction1Impulse M) (CMS.friction2Impulse M)
                (CMS.frictionTwistImpulse M) (CMS.rollingResistanceImpulse M)
                (CMS.frictionVector1 M) (CMS.frictionVector2 M))).
    reflexivity.
Qed.

(** X7.  When the records of well-formed arrays point to pairwise distinct
    external records, [storeImpulses] leaves in each external contact point
    the accumulated penetration impulse of its record, and in each external
    manifold the three friction impulses, the rolling resistance impulse and
    the two friction vectors of its record. *)
Theorem storeImpulses_stores (s : ContactSolverSystem) :
  wellFormed s ->
  NoDup (map CPS.externalContact (mContactPoints s)) ->
  NoDup (map CMS.externalContactManifold (mContactConstraints s)) ->
  let s' := storeImpulses s in
  (forall P, In P (mContactPoints s) ->
     (CPS.externalContact P < List.length (mAllContactPoints s))%nat ->
     get ContactPoint.default (mAllContactPoints s') (CPS.externalContact P) =
     ContactPoint.setPenetrationImpulse (CPS.penetrationImpulse P)
       (get ContactPoint.default (mAllContactPoints s) (CPS.externalContact P))) /\
  (forall M, In M (mContactConstraints s) ->
     (CMS.externalContactManifold M < List.length (mAllContactManifolds s))%nat ->
     get ContactManifold.default (mAllContactManifolds s') (CMS.externalContactManifold M) =
     ContactManifold.store (CMS.friction1Impulse M) (CMS.friction2Impulse M)
       (CMS.frictionTwistImpulse M) (CMS.rollingResistanceImpulse M)
       (CMS.frictionVector1 M) (CMS.frictionVector2 M)
       (get ContactManifold.default (mAllContactManifolds s) (CMS.externalContactManifold M))).
Proof.
  intros H Hp Hm s'. destruct (storeImpulses_writes s H) as (_ & Em & Ep).
  unfold s'. rewrite Em, Ep. split.
  - intros P HP Hr.
    apply (writes_lookup CPS.externalContact
             (fun P => ContactPoint.setPenetrationImpulse (CPS.penetrationImpulse P)));
      assumption.
  - intros M HM Hr.
    apply (writes_lookup CMS.externalContactManifold
             (fun M => ContactManifold.store (CMS.friction1Impulse M) (CMS.friction2Impulse M)
                (CMS.frictionTwistImpulse M) (CMS.rollingResistanceImpulse M)
                (CMS.frictionVector1 M) (CMS.frictionVector2 M)));
      assumption.
Qed.

(** X8.  A second [storeImpulses] in a row changes nothing. *)
Theorem storeImpulses_idempotent (s : ContactSolverSystem) :
  wellFormed s -> storeImpulses (storeImpulses s) = storeImpulses s.
Proof.
  intros H. pose proof (storeImpulses_wellFormed s H) as H'.
  destruct (storeImpulses_writes s H) as (Hi & Em & Ep).
  destruct (storeImpulses_writes _ H') as (Hi' & Em' & Ep').
  assert (Hc : mContactConstraints (storeImpulses s) = mContactConstraints s)
    by (unfold internalState in Hi; congruence).
  assert (Hq : mContactPoints (storeImpulses s) = mContactPoints s)
    by (unfold internalState in Hi; congruence).
  apply state_eq.
  - exact Hi'.
  - rewrite Em', Hc, Em.
    apply (writes_idempotent CMS.externalContactManifold
             (fun M => ContactManifold.store (CMS.friction1Impulse M) (CMS.friction2Impulse M)
                (CMS.frictionTwistImpulse M) (CMS.rollingResistanceImpulse M)
                (CMS.frictionVector1 M) (CMS.frictionVector2 M))).
    reflexivity.
  - rewrite Ep', Hq, Ep.
    apply (writes_idempotent CPS.externalContact
             (fun P => ContactPoint.setPenetrationImpulse (CPS.penetrationImpulse P))).
    reflexivity.
Qed.

(** X9.  The layout of the solver arrays that [init] establishes is kept by
    every later phase: after any sequence of [warmStart], [solve] and
    [storeImpulses], there is one manifold record per counted manifold and the
    contact-point records are those of the manifolds, one manifold after the
    other. *)
Theorem phases_keep_layout (eps : R) (g : Vector3 -> Vector3)
  (clamp : Vector3 -> R -> Vector3)
  (contactManifolds : list ContactManifold.t) (contactPoints : list ContactPoint.t)
  (timeStep : R) (s0 : ContactSolverSystem) (phases : list Phase) :
  wellFormed (runPhases clamp phases (init eps g contactManifolds contactPoints timeStep s0)).
Proof.
  pose proof (init_wellFormed eps g contactManifolds contactPoints timeStep s0) as H.
  revert H. generalize (init eps g contactManifolds contactPoints timeStep s0) as s.
  unfold runPhases. induction phases as [|p phases IH]; intros s H; [exact H|].
  cbn [fold_left]. apply IH. destruct p; cbn [runPhase].
  - now apply warmStart_wellFormed.
  - now apply solve_wellFormed.
  - now apply storeImpulses_wellFormed.
Qed.

Lemma storeImpulses_frame_witness :
  let s := init epsilonFloat unitOrthogonalVector oneManifold slidingPoints (1 / 60)
             slidingSolver in
  wellFormed s /\
  internalState (storeImpulses s) = internalState s /\
  map withoutImpulse (mAllContactPoints (storeImpulses s)) =
    map withoutImpulse (mAllContactPoints s) /\
  map withoutStored (mAllContactManifolds (storeImpulses s)) =
    map withoutStored (mAllContactManifolds s).
Proof.
  intros s.
  assert (H : wellFormed s) by apply init_wellFormed.
  split; [exact H|]. exact (storeImpulses_frame s H).
Defined.

Lemma storeImpulses_stores_witness :
  let s := init epsilonFloat unitOrthogonalVector oneManifold slidingPoints (1 / 60)
             slidingSolver in
  wellFormed s /\
  NoDup (map CPS.externalContact (mContactPoints s)) /\
  NoDup (map CMS.externalContactManifold (mContactConstraints s)) /\
  (forall P, In P (mContactPoints s) ->
     (CPS.externalContact P < List.length (mAllContactPoints s))%nat ->
     get ContactPoint.default (mAllContactPoints (storeImpulses s)) (CPS.externalContact P) =
     ContactPoint.setPenetrationImpulse (CPS.penetrationImpulse P)
       (get ContactPoint.default (mAllContactPoints s) (CPS.externalContact P))).
Proof.
  intros s.
  assert (H : wellFormed s) by apply init_wellFormed.
  assert (Hp : NoDup (map CPS.externalContact (mContactPoints s))).
  { replace (map CPS.externalContact (mContactPoints s)) with [0%nat]
      by (lazy; reflexivity).
    constructor; [intros []|constructor]. }
  assert (Hm : NoDup (map CMS.externalContactManifold (mContactConstraints s))).
  { replace (map CMS.externalContactManifold (mContactConstraints s)) with [0%nat]
      by (lazy; reflexivity).
    constructor; [intros []|constructor]. }
  split; [exact H|]. split; [exact Hp|]. split; [exact Hm|].
  exact (proj1 (storeImpulses_stores s H Hp Hm)).
Defined.

Lemma storeImpulses_idempotent_witness :
  let s := init epsilonFloat unitOrthogonalVector oneManifold slidingPoints (1 / 60)
             slidingSolver in
  wellFormed s /\ storeImpulses (storeImpulses s) = storeImpulses s.
Proof.
  intros s.
  assert (H : wellFormed s) by apply init_wellFormed.
  split; [exact H|]. exact (storeImpulses_idempotent s H).
Defined.

(** ** The records that [init] builds *)

(** What [warmStart] does to one contact-point record of well-formed
    arrays. *)
Lemma warmStart_point (s : ContactSolverSystem) (i : nat) :
  wellFormed s -> (i < List.length (mContactPoints s))%nat ->
  point (warmStart s) i =
  if CPS.isRestingContact (point s i) then point s i
  else CPS.set_penetrationImpulse 0 (point s i).
Proof.
  intros Hwf Hi.
  destruct (warmStart_post s Hwf) as (_ & Hst & _ & Hpost).
  destruct Hwf as [Hnb Hpts].
  destruct (point_in_manifold s (mNbContactManifolds s) i) as (c & Hc & Hr); [lia | lia |].
  destruct (Hpost c Hc) as (Hmap & _).
  rewrite (pointsOfManifold_static _ _ c Hst) in Hmap.
  set (first := firstPoint s c) in *. set (nb := CMS.nbContacts (constraint s c)) in *.
  assert (Hj : (i - first < nb)%nat) by lia.
  assert (H1 := manifoldPoints_nth (warmStart s) first nb (i - first) Hj).
  assert (H2 := manifoldPoints_nth s first nb (i - first) Hj).
  replace (first + (i - first))%nat with i in H1, H2 by lia.
  rewrite <- H1, Hmap. unfold pointsOfManifold. fold first. fold nb.
  set (F := fun P => if CPS.isRestingContact P then P else CPS.set_penetrationImpulse 0 P).
  rewrite nth_indep with (d' := F CPS.default)
    by (rewrite length_map; unfold manifoldPoints;
        rewrite length_map, length_seq; exact Hj).
  rewrite map_nth, H2. reflexivity.
Qed.

(** What [warmStart] does to the rolling resistance impulse of a manifold
    record: it keeps it or resets it. *)
Lemma warmStart_rolling (s : ContactSolverSystem) (c : nat) :
  wellFormed s -> (c < mNbContactManifolds s)%nat ->
  CMS.rollingResistanceImpulse (constraint (warmStart s) c) =
    CMS.rollingResistanceImpulse (constraint s c) \/
  CMS.rollingResistanceImpulse (constraint (warmStart s) c) = Vec.zero.
Proof.
  intros Hwf Hc. destruct (warmStart_post s Hwf) as (_ & _ & _ & Hpost).
  destruct (Hpost c Hc) as (_ & Hrest & Hnew).
  destruct (existsb CPS.isRestingContact (pointsOfManifold s c)).
  - left. rewrite (Hrest eq_refl). reflexivity.
  - right. rewrite (Hnew eq_refl). reflexivity.
Qed.

Lemma init_cases (eps : R) (g : Vector3 -> Vector3)
  (contactManifolds : list ContactManifold.t) (contactPoints : list ContactPoint.t)
  (timeStep : R) (s : ContactSolverSystem) :
  let s0 := initReset contactManifolds contactPoints timeStep s in
  init eps g contactManifolds contactPoints timeStep s =
  if ((List.length contactManifolds =? 0)%nat || (List.length contactPoints =? 0)%nat)%bool
  then s0
  else warmStart
         (for_loop 0 (Islands.getNbIslands (mIslands s0))
            (fun i t =>
               if (0 <? get 0%nat (Islands.nbContactManifolds (mIslands t)) i)%nat
               then initializeForIsland eps g i t else t) s0).
Proof. reflexivity. Qed.

Section InitRule.

Variable MACHINE_EPSILON : R.
Variable getOneUnitOrthogonalVector : Vector3 -> Vector3.

(** An invariant of the construction: kept when a contact-point record is
    appended and its external contact point flagged, and when the manifold
    record is appended. *)
Variable J : ContactSolverSystem -> Prop.

Hypothesis J_point : forall M c b,
  J (build_solver b) -> J (build_solver (initContactPoint M c b)).

Hypothesis J_manifold : forall m b,
  let s := build_solver b in
  J s ->
  J (set_mNbContactManifolds (Datatypes.S (mNbContactManifolds s))
       (set_mContactConstraints
          (mContactConstraints s ++
           [newContactManifoldSolver MACHINE_EPSILON getOneUnitOrthogonalVector s m b]) s)).

Lemma initManifold_keeps (m : nat) (s : ContactSolverSystem) :
  J s -> J (initManifold MACHINE_EPSILON getOneUnitOrthogonalVector m s).
Proof.
  intros H. unfold initManifold. cbv zeta.
  set (ext := get ContactManifold.default (mAllContactManifolds s) m).
  assert (Hb : forall n start,
             J (build_solver (for_loop start n (initContactPoint ext)
                                (mkManifoldBuild s Vec.zero Vec.zero Vec.zero)))).
  { induction n as [|n IH]; intros start; [exact H|].
    rewrite for_loop_succ. apply J_point. apply IH. }
  apply (J_manifold m). apply Hb.
Qed.

Lemma initializeForIsland_keeps (i : nat) (s : ContactSolverSystem) :
  J s -> J (initializeForIsland MACHINE_EPSILON getOneUnitOrthogonalVector i s).
Proof.
  intros H. unfold initializeForIsland. cbv zeta.
  generalize (get 0%nat (Islands.contactManifoldsIndices (mIslands s)) i) as start.
  generalize (get 0%nat (Islands.nbContactManifolds (mIslands s)) i) as n.
  intros n start. induction n as [|n IH]; [exact H|].
  rewrite for_loop_succ. apply initManifold_keeps. exact IH.
Qed.

(** A property holds after [init] if it holds after the early return and
    after [warmStart] on any well-formed arrays that satisfy the invariant of
    the construction. *)
Lemma init_rule (Q : ContactSolverSystem -> Prop)
  (contactManifolds : list ContactManifold.t) (contactPoints : list ContactPoint.t)
  (timeStep : R) (s : ContactSolverSystem) :
  let s0 := initReset contactManifolds contactPoints timeStep s in
  J s0 -> Q s0 ->
  (forall t, J t -> wellFormed t -> Q (warmStart t)) ->
  Q (init MACHINE_EPSILON getOneUnitOrthogonalVector contactManifolds contactPoints
       timeStep s).
Proof.
  intros s0 HJ HQ Hw. rewrite init_cases. fold s0.
  destruct (_ || _)%bool; [exact HQ|].
  set (s1 := for_loop _ _ _ s0).
  assert (H1 : J s1 /\ builtArrays (fun _ => True) s1).
  { unfold s1. generalize (Islands.getNbIslands (mIslands s0)) as n.
    induction n as [|n IH].
    - split; [exact HJ|]. unfold builtArrays, s0, initReset; cbn. repeat split; constructor.
    - rewrite for_loop_succ. simpl Nat.add. destruct IH as [IH1 IH2].
      destruct (_ <? _)%nat; [|split; assumption]. split.
      + now apply initializeForIsland_keeps.
      + apply initializeForIsland_built; [intros; exact I | exact IH2]. }
  destruct H1 as [H1 H2]. apply Hw; [exact H1|].
  destruct H2 as (B1 & B2 & _). split; [exact B1|]. unfold firstPoint. now rewrite B1.
Qed.

End InitRule.

Lemma initContactPoint_state (M : ContactManifold.t) (c : nat) (b : ManifoldBuild) :
  let s := build_solver b in
  let s' := build_solver (initContactPoint M c b) in
  mContactConstraints s' = mContactConstraints s /\
  mContactPoints s' = mContactPoints s ++ [newContactPointSolver s M c] /\
  mAllContactPoints s' =
    update c (ContactPoint.setIsRestingContact true) (mAllContactPoints s) /\
  mAllContactManifolds s' = mAllContactManifolds s /\
  mRigidBodyComponents s' = mRigidBodyComponents s /\
  mWorld s' = mWorld s /\ mIslands s' = mIslands s /\ mTimeStep s' = mTimeStep s /\
  mIsSplitImpulseActive s' = mIsSplitImpulseActive s /\
  mRestitutionVelocityThreshold s' = mRestitutionVelocityThreshold s.
Proof. cbv zeta. unfold initContactPoint. cbn. repeat split. Qed.

Lemma flagged_update (c : nat) (l : list ContactPoint.t) :
  flagged (update c (ContactPoint.setIsRestingContact true) l) = flagged l.
Proof. apply map_update_invariant. reflexivity. Qed.

(** X10.  [init] takes the two external lists and the time step, flags
    external contact points as resting and otherwise leaves the engine's data
    alone: the external manifolds are as passed, the external contact points
    are as passed up to their resting flag, and the body store keeps every
    column but the two constrained velocity columns (which [warmStart]
    writes). *)
Theorem init_frame (eps : R) (g : Vector3 -> Vector3)
  (contactManifolds : list ContactManifold.t) (contactPoints : list ContactPoint.t)
  (timeStep : R) (s0 : ContactSolverSystem) :
  let s := init eps g contactManifolds contactPoints timeStep s0 in
  mTimeStep s = timeStep /\
  mAllContactManifolds s = contactManifolds /\
  flagged (mAllContactPoints s) = flagged contactPoints /\
  bodyFrame s = bodyFrame s0 /\
  mIslands s = mIslands s0 /\ mWorld s = mWorld s0 /\
  mIsSplitImpulseActive s = mIsSplitImpulseActive s0 /\
  mRestitutionVelocityThreshold s = mRestitutionVelocityThreshold s0.
Proof.
  cbv zeta.
  set (Q := fun s =>
              mTimeStep s = timeStep /\
              mAllContactManifolds s = contactManifolds /\
              flagged (mAllContactPoints s) = flagged contactPoints /\
              bodyFrame s = bodyFrame s0 /\
              mIslands s = mIslands s0 /\ mWorld s = mWorld s0 /\
              mIsSplitImpulseActive s = mIsSplitImpulseActive s0 /\
              mRestitutionVelocityThreshold s = mRestitutionVelocityThreshold s0).
  apply (init_rule eps g Q) with (Q := Q).
  - intros M c b (H1 & H2 & H3 & H4 & H5 & H6 & H7 & H8).
    destruct (initContactPoint_state M c b)
      as (_ & _ & E3 & E4 & E5 & E6 & E7 & E8 & E9 & E10).
    cbv zeta in *. unfold Q, bodyFrame in *.
    rewrite E3, E4, E5, E6, E7, E8, E9, E10, flagged_update.
    repeat split; assumption.
  - intros m b. cbv zeta. intros H. exact H.
  - unfold Q, initReset. cbn. repeat split.
  - unfold Q, initReset. cbn. repeat split.
  - intros t (H1 & H2 & H3 & H4 & H5 & H6 & H7 & H8) _.
    destruct (warmStart_unchanged t) as (F1 & F2 & _).
    unfold solverFrame in F1. injection F1; intros.
    unfold Q. rewrite F2. repeat split; congruence.
Qed.

Lemma Forall_get {A : Type} (Q : A -> Prop) (d : A) (l : list A) (i : nat) :
  Forall Q l -> Q d -> Q (get d l i).
Proof.
  intros Hl Hd. unfold get.
  destruct (Nat.lt_ge_cases i (List.length l)) as [Hlt|Hge].
  - rewrite Forall_forall in Hl. apply Hl. now apply nth_In.
  - now rewrite nth_overflow.
Qed.

Lemma inverseMass_nonneg (k : R) : 0 <= inverseMass k.
Proof.
  unfold inverseMass. destruct (Rgtb k 0) eqn:Hb; [|lra].
  apply Rltb_spec in Hb. apply Rlt_le. unfold Rdiv. rewrite Rmult_1_l.
  now apply Rinv_0_lt_compat.
Qed.

Lemma constraint_out_of_range (s : ContactSolverSystem) (c : nat) :
  (List.length (mContactConstraints s) <= c)%nat -> constraint s c = CMS.default.
Proof. intros H. unfold constraint, get. now rewrite nth_overflow. Qed.

Lemma point_out_of_range (s : ContactSolverSystem) (i : nat) :
  (List.length (mContactPoints s) <= i)%nat -> point s i = CPS.default.
Proof. intros H. unfold point, get. now rewrite nth_overflow. Qed.

(** X11.  The rolling resistance impulse that [storeImpulses] writes to the
    external manifold is never read back: after [init], the accumulated
    rolling resistance impulse of every manifold record is the zero vector,
    whatever the external manifolds hold. *)
Theorem init_rolling_resistance_impulse_zero (eps : R) (g : Vector3 -> Vector3)
  (contactManifolds : list ContactManifold.t) (contactPoints : list ContactPoint.t)
  (timeStep : R) (s0 : ContactSolverSystem) (c : nat) :
  CMS.rollingResistanceImpulse
    (constraint (init eps g contactManifolds contactPoints timeStep s0) c) = Vec.zero.
Proof.
  set (J := fun s => Forall (fun M => CMS.rollingResistanceImpulse M = Vec.zero)
                            (mContactConstraints s)).
  apply (init_rule eps g J)
    with (Q := fun s => CMS.rollingResistanceImpulse (constraint s c) = Vec.zero).
  - intros M k b H. destruct (initContactPoint_state M k b) as (E1 & _).
    cbv zeta in E1. unfold J. now rewrite E1.
  - intros m b. cbv zeta. intros H. unfold J in *.
    cbn [mContactConstraints set_mNbContactManifolds set_mContactConstraints].
    apply Forall_app. split; [exact H|]. constructor; [|constructor].
    unfold newContactManifoldSolver. cbv zeta.
    destruct (computeFrictionVectors _ _ _ _) as [f1 f2]. reflexivity.
  - unfold J, initReset. cbn. constructor.
  - rewrite constraint_out_of_range; [reflexivity | cbn; lia].
  - intros t Ht Hwf.
    destruct (Nat.lt_ge_cases c (mNbContactManifolds t)) as [Hlt|Hge].
    + destruct (warmStart_rolling t c Hwf Hlt) as [E|E]; [|exact E].
      rewrite E.
      apply (Forall_get (fun M => CMS.rollingResistanceImpulse M = Vec.zero) CMS.default
               (mContactConstraints t) c); [exact Ht | reflexivity].
    + rewrite constraint_out_of_range; [reflexivity|].
      destruct (warmStart_unchanged t) as (_ & _ & _ & F4).
      rewrite (length_static _ _ F4). destruct Hwf as [Hn _]. lia.
Qed.

(** X12.  After [init], the inverse effective masses of the records are not
    negative (each is [0] or the reciprocal of a positive effective mass), the
    mixed friction coefficient is not negative, and the accumulated split
    impulse of every contact point is [0]. *)
Theorem init_inverse_masses_nonneg (eps : R) (g : Vector3 -> Vector3)
  (contactManifolds : list ContactManifold.t) (contactPoints : list ContactPoint.t)
  (timeStep : R) (s0 : ContactSolverSystem) (c i : nat) :
  let s := init eps g contactManifolds contactPoints timeStep s0 in
  let M := constraint s c in
  let P := point s i in
  0 <= CMS.inverseFriction1Mass M /\ 0 <= CMS.inverseFriction2Mass M /\
  0 <= CMS.inverseTwistFrictionMass M /\ 0 <= CMS.frictionCoefficient M /\
  0 <= CPS.inversePenetrationMass P /\ CPS.penetrationSplitImpulse P = 0.
Proof.
  cbv zeta.
  set (Qm := fun M => 0 <= CMS.inverseFriction1Mass M /\ 0 <= CMS.inverseFriction2Mass M /\
                      0 <= CMS.inverseTwistFrictionMass M /\ 0 <= CMS.frictionCoefficient M).
  set (Qp := fun P => 0 <= CPS.inversePenetrationMass P /\ CPS.penetrationSplitImpulse P = 0).
  set (J := fun s => Forall Qm (mContactConstraints s) /\ Forall Qp (mContactPoints s)).
  assert (Hdm : Qm CMS.default) by (unfold Qm; cbn; lra).
  assert (Hdp : Qp CPS.default) by (unfold Qp; cbn; split; [lra | reflexivity]).
  enough (H : Qm (constraint (init eps g contactManifolds contactPoints timeStep s0) c) /\
              Qp (point (init eps g contactManifolds contactPoints timeStep s0) i)).
  { destruct H as ((A1 & A2 & A3 & A4) & A5 & A6). repeat split; assumption. }
  apply (init_rule eps g J) with (Q := fun s => Qm (constraint s c) /\ Qp (point s i)).
  - intros M k b [H1 H2]. destruct (initContactPoint_state M k b) as (E1 & E2 & _).
    cbv zeta in E1, E2. unfold J. rewrite E1, E2. split; [exact H1|].
    apply Forall_app. split; [exact H2|]. constructor; [|constructor].
    split; [apply inverseMass_nonneg | reflexivity].
  - intros m b. cbv zeta. intros [H1 H2]. unfold J in *.
    cbn [mContactConstraints mContactPoints set_mNbContactManifolds set_mContactConstraints].
    split; [|exact H2].
    apply Forall_app. split; [exact H1|]. constructor; [|constructor].
    unfold Qm, newContactManifoldSolver. cbv zeta.
    destruct (computeFrictionVectors _ _ _ _) as [f1 f2].
    cbn [CMS.inverseFriction1Mass CMS.inverseFriction2Mass CMS.inverseTwistFrictionMass
         CMS.frictionCoefficient].
    repeat split; try apply inverseMass_nonneg. apply sqrt_pos.
  - unfold J, initReset. cbn. split; constructor.
  - rewrite constraint_out_of_range, point_out_of_range by (cbn; lia).
    split; assumption.
  - intros t [H1 H2] Hwf. split.
    + destruct (warmStart_unchanged t) as (_ & _ & _ & F4).
      pose proof (constraint_static t (warmStart t) c F4) as E.
      assert (Hc : Qm (constraint t c))
        by (apply (Forall_get Qm CMS.default (mContactConstraints t) c); assumption).
      unfold Qm in *.
      change (0 <= CMS.inverseFriction1Mass (staticManifold (constraint (warmStart t) c)) /\
              0 <= CMS.inverseFriction2Mass (staticManifold (constraint (warmStart t) c)) /\
              0 <= CMS.inverseTwistFrictionMass (staticManifold (constraint (warmStart t) c)) /\
              0 <= CMS.frictionCoefficient (staticManifold (constraint (warmStart t) c))).
      rewrite E. exact Hc.
    + assert (Hp : Qp (point t i))
        by (apply (Forall_get Qp CPS.default (mContactPoints t) i); assumption).
      destruct (Nat.lt_ge_cases i (List.length (mContactPoints t))) as [Hlt|Hge].
      * rewrite (warmStart_point t i Hwf Hlt).
        destruct (CPS.isRestingContact (point t i)); exact Hp.
      * rewrite point_out_of_range; [exact Hdp|].
        destruct (warmStart_unchanged t) as (_ & _ & F3 & _).
        apply (f_equal (@List.length _)) in F3. rewrite !length_map in F3. lia.
Qed.

(** The contact-point records after [init], against the external contact
    points as they were passed. *)
Lemma init_point_records (eps : R) (g : Vector3 -> Vector3)
  (contactManifolds : list ContactManifold.t) (contactPoints : list ContactPoint.t)
  (timeStep : R) (s0 : ContactSolverSystem) (i : nat) :
  let s := init eps g contactManifolds contactPoints timeStep s0 in
  let P := point s i in
  let e := CPS.externalContact P in
  let ext := get ContactPoint.default contactPoints e in
  (i < List.length (mContactPoints s))%nat ->
  CPS.normal P = ContactPoint.getNormal ext /\
  CPS.penetrationDepth P = ContactPoint.getPenetrationDepth ext /\
  CPS.penetrationImpulse P =
    (if CPS.isRestingContact P then ContactPoint.getPenetrationImpulse ext else 0) /\
  ((e < List.length contactPoints)%nat ->
   ContactPoint.getIsRestingContact (get ContactPoint.default (mAllContactPoints s) e) = true) /\
  (ContactPoint.getIsRestingContact ext = true -> CPS.isRestingContact P = true).
Proof.
  cbv zeta.
  set (Qp := fun (l : list ContactPoint.t) (warm : bool) (P : CPS.t) =>
    let e := CPS.externalContact P in
    let ext := get ContactPoint.default contactPoints e in
    CPS.normal P = ContactPoint.getNormal ext /\
    CPS.penetrationDepth P = ContactPoint.getPenetrationDepth ext /\
    CPS.penetrationImpulse P =
      (if warm || CPS.isRestingContact P then ContactPoint.getPenetrationImpulse ext else 0) /\
    ((e < List.length contactPoints)%nat ->
     ContactPoint.getIsRestingContact (get ContactPoint.default l e) = true) /\
    (ContactPoint.getIsRestingContact ext = true -> CPS.isRestingContact P = true)).
  set (J := fun s => flagged (mAllContactPoints s) = flagged contactPoints /\
                     (forall j, ContactPoint.getIsRestingContact
                                  (get ContactPoint.default contactPoints j) = true ->
                                ContactPoint.getIsRestingContact
                                  (get ContactPoint.default (mAllContactPoints s) j) = true) /\
                     Forall (Qp (mAllContactPoints s) true) (mContactPoints s)).
  apply (init_rule eps g J)
    with (Q := fun s => (i < List.length (mContactPoints s))%nat ->
                        Qp (mAllContactPoints s) false (point s i)).
  - intros M k b (H1 & Hmono & H2).
    destruct (initContactPoint_state M k b) as (_ & E2 & E3 & _).
    cbv zeta in E2, E3. unfold J. rewrite E2, E3, flagged_update. split; [exact H1|].
    assert (Hmono' : forall j,
              ContactPoint.getIsRestingContact (get ContactPoint.default contactPoints j) = true ->
              ContactPoint.getIsRestingContact
                (get ContactPoint.default
                   (update k (ContactPoint.setIsRestingContact true)
                      (mAllContactPoints (build_solver b))) j) = true).
    { intros j Hj. destruct (Nat.eq_dec k j) as [->|Hne].
      - destruct (Nat.lt_ge_cases j (List.length (mAllContactPoints (build_solver b))))
          as [Hlt|Hge].
        + rewrite get_update_same by exact Hlt. reflexivity.
        + rewrite update_out_of_range by exact Hge. now apply Hmono.
      - rewrite get_update_other by exact Hne. now apply Hmono. }
    split; [exact Hmono'|].
    assert (Hlen : List.length (mAllContactPoints (build_solver b)) =
                   List.length contactPoints).
    { apply (f_equal (@List.length _)) in H1. unfold flagged in H1.
      now rewrite !length_map in H1. }
    assert (Hget : forall j,
              ContactPoint.setIsRestingContact true
                (get ContactPoint.default (mAllContactPoints (build_solver b)) j) =
              ContactPoint.setIsRestingContact true
                (get ContactPoint.default contactPoints j)).
    { intros j. unfold flagged in H1.
      rewrite <- !(get_map (ContactPoint.setIsRestingContact true)). now rewrite H1. }
    apply Forall_app. split.
    + eapply Forall_impl; [|exact H2]. intros P (A1 & A2 & A3 & A4 & A5).
      unfold Qp. cbv zeta. repeat split; try assumption.
      intros He. destruct (Nat.eq_dec k (CPS.externalContact P)) as [->|Hne].
      * rewrite get_update_same by lia. reflexivity.
      * rewrite get_update_other by exact Hne. now apply A4.
    + constructor; [|constructor]. unfold Qp. cbv zeta.
      change (CPS.externalContact (newContactPointSolver (build_solver b) M k)) with k.
      change (CPS.normal (newContactPointSolver (build_solver b) M k))
        with (ContactPoint.getNormal
                (ContactPoint.setIsRestingContact true
                   (get ContactPoint.default (mAllContactPoints (build_solver b)) k))).
      change (CPS.penetrationDepth (newContactPointSolver (build_solver b) M k))
        with (ContactPoint.getPenetrationDepth
                (ContactPoint.setIsRestingContact true
                   (get ContactPoint.default (mAllContactPoints (build_solver b)) k))).
      change (CPS.penetrationImpulse (newContactPointSolver (build_solver b) M k))
        with (ContactPoint.getPenetrationImpulse
                (ContactPoint.setIsRestingContact true
                   (get ContactPoint.default (mAllContactPoints (build_solver b)) k))).
      change (CPS.isRestingContact (newContactPointSolver (build_solver b) M k))
        with (ContactPoint.getIsRestingContact
                (get ContactPoint.default (mAllContactPoints (build_solver b)) k)).
      rewrite Hget. cbn [orb]. repeat split.
      * intros He. rewrite get_update_same by lia. reflexivity.
      * apply Hmono.
  - intros m b. cbv zeta. intros H. exact H.
  - unfold J, initReset. cbn. split; [reflexivity|]. split; [auto | constructor].
  - unfold initReset. cbn. intros H. lia.
  - intros t (H1 & _ & H2) Hwf Hi.
    destruct (warmStart_unchanged t) as (F1 & _ & F3 & _).
    assert (Hext : mAllContactPoints (warmStart t) = mAllContactPoints t)
      by (unfold solverFrame in F1; congruence).
    assert (Hlt : (i < List.length (mContactPoints t))%nat).
    { apply (f_equal (@List.length _)) in F3. rewrite !length_map in F3. lia. }
    rewrite Hext, (warmStart_point t i Hwf Hlt).
    assert (HP : Qp (mAllContactPoints t) true (point t i)).
    { rewrite Forall_forall in H2. apply H2. unfold point, get. now apply nth_In. }
    destruct HP as (A1 & A2 & A3 & A4 & A5). cbn [orb] in A3.
    unfold Qp. cbv zeta.
    destruct (CPS.isRestingContact (point t i)) eqn:Hr.
    + rewrite Hr. cbn [orb]. repeat split; assumption.
    + change (CPS.isRestingContact (CPS.set_penetrationImpulse 0 (point t i)))
        with (CPS.isRestingContact (point t i)).
      rewrite Hr. cbn [orb]. repeat split; assumption.
Qed.

(** X13.  After [init], every contact-point record carries the normal and the
    penetration depth of the external contact point it points to, starts from
    the impulse stored in that external contact point if the record is flagged
    as resting and from [0] otherwise, and the external contact point is
    flagged as resting for the next step. *)
Theorem init_contact_point_records (eps : R) (g : Vector3 -> Vector3)
  (contactManifolds : list ContactManifold.t) (contactPoints : list ContactPoint.t)
  (timeStep : R) (s0 : ContactSolverSystem) (i : nat) :
  let s := init eps g contactManifolds contactPoints timeStep s0 in
  let P := point s i in
  let e := CPS.externalContact P in
  let ext := get ContactPoint.default contactPoints e in
  (i < List.length (mContactPoints s))%nat ->
  CPS.normal P = ContactPoint.getNormal ext /\
  CPS.penetrationDepth P = ContactPoint.getPenetrationDepth ext /\
  CPS.penetrationImpulse P =
    (if CPS.isRestingContact P then ContactPoint.getPenetrationImpulse ext else 0) /\
  ((e < List.length contactPoints)%nat ->
   ContactPoint.getIsRestingContact (get ContactPoint.default (mAllContactPoints s) e) = true).
Proof.
  intros s P e ext Hi.
  destruct (init_point_records eps g contactManifolds contactPoints timeStep s0 i Hi)
    as (A1 & A2 & A3 & A4 & _).
  repeat split; assumption.
Qed.

Lemma followsExternal_static (w : World.t) (inverseMasses : list R)
  (ext : ContactManifold.t) (M M' : CMS.t) :
  staticManifold M' = staticManifold M -> CMS.externalContactManifold M' =
  CMS.externalContactManifold M /\
  (followsExternal w inverseMasses ext M -> followsExternal w inverseMasses ext M').
Proof.
  intros H.
  assert (E : forall (A : Type) (p : CMS.t -> A),
            (forall N, p (staticManifold N) = p N) -> p M' = p M).
  { intros A p Hp. rewrite <- (Hp M'), <- (Hp M). now rewrite H. }
  split; [apply E; reflexivity|].
  unfold followsExternal. cbv zeta.
  rewrite (E _ CMS.nbContacts), (E _ CMS.rigidBodyComponentIndexBody1),
    (E _ CMS.rigidBodyComponentIndexBody2), (E _ CMS.massInverseBody1),
    (E _ CMS.massInverseBody2), (E _ CMS.inverseInertiaTensorBody1),
    (E _ CMS.inverseInertiaTensorBody2), (E _ CMS.frictionCoefficient),
    (E _ CMS.rollingResistanceFactor), (E _ CMS.oldFrictionVector1),
    (E _ CMS.oldFrictionVector2) by reflexivity.
  tauto.
Qed.

(** X14.  After [init], every manifold record agrees with the external
    manifold it points to, with the world and with the inverse masses of the
    body store. *)
Theorem init_manifold_records (eps : R) (g : Vector3 -> Vector3)
  (contactManifolds : list ContactManifold.t) (contactPoints : list ContactPoint.t)
  (timeStep : R) (s0 : ContactSolverSystem) (c : nat) :
  let s := init eps g contactManifolds contactPoints timeStep s0 in
  let M := constraint s c in
  (c < mNbContactManifolds s)%nat ->
  followsExternal (mWorld s0) (RBC.mInverseMasses (mRigidBodyComponents s0))
    (get ContactManifold.default contactManifolds (CMS.externalContactManifold M)) M.
Proof.
  cbv zeta.
  set (Qm := fun M => followsExternal (mWorld s0)
                        (RBC.mInverseMasses (mRigidBodyComponents s0))
                        (get ContactManifold.default contactManifolds
                           (CMS.externalContactManifold M)) M).
  set (J := fun s => mAllContactManifolds s = contactManifolds /\
                     mWorld s = mWorld s0 /\
                     mRigidBodyComponents s = mRigidBodyComponents s0 /\
                     Forall Qm (mContactConstraints s)).
  apply (init_rule eps g J)
    with (Q := fun s => (c < mNbContactManifolds s)%nat -> Qm (constraint s c)).
  - intros M k b (H1 & H2 & H3 & H4).
    destruct (initContactPoint_state M k b) as (E1 & _ & _ & E4 & E5 & E6 & _).
    cbv zeta in *. unfold J. rewrite E1, E4, E5, E6. repeat split; assumption.
  - intros m b. cbv zeta. intros (H1 & H2 & H3 & H4). unfold J in *.
    cbn [mContactConstraints mAllContactManifolds mWorld mRigidBodyComponents
         set_mNbContactManifolds set_mContactConstraints].
    repeat (split; [assumption|]).
    apply Forall_app. split; [exact H4|]. constructor; [|constructor].
    unfold Qm, followsExternal, newContactManifoldSolver. cbv zeta.
    destruct (computeFrictionVectors _ _ _ _) as [f1 f2].
    cbn [CMS.externalContactManifold CMS.nbContacts CMS.rigidBodyComponentIndexBody1
         CMS.rigidBodyComponentIndexBody2 CMS.massInverseBody1 CMS.massInverseBody2
         CMS.inverseInertiaTensorBody1 CMS.inverseInertiaTensorBody2
         CMS.frictionCoefficient CMS.rollingResistanceFactor CMS.oldFrictionVector1
         CMS.oldFrictionVector2].
    rewrite H1, H2, H3. repeat split.
  - unfold J, initReset. cbn. repeat split. constructor.
  - unfold initReset. cbn. intros H. lia.
  - intros t (H1 & H2 & H3 & H4) Hwf Hc.
    destruct (warmStart_unchanged t) as (F1 & _ & _ & F4).
    assert (Hn : mNbContactManifolds (warmStart t) = mNbContactManifolds t)
      by (now apply solverFrame_nb).
    assert (HM : Qm (constraint t c)).
    { rewrite Forall_forall in H4. apply H4. unfold constraint, get. apply nth_In.
      destruct Hwf as [Hw _]. lia. }
    destruct (followsExternal_static (mWorld s0)
                (RBC.mInverseMasses (mRigidBodyComponents s0))
                (get ContactManifold.default contactManifolds
                   (CMS.externalContactManifold (constraint t c)))
                (constraint t c) (constraint (warmStart t) c)
                (constraint_static t (warmStart t) c F4)) as [Ee Ef].
    unfold Qm in *. rewrite Ee. apply Ef. exact HM.
Qed.

Lemma init_contact_point_records_witness :
  let s := init epsilonFloat unitOrthogonalVector oneManifold slidingPoints (1 / 60)
             slidingSolver in
  let P := point s 0 in
  let ext := get ContactPoint.default slidingPoints (CPS.externalContact P) in
  (0 < List.length (mContactPoints s))%nat /\
  CPS.penetrationImpulse P =
    (if CPS.isRestingContact P then ContactPoint.getPenetrationImpulse ext else 0).
Proof.
  intros s P ext.
  assert (H : (0 < List.length (mContactPoints s))%nat) by (lazy; lia).
  split; [exact H|].
  exact (proj1 (proj2 (proj2
           (init_contact_point_records epsilonFloat unitOrthogonalVector oneManifold
              slidingPoints (1 / 60) slidingSolver 0 H)))).
Defined.

Lemma init_manifold_records_witness :
  let s := init epsilonFloat unitOrthogonalVector oneManifold slidingPoints (1 / 60)
             slidingSolver in
  let M := constraint s 0 in
  (0 < mNbContactManifolds s)%nat /\
  followsExternal (mWorld slidingSolver)
    (RBC.mInverseMasses (mRigidBodyComponents slidingSolver))
    (get ContactManifold.default oneManifold (CMS.externalContactManifold M)) M.
Proof.
  intros s M.
  assert (H : (0 < mNbContactManifolds s)%nat) by (lazy; lia).
  split; [exact H|].
  exact (init_manifold_records epsilonFloat unitOrthogonalVector oneManifold
           slidingPoints (1 / 60) slidingSolver 0 H).
Defined.

(** ** The impulses of [solve] and the velocity they constrain *)

(** An impulse of magnitude [d] along [t], with the angular responses [a1]
    and [a2] of the two bodies, changes the velocity difference along [t] by
    [d] times the effective mass. *)
Lemma impulse_changes_velocity (v1 w1 v2 w2 r1 r2 t a1 a2 : Vector3) (m1 m2 d : R) :
  Vec.dot (relativeVelocity
             (Vec.sub v1 (Vec.scale m1 (Vec.mulr t d))) (Vec.sub w1 (Vec.mulr a1 d))
             (Vec.add v2 (Vec.scale m2 (Vec.mulr t d))) (Vec.add w2 (Vec.mulr a2 d))
             r1 r2) t =
  Vec.dot (relativeVelocity v1 w1 v2 w2 r1 r2) t +
  d * ((m1 + m2) * Vec.lengthSquare t +
       Vec.dot (Vec.cross a1 r1) t + Vec.dot (Vec.cross a2 r2) t).
Proof.
  unfold relativeVelocity, Vec.dot, Vec.cross, Vec.sub, Vec.add, Vec.scale, Vec.mulr,
    Vec.lengthSquare; simpl. ring.
Qed.

Lemma mulv_mulr (m : Matrix3x3) (a : Vector3) (d : R) :
  Mat.mulv m (Vec.mulr a d) = Vec.mulr (Mat.mulv m a) d.
Proof. apply Vector3_eq; unfold Mat.mulv, Vec.mulr, Vec.dot; simpl; ring. Qed.

Lemma add_mulv_neg (w : Vector3) (m : Matrix3x3) (a : Vector3) (d : R) :
  Vec.add w (Mat.mulv m (Vec.mulr (Vec.neg a) d)) = Vec.sub w (Vec.mulr (Mat.mulv m a) d).
Proof.
  apply Vector3_eq; unfold Mat.mulv, Vec.mulr, Vec.neg, Vec.dot, Vec.add, Vec.sub; simpl; ring.
Qed.

Lemma clampImpulse_inside (v L : R) : - L <= v <= L -> clampImpulse v L = v.
Proof.
  intros [H1 H2]. unfold clampImpulse. rewrite Rmin_left by exact H2.
  now apply Rmax_right.
Qed.

(** The velocity columns after a friction step, with the applied impulse
    written out. *)
Lemma solveFriction_velocities (b : bool) (c : nat) (sum : R) (s : ContactSolverSystem) :
  let M := constraint s c in
  let i1 := CMS.rigidBodyComponentIndexBody1 M in
  let i2 := CMS.rigidBodyComponentIndexBody2 M in
  let t := if b then CMS.frictionVector2 M else CMS.frictionVector1 M in
  let r1CrossT := if b then CMS.r1CrossT2 M else CMS.r1CrossT1 M in
  let r2CrossT := if b then CMS.r2CrossT2 M else CMS.r2CrossT1 M in
  let inverseFrictionMass :=
    if b then CMS.inverseFriction2Mass M else CMS.inverseFriction1Mass M in
  let f := if b then CMS.friction2Impulse M else CMS.friction1Impulse M in
  let d := clampImpulse (f + - frictionJv b c s * inverseFrictionMass)
             (CMS.frictionCoefficient M * sum) - f in
  RBC.mConstrainedLinearVelocities (mRigidBodyComponents (solveFriction b c sum s)) =
    update i2 (fun v => Vec.add v (Vec.scale (CMS.massInverseBody2 M) (Vec.mulr t d)))
      (update i1 (fun v => Vec.sub v (Vec.scale (CMS.massInverseBody1 M) (Vec.mulr t d)))
         (RBC.mConstrainedLinearVelocities (mRigidBodyComponents s))) /\
  RBC.mConstrainedAngularVelocities (mRigidBodyComponents (solveFriction b c sum s)) =
    update i2 (fun v => Vec.add v
                 (Mat.mulv (CMS.inverseInertiaTensorBody2 M) (Vec.mulr r2CrossT d)))
      (update i1 (fun v => Vec.add v
                    (Mat.mulv (CMS.inverseInertiaTensorBody1 M)
                       (Vec.mulr (Vec.neg r1CrossT) d)))
         (RBC.mConstrainedAngularVelocities (mRigidBodyComponents s))).
Proof. cbv zeta. destruct b; split; effect. Qed.

Lemma solveFriction_static (b : bool) (c : nat) (sum : R) (s : ContactSolverSystem) :
  map staticManifold (mContactConstraints (solveFriction b c sum s)) =
  map staticManifold (mContactConstraints s).
Proof.
  destruct b.
  - destruct (solveFriction2_constraints c sum s) as [v ->].
    apply static_update. reflexivity.
  - destruct (solveFriction1_constraints c sum s) as [v ->].
    apply static_update. reflexivity.
Qed.

(** X15.  A friction step whose impulse stays inside the friction limit brings
    the sliding velocity along its friction vector to zero: for a manifold
    record with a unit friction vector and the inverse effective mass that
    [initializeForIsland] computes, and two distinct bodies, [Jv] is [0] after
    the step. *)
Theorem solveFriction_stops_sliding (second : bool) (c : nat) (sum : R)
  (s : ContactSolverSystem) :
  let M := constraint s c in
  let i1 := CMS.rigidBodyComponentIndexBody1 M in
  let i2 := CMS.rigidBodyComponentIndexBody2 M in
  let t := if second then CMS.frictionVector2 M else CMS.frictionVector1 M in
  let r1CrossT := if second then CMS.r1CrossT2 M else CMS.r1CrossT1 M in
  let r2CrossT := if second then CMS.r2CrossT2 M else CMS.r2CrossT1 M in
  let inverseFrictionMass :=
    if second then CMS.inverseFriction2Mass M else CMS.inverseFriction1Mass M in
  let f := if second then CMS.friction2Impulse M else CMS.friction1Impulse M in
  let limit := CMS.frictionCoefficient M * sum in
  let rb := mRigidBodyComponents s in
  i1 <> i2 ->
  (i1 < List.length (RBC.mConstrainedLinearVelocities rb))%nat ->
  (i2 < List.length (RBC.mConstrainedLinearVelocities rb))%nat ->
  (i1 < List.length (RBC.mConstrainedAngularVelocities rb))%nat ->
  (i2 < List.length (RBC.mConstrainedAngularVelocities rb))%nat ->
  Vec.length t = 1 ->
  0 < frictionMass second M ->
  inverseFrictionMass = inverseMass (frictionMass second M) ->
  - limit <= f + - frictionJv second c s * inverseFrictionMass <= limit ->
  frictionJv second c (solveFriction second c sum s) = 0.
Proof.
  intros M i1 i2 t r1CrossT r2CrossT inverseFrictionMass f limit rb
    Hne H1 H2 H3 H4 Ht HK Hinv Hin.
  destruct (solveFriction_velocities second c sum s) as [EL EA].
  cbv zeta in EL, EA.
  fold M i1 i2 in EL, EA. fold t r1CrossT r2CrossT inverseFrictionMass f limit in EL, EA.
  rewrite (clampImpulse_inside _ _ Hin) in EL, EA.
  set (d := f + - frictionJv second c s * inverseFrictionMass - f) in *.
  pose proof (constraint_static s _ c (solveFriction_static second c sum s)) as Hst.
  assert (E : forall (A : Type) (p : CMS.t -> A),
            (forall N, p (staticManifold N) = p N) ->
            p (constraint (solveFriction second c sum s) c) = p M).
  { intros A p Hp. rewrite <- (Hp (constraint _ c)), <- (Hp M). unfold M. now rewrite Hst. }
  assert (Et : (if second
                then CMS.frictionVector2 (constraint (solveFriction second c sum s) c)
                else CMS.frictionVector1 (constraint (solveFriction second c sum s) c)) = t).
  { unfold t. destruct second; apply E; reflexivity. }
  assert (HJ : forall u, frictionJv second c u =
             Vec.dot (relativeVelocity
                        (CLV u (CMS.rigidBodyComponentIndexBody1 (constraint u c)))
                        (CAV u (CMS.rigidBodyComponentIndexBody1 (constraint u c)))
                        (CLV u (CMS.rigidBodyComponentIndexBody2 (constraint u c)))
                        (CAV u (CMS.rigidBodyComponentIndexBody2 (constraint u c)))
                        (CMS.r1Friction (constraint u c)) (CMS.r2Friction (constraint u c)))
                     (if second then CMS.frictionVector2 (constraint u c)
                      else CMS.frictionVector1 (constraint u c))).
  { intros u. unfold frictionJv. cbv zeta. rewrite deltaV_solve_formula. reflexivity. }
  rewrite HJ, Et.
  rewrite (E _ CMS.rigidBodyComponentIndexBody1), (E _ CMS.rigidBodyComponentIndexBody2),
    (E _ CMS.r1Friction), (E _ CMS.r2Friction) by reflexivity.
  fold i1 i2. unfold CLV, CAV. rewrite EL, EA.
  repeat ((rewrite get_update_other by congruence) ||
          (rewrite get_update_same by (rewrite ?update_length; assumption))).
  rewrite add_mulv_neg, mulv_mulr.
  rewrite impulse_changes_velocity.
  apply length_one_iff in Ht. rewrite Ht.
  assert (HJ0 := HJ s). fold M i1 i2 t in HJ0. unfold CLV, CAV in HJ0. rewrite <- HJ0.
  assert (HKe : frictionMass second M =
                CMS.massInverseBody1 M + CMS.massInverseBody2 M +
                Vec.dot (Vec.cross (Mat.mulv (CMS.inverseInertiaTensorBody1 M) r1CrossT)
                           (CMS.r1Friction M)) t +
                Vec.dot (Vec.cross (Mat.mulv (CMS.inverseInertiaTensorBody2 M) r2CrossT)
                           (CMS.r2Friction M)) t) by reflexivity.
  replace ((CMS.massInverseBody1 M + CMS.massInverseBody2 M) * 1 +
           Vec.dot (Vec.cross (Mat.mulv (CMS.inverseInertiaTensorBody1 M) r1CrossT)
                      (CMS.r1Friction M)) t +
           Vec.dot (Vec.cross (Mat.mulv (CMS.inverseInertiaTensorBody2 M) r2CrossT)
                      (CMS.r2Friction M)) t)
    with (frictionMass second M) by (rewrite HKe; ring).
  unfold d. rewrite Hinv, inverseMass_pos by exact HK.
  field. lra.
Qed.

Lemma slidingRecords_frictionMass : frictionMass false slidingManifoldRecord = 2.
Proof.
  unfold frictionMass, slidingManifoldRecord, Vec.dot, Vec.cross, Mat.mulv, identity,
    Mat.zero, Vec.zero; cbn.
  unfold Vec.dot; cbn. lra.
Qed.

Lemma slidingRecords_frictionJv : frictionJv false 0 slidingRecords = 4.
Proof.
  unfold frictionJv, deltaV_solve, CLV, CAV, constraint, get, slidingRecords,
    slidingManifoldRecord, Vec.zero; cbn. lra.
Qed.

Lemma solveFriction_stops_sliding_witness :
  let s := slidingRecords in
  let M := constraint s 0 in
  let i1 := CMS.rigidBodyComponentIndexBody1 M in
  let i2 := CMS.rigidBodyComponentIndexBody2 M in
  let rb := mRigidBodyComponents s in
  i1 <> i2 /\
  (i1 < List.length (RBC.mConstrainedLinearVelocities rb))%nat /\
  (i2 < List.length (RBC.mConstrainedLinearVelocities rb))%nat /\
  (i1 < List.length (RBC.mConstrainedAngularVelocities rb))%nat /\
  (i2 < List.length (RBC.mConstrainedAngularVelocities rb))%nat /\
  Vec.length (CMS.frictionVector1 M) = 1 /\
  0 < frictionMass false M /\
  CMS.inverseFriction1Mass M = inverseMass (frictionMass false M) /\
  - (CMS.frictionCoefficient M * 8) <=
    CMS.friction1Impulse M + - frictionJv false 0 s * CMS.inverseFriction1Mass M <=
    CMS.frictionCoefficient M * 8 /\
  frictionJv false 0 (solveFriction false 0 8 s) = 0.
Proof.
  intros s M i1 i2 rb.
  assert (H0 : i1 <> i2) by (cbn; lia).
  assert (H1 : (i1 < List.length (RBC.mConstrainedLinearVelocities rb))%nat) by (cbn; lia).
  assert (H2 : (i2 < List.length (RBC.mConstrainedLinearVelocities rb))%nat) by (cbn; lia).
  assert (H3 : (i1 < List.length (RBC.mConstrainedAngularVelocities rb))%nat) by (cbn; lia).
  assert (H4 : (i2 < List.length (RBC.mConstrainedAngularVelocities rb))%nat) by (cbn; lia).
  assert (Ht : Vec.length (CMS.frictionVector1 M) = 1)
    by (apply length_one_iff; unfold Vec.lengthSquare; cbn; lra).
  assert (HK : 0 < frictionMass false M)
    by (change M with slidingManifoldRecord; rewrite slidingRecords_frictionMass; lra).
  assert (Hinv : CMS.inverseFriction1Mass M = inverseMass (frictionMass false M)).
  { change M with slidingManifoldRecord.
    rewrite slidingRecords_frictionMass, inverseMass_pos by lra. cbn. lra. }
  assert (Hin : - (CMS.frictionCoefficient M * 8) <=
                CMS.friction1Impulse M + - frictionJv false 0 s * CMS.inverseFriction1Mass M <=
                CMS.frictionCoefficient M * 8).
  { unfold s. rewrite slidingRecords_frictionJv. cbn. lra. }
  repeat (split; [assumption|]).
  exact (solveFriction_stops_sliding false 0 8 s H0 H1 H2 H3 H4 Ht HK Hinv Hin).
Defined.

(** ** The penetration step between bodies whose axes are all free *)

Lemma penetrationDeltaLambda_bias (beta : R) (c i : nat) (s : ContactSolverSystem) :
  penetrationDeltaLambda beta c i s =
  - (normalJv c i s + penetrationBias beta s (point s i)) *
    CPS.inversePenetrationMass (point s i).
Proof.
  unfold penetrationDeltaLambda, penetrationBias, normalJv. cbv zeta.
  destruct (mIsSplitImpulseActive s); reflexivity.
Qed.

Lemma scaleAxis_ones (j : nat) (v : Vector3) : scaleAxis j ones v = v.
Proof.
  destruct v as [a b c]. unfold scaleAxis, ones.
  destruct j as [|[|j]]; cbn; f_equal; ring.
Qed.

(** The constrained angular velocity column after the penetration step,
    update by update. *)
Lemma solvePenetration_constrainedAngular (beta : R) (c i : nat) (s : ContactSolverSystem) :
  let M := constraint s c in
  let P := point s i in
  let i1 := CMS.rigidBodyComponentIndexBody1 M in
  let i2 := CMS.rigidBodyComponentIndexBody2 M in
  let deltaLambda :=
    Rmax (CPS.penetrationImpulse P + penetrationDeltaLambda beta c i s) 0 -
    CPS.penetrationImpulse P in
  RBC.mConstrainedAngularVelocities (mRigidBodyComponents (solvePenetration beta c i s)) =
  update i1 (scaleAxis 2 (AVF s i1))
    (update i2 (scaleAxis 2 (AVF s i2))
       (update i1 (scaleAxis 1 (AVF s i1))
          (update i2 (scaleAxis 1 (AVF s i2))
             (update i1 (scaleAxis 0 (AVF s i1))
                (update i2 (scaleAxis 0 (AVF s i2))
                   (update i2 (fun v => Vec.add v (Vec.mulr (CPS.i2TimesR2CrossN P) deltaLambda))
                      (update i1 (scaleAxis 2 (AVF s i1))
                         (update i1 (scaleAxis 1 (AVF s i1))
                            (update i1 (scaleAxis 0 (AVF s i1))
                               (update i1 (fun v => Vec.sub v (Vec.mulr (CPS.i1TimesR1CrossN P) deltaLambda))
                                  (RBC.mConstrainedAngularVelocities
                                     (mRigidBodyComponents s)))))))))))).
Proof. cbv zeta. effect. Qed.

(** X16.  Between two distinct bodies whose velocity factors are all 1, a
    penetration step whose accumulated impulse stays positive brings the
    normal velocity to its target: for a contact point with a unit normal and
    the inverse effective mass that [initializeForIsland] computes, [Jv] plus
    the bias of the multiplier is [0] after the step. *)
Theorem solvePenetration_reaches_target (beta : R) (c i : nat) (s : ContactSolverSystem) :
  let M := constraint s c in
  let P := point s i in
  let i1 := CMS.rigidBodyComponentIndexBody1 M in
  let i2 := CMS.rigidBodyComponentIndexBody2 M in
  let rb := mRigidBodyComponents s in
  i1 <> i2 ->
  (i1 < List.length (RBC.mConstrainedLinearVelocities rb))%nat ->
  (i2 < List.length (RBC.mConstrainedLinearVelocities rb))%nat ->
  (i1 < List.length (RBC.mConstrainedAngularVelocities rb))%nat ->
  (i2 < List.length (RBC.mConstrainedAngularVelocities rb))%nat ->
  LVF s i1 = ones -> AVF s i1 = ones -> LVF s i2 = ones -> AVF s i2 = ones ->
  Vec.length (CPS.normal P) = 1 ->
  0 < penetrationMass M P ->
  CPS.inversePenetrationMass P = inverseMass (penetrationMass M P) ->
  0 <= CPS.penetrationImpulse P + penetrationDeltaLambda beta c i s ->
  normalJv c i (solvePenetration beta c i s) + penetrationBias beta s P = 0.
Proof.
  intros M P i1 i2 rb Hne H1 H2 H3 H4 F1 F2 F3 F4 Hn HK Hinv Hpos.
  pose proof (solvePenetration_constrainedLinear beta c i s) as EL.
  pose proof (solvePenetration_constrainedAngular beta c i s) as EA.
  cbv zeta in EL, EA. fold M P i1 i2 in EL, EA.
  rewrite F1, F3 in EL. rewrite F2, F4 in EA.
  rewrite !(update_same _ (scaleAxis _ ones)) in EL, EA by (intros; apply scaleAxis_ones).
  rewrite Rmax_left in EL, EA by exact Hpos.
  set (d := CPS.penetrationImpulse P + penetrationDeltaLambda beta c i s -
            CPS.penetrationImpulse P) in *.
  assert (HM : constraint (solvePenetration beta c i s) c = M)
    by (unfold constraint; now rewrite solvePenetration_constraints).
  assert (HP : staticPoint (point (solvePenetration beta c i s) i) = staticPoint P).
  { unfold P, point. rewrite solvePenetration_points.
    rewrite <- !(get_map staticPoint), map_update_invariant by reflexivity.
    reflexivity. }
  assert (E : forall (A : Type) (p : CPS.t -> A),
            (forall N, p (staticPoint N) = p N) ->
            p (point (solvePenetration beta c i s) i) = p P).
  { intros A p Hp. rewrite <- (Hp (point _ i)), <- (Hp P). now rewrite HP. }
  assert (HJ : forall u, normalJv c i u =
             Vec.dot (relativeVelocity
                        (CLV u (CMS.rigidBodyComponentIndexBody1 (constraint u c)))
                        (CAV u (CMS.rigidBodyComponentIndexBody1 (constraint u c)))
                        (CLV u (CMS.rigidBodyComponentIndexBody2 (constraint u c)))
                        (CAV u (CMS.rigidBodyComponentIndexBody2 (constraint u c)))
                        (CPS.r1 (point u i)) (CPS.r2 (point u i)))
                     (CPS.normal (point u i))).
  { intros u. unfold normalJv. cbv zeta. rewrite deltaV_solve_formula. reflexivity. }
  rewrite HJ, HM.
  rewrite (E _ CPS.r1), (E _ CPS.r2), (E _ CPS.normal) by reflexivity.
  fold i1 i2. unfold CLV, CAV. rewrite EL, EA.
  repeat ((rewrite get_update_other by congruence) ||
          (rewrite get_update_same by (rewrite ?update_length; assumption))).
  rewrite impulse_changes_velocity.
  apply length_one_iff in Hn. rewrite Hn.
  assert (HJ0 := HJ s). fold M P i1 i2 in HJ0. unfold CLV, CAV in HJ0. rewrite <- HJ0.
  replace ((CMS.massInverseBody1 M + CMS.massInverseBody2 M) * 1 +
           Vec.dot (Vec.cross (CPS.i1TimesR1CrossN P) (CPS.r1 P)) (CPS.normal P) +
           Vec.dot (Vec.cross (CPS.i2TimesR2CrossN P) (CPS.r2 P)) (CPS.normal P))
    with (penetrationMass M P) by (unfold penetrationMass; ring).
  unfold d. rewrite penetrationDeltaLambda_bias. fold P.
  rewrite Hinv, inverseMass_pos by exact HK.
  field. lra.
Qed.

Lemma slidingRecords_normalJv : normalJv 0 0 slidingRecords = -1.
Proof.
  unfold normalJv, deltaV_solve, CLV, CAV, constraint, point, get, slidingRecords,
    slidingManifoldRecord, slidingPointRecord, Vec.zero; cbn. lra.
Qed.

Lemma slidingRecords_penetrationMass :
  penetrationMass slidingManifoldRecord slidingPointRecord = 1.
Proof.
  unfold penetrationMass, slidingManifoldRecord, slidingPointRecord, Vec.dot, Vec.cross,
    Vec.zero; cbn. lra.
Qed.

Lemma solvePenetration_reaches_target_witness :
  let s := slidingRecords in
  let M := constraint s 0 in
  let P := point s 0 in
  let i1 := CMS.rigidBodyComponentIndexBody1 M in
  let i2 := CMS.rigidBodyComponentIndexBody2 M in
  let rb := mRigidBodyComponents s in
  i1 <> i2 /\
  (i1 < List.length (RBC.mConstrainedLinearVelocities rb))%nat /\
  (i2 < List.length (RBC.mConstrainedLinearVelocities rb))%nat /\
  (i1 < List.length (RBC.mConstrainedAngularVelocities rb))%nat /\
  (i2 < List.length (RBC.mConstrainedAngularVelocities rb))%nat /\
  LVF s i1 = ones /\ AVF s i1 = ones /\ LVF s i2 = ones /\ AVF s i2 = ones /\
  Vec.length (CPS.normal P) = 1 /\
  0 < penetrationMass M P /\
  CPS.inversePenetrationMass P = inverseMass (penetrationMass M P) /\
  0 <= CPS.penetrationImpulse P + penetrationDeltaLambda BETA_SPLIT_IMPULSE 0 0 s /\
  normalJv 0 0 (solvePenetration BETA_SPLIT_IMPULSE 0 0 s) +
    penetrationBias BETA_SPLIT_IMPULSE s P = 0.
Proof.
  intros s M P i1 i2 rb.
  assert (H0 : i1 <> i2) by (cbn; lia).
  assert (H1 : (i1 < List.length (RBC.mConstrainedLinearVelocities rb))%nat) by (cbn; lia).
  assert (H2 : (i2 < List.length (RBC.mConstrainedLinearVelocities rb))%nat) by (cbn; lia).
  assert (H3 : (i1 < List.length (RBC.mConstrainedAngularVelocities rb))%nat) by (cbn; lia).
  assert (H4 : (i2 < List.length (RBC.mConstrainedAngularVelocities rb))%nat) by (cbn; lia).
  assert (F1 : LVF s i1 = ones) by reflexivity.
  assert (F2 : AVF s i1 = ones) by reflexivity.
  assert (F3 : LVF s i2 = ones) by reflexivity.
  assert (F4 : AVF s i2 = ones) by reflexivity.
  assert (Hn : Vec.length (CPS.normal P) = 1)
    by (apply length_one_iff; unfold Vec.lengthSquare; cbn; lra).
  assert (HK : 0 < penetrationMass M P).
  { change (0 < penetrationMass slidingManifoldRecord slidingPointRecord).
    rewrite slidingRecords_penetrationMass. lra. }
  assert (Hinv : CPS.inversePenetrationMass P = inverseMass (penetrationMass M P)).
  { change (CPS.inversePenetrationMass slidingPointRecord =
            inverseMass (penetrationMass slidingManifoldRecord slidingPointRecord)).
    rewrite slidingRecords_penetrationMass, inverseMass_pos by lra. cbn. lra. }
  assert (Hpos : 0 <= CPS.penetrationImpulse P +
                      penetrationDeltaLambda BETA_SPLIT_IMPULSE 0 0 s).
  { rewrite penetrationDeltaLambda_bias. unfold s.
    rewrite slidingRecords_normalJv. cbn. lra. }
  repeat (split; [assumption|]).
  exact (solvePenetration_reaches_target BETA_SPLIT_IMPULSE 0 0 s
           H0 H1 H2 H3 H4 F1 F2 F3 F4 Hn HK Hinv Hpos).
Defined.

(** ** What [solve] leaves alone, whatever the arrays *)

Lemma solvePoint_static (beta : R) (c : nat) (st : SolveLoop) :
  map staticPoint (mContactPoints (sl_solver (solvePoint beta c st))) =
  map staticPoint (mContactPoints (sl_solver st)).
Proof.
  rewrite solvePoint_solver. cbv zeta.
  destruct (mIsSplitImpulseActive (sl_solver st)).
  - rewrite solveSplit_points, solvePenetration_points.
    now rewrite !map_update_invariant by reflexivity.
  - rewrite solvePenetration_points. now rewrite map_update_invariant by reflexivity.
Qed.

Lemma solveTwist_static (c : nat) (sum : R) (s : ContactSolverSystem) :
  map staticManifold (mContactConstraints (solveTwist c sum s)) =
  map staticManifold (mContactConstraints s).
Proof.
  destruct (solveTwist_constraints c sum s) as [v ->]. apply static_update. reflexivity.
Qed.

Lemma solveRolling_static (clamp : Vector3 -> R -> Vector3) (c : nat) (sum : R)
  (s : ContactSolverSystem) :
  map staticManifold (mContactConstraints (solveRolling clamp c sum s)) =
  map staticManifold (mContactConstraints s).
Proof.
  destruct (Rle_lt_dec (CMS.rollingResistanceFactor (constraint s c)) 0) as [H|H].
  - now rewrite solveRolling_skipped.
  - destruct (solveRolling_constraints clamp c sum s H) as [v ->].
    apply static_update. reflexivity.
Qed.

Lemma solveManifold_static (clamp : Vector3 -> R -> Vector3) (beta : R) (c : nat)
  (s : ContactSolverSystem) (idx : nat) :
  let s' := fst (solveManifold clamp beta c (s, idx)) in
  map staticPoint (mContactPoints s') = map staticPoint (mContactPoints s) /\
  map staticManifold (mContactConstraints s') = map staticManifold (mContactConstraints s).
Proof.
  unfold solveManifold. cbv beta iota zeta. cbn [fst].
  rewrite solveRolling_points, solveTwist_points, !solveFriction_points.
  rewrite solveRolling_static, solveTwist_static, !solveFriction_static.
  generalize (CMS.nbContacts (constraint s c)) as nb.
  induction nb as [|nb IH]; [split; reflexivity|].
  rewrite for_loop_succ, solvePoint_static, solvePoint_constraints. exact IH.
Qed.

(** X17.  [solve] writes the velocity columns and the accumulated impulses of
    the solver records, and nothing else: the time step, the counters, the
    external stores, the centres of mass, inverse masses and velocity factors
    of the body store, and every other field of the solver records are as
    before. *)
Theorem solve_frame (clamp : Vector3 -> R -> Vector3) (s : ContactSolverSystem) :
  solverFrame (solve clamp s) = solverFrame s /\
  map staticPoint (mContactPoints (solve clamp s)) = map staticPoint (mContactPoints s) /\
  map staticManifold (mContactConstraints (solve clamp s)) =
    map staticManifold (mContactConstraints s).
Proof.
  unfold solve. cbv zeta.
  generalize (if mIsSplitImpulseActive s then BETA_SPLIT_IMPULSE else BETA) as beta.
  intros beta. generalize (mNbContactManifolds s) as n.
  induction n as [|n IH]; [repeat split|].
  rewrite for_loop_succ. simpl Nat.add.
  destruct (for_loop 0 n (solveManifold clamp beta) (s, 0%nat)) as [t idx].
  cbn [fst] in IH. destruct IH as (H1 & H2 & H3).
  destruct (solveManifold_static clamp beta n t idx) as (F1 & F2).
  cbv zeta in F1, F2.
  rewrite solveManifold_frame, F1, F2. repeat split; assumption.
Qed.

(** X18.  When the friction limit of an iteration is 0, because the mixed
    friction coefficient of the manifold is 0 or because no contact point of
    the manifold holds a normal impulse after the normal pass, the three
    friction impulses are 0 after [solve]. *)
Theorem solve_frictionless (clamp : Vector3 -> R -> Vector3)
  (s : ContactSolverSystem) (c : nat) :
  wellFormed s ->
  (c < mNbContactManifolds s)%nat ->
  0 <= CMS.frictionCoefficient (constraint s c) ->
  let s' := solve clamp s in
  let M' := constraint s' c in
  CMS.frictionCoefficient (constraint s c) = 0 \/ sumPenetrationImpulse s' c = 0 ->
  CMS.friction1Impulse M' = 0 /\ CMS.friction2Impulse M' = 0 /\
  CMS.frictionTwistImpulse M' = 0.
Proof.
  intros Hwf Hc Hmu s' M' Hzero.
  destruct (solve_post clamp s Hwf) as (_ & _ & _ & Hpost).
  destruct (Hpost c Hc) as (_ & Hfr & _).
  destruct (Hfr Hmu) as (B1 & B2 & B3).
  fold s' in B1, B2, B3. fold M' in B1, B2, B3.
  assert (HL : CMS.frictionCoefficient (constraint s c) *
               sumImpulses (pointsOfManifold s' c) = 0).
  { destruct Hzero as [-> | E]; [ring|].
    unfold sumPenetrationImpulse in E. rewrite E. ring. }
  rewrite HL in B1, B2, B3.
  assert (Z : forall v, Rabs v <= 0 -> v = 0).
  { intros v Hv. pose proof (Rabs_pos v).
    destruct (Req_dec v 0) as [E|E]; [exact E|].
    pose proof (Rabs_pos_lt v E). lra. }
  repeat split; apply Z; assumption.
Qed.

Lemma solve_frictionless_witness :
  let s := init epsilonFloat unitOrthogonalVector oneManifold spinningPoints (1 / 60)
             spinningSolver in
  let s' := solve clampToLength s in
  wellFormed s /\ (0 < mNbContactManifolds s)%nat /\
  0 <= CMS.frictionCoefficient (constraint s 0) /\
  (CMS.frictionCoefficient (constraint s 0) = 0 \/ sumPenetrationImpulse s' 0 = 0) /\
  CMS.friction1Impulse (constraint s' 0) = 0 /\ CMS.friction2Impulse (constraint s' 0) = 0 /\
  CMS.frictionTwistImpulse (constraint s' 0) = 0.
Proof.
  intros s s'.
  assert (Hwf : wellFormed s) by apply init_wellFormed.
  assert (Hc : (0 < mNbContactManifolds s)%nat) by (lazy; lia).
  assert (Hz : CMS.frictionCoefficient (constraint s 0) = 0).
  { replace (CMS.frictionCoefficient (constraint s 0)) with (sqrt (0 * 0))
      by (lazy -[sqrt Rmult]; reflexivity).
    rewrite Rmult_0_l. apply sqrt_0. }
  assert (Hmu : 0 <= CMS.frictionCoefficient (constraint s 0)) by (rewrite Hz; lra).
  split; [exact Hwf|]. split; [exact Hc|]. split; [exact Hmu|].
  split; [left; exact Hz|].
  exact (solve_frictionless clampToLength s 0 Hwf Hc Hmu (or_introl Hz)).
Defined.

(** ** [solve] without split impulse *)

Lemma solveFriction_splitColumns (b : bool) (c : nat) (sum : R) (s : ContactSolverSystem) :
  RBC.mSplitLinearVelocities (mRigidBodyComponents (solveFriction b c sum s)) =
    RBC.mSplitLinearVelocities (mRigidBodyComponents s) /\
  RBC.mSplitAngularVelocities (mRigidBodyComponents (solveFriction b c sum s)) =
    RBC.mSplitAngularVelocities (mRigidBodyComponents s).
Proof. split; effect. Qed.

Lemma solveTwist_splitColumns (c : nat) (sum : R) (s : ContactSolverSystem) :
  RBC.mSplitLinearVelocities (mRigidBodyComponents (solveTwist c sum s)) =
    RBC.mSplitLinearVelocities (mRigidBodyComponents s) /\
  RBC.mSplitAngularVelocities (mRigidBodyComponents (solveTwist c sum s)) =
    RBC.mSplitAngularVelocities (mRigidBodyComponents s).
Proof. split; effect. Qed.

Lemma solveRolling_splitColumns (clamp : Vector3 -> R -> Vector3) (c : nat) (sum : R)
  (s : ContactSolverSystem) :
  RBC.mSplitLinearVelocities (mRigidBodyComponents (solveRolling clamp c sum s)) =
    RBC.mSplitLinearVelocities (mRigidBodyComponents s) /\
  RBC.mSplitAngularVelocities (mRigidBodyComponents (solveRolling clamp c sum s)) =
    RBC.mSplitAngularVelocities (mRigidBodyComponents s).
Proof. unfold solveRolling. destruct (Rgtb _ _); split; effect. Qed.

(** X19.  With split impulse switched off, [solve] leaves the two split
    velocity columns and the accumulated split impulse of every contact point
    untouched. *)
Theorem solve_without_split_impulse (clamp : Vector3 -> R -> Vector3)
  (s : ContactSolverSystem) :
  mIsSplitImpulseActive s = false ->
  RBC.mSplitLinearVelocities (mRigidBodyComponents (solve clamp s)) =
    RBC.mSplitLinearVelocities (mRigidBodyComponents s) /\
  RBC.mSplitAngularVelocities (mRigidBodyComponents (solve clamp s)) =
    RBC.mSplitAngularVelocities (mRigidBodyComponents s) /\
  map CPS.penetrationSplitImpulse (mContactPoints (solve clamp s)) =
    map CPS.penetrationSplitImpulse (mContactPoints s).
Proof.
  intros Hoff. unfold solve. cbv zeta.
  generalize (if mIsSplitImpulseActive s then BETA_SPLIT_IMPULSE else BETA) as beta.
  intros beta.
  set (Q := fun t : ContactSolverSystem =>
              mIsSplitImpulseActive t = false /\
              RBC.mSplitLinearVelocities (mRigidBodyComponents t) =
                RBC.mSplitLinearVelocities (mRigidBodyComponents s) /\
              RBC.mSplitAngularVelocities (mRigidBodyComponents t) =
                RBC.mSplitAngularVelocities (mRigidBodyComponents s) /\
              map CPS.penetrationSplitImpulse (mContactPoints t) =
                map CPS.penetrationSplitImpulse (mContactPoints s)).
  enough (H : forall n, Q (fst (for_loop 0 n (solveManifold clamp beta) (s, 0%nat)))).
  { destruct (H (mNbContactManifolds s)) as (_ & H1 & H2 & H3). repeat split; assumption. }
  induction n as [|n IH]; [unfold Q; repeat split; assumption|].
  rewrite for_loop_succ. simpl Nat.add.
  destruct (for_loop 0 n (solveManifold clamp beta) (s, 0%nat)) as [t idx].
  cbn [fst] in IH.
  unfold solveManifold. cbv beta iota zeta. cbn [fst].
  assert (HP : forall nb, Q (sl_solver (for_loop 0 nb (fun _ => solvePoint beta n)
                                          (mkSolveLoop t idx 0)))).
  { induction nb as [|nb IHnb]; [exact IH|].
    rewrite for_loop_succ.
    set (st := for_loop 0 nb (fun _ => solvePoint beta n) (mkSolveLoop t idx 0)) in *.
    destruct IHnb as (A0 & A1 & A2 & A3).
    unfold Q. rewrite solvePoint_split. split; [exact A0|].
    rewrite solvePoint_solver. cbv zeta. rewrite A0.
    destruct (solvePenetration_splitColumns beta n (sl_contactPointIndex st) (sl_solver st))
      as [E1 E2].
    rewrite E1, E2, solvePenetration_points.
    rewrite map_update_invariant by reflexivity.
    repeat split; assumption. }
  specialize (HP (CMS.nbContacts (constraint t n))).
  set (st := for_loop 0 _ _ _) in *.
  set (sum := sl_sumPenetrationImpulse st).
  destruct HP as (A0 & A1 & A2 & A3).
  unfold Q.
  rewrite solveRolling_split, solveTwist_split, !solveFriction_split.
  rewrite solveRolling_points, solveTwist_points, !solveFriction_points.
  rewrite (proj1 (solveRolling_splitColumns _ _ _ _)),
    (proj2 (solveRolling_splitColumns _ _ _ _)),
    (proj1 (solveTwist_splitColumns _ _ _)), (proj2 (solveTwist_splitColumns _ _ _)),
    !(proj1 (solveFriction_splitColumns _ _ _ _)),
    !(proj2 (solveFriction_splitColumns _ _ _ _)).
  repeat split; assumption.
Qed.

Lemma solve_without_split_impulse_witness :
  let s := mkContactSolverSystem (1 / 60) [slidingManifoldRecord] [slidingPointRecord]
             1%nat 1%nat false 1 oneIsland oneManifold slidingPoints
             (mRigidBodyComponents slidingRecords) slidingWorld in
  mIsSplitImpulseActive s = false /\
  RBC.mSplitLinearVelocities (mRigidBodyComponents (solve clampToLength s)) =
    RBC.mSplitLinearVelocities (mRigidBodyComponents s).
Proof.
  intros s.
  assert (H : mIsSplitImpulseActive s = false) by reflexivity.
  split; [exact H|].
  exact (proj1 (solve_without_split_impulse clampToLength s H)).
Defined.

(** ** [warmStart] on new contacts *)

Lemma warmStartPoint_new (c : nat) (st : WarmStartLoop) :
  Forall (fun P => CPS.isRestingContact P = false) (mContactPoints (ws_solver st)) ->
  mRigidBodyComponents (ws_solver (warmStartPoint c st)) =
    mRigidBodyComponents (ws_solver st) /\
  Forall (fun P => CPS.isRestingContact P = false)
    (mContactPoints (ws_solver (warmStartPoint c st))) /\
  ws_atLeastOneRestingContactPoint (warmStartPoint c st) =
    ws_atLeastOneRestingContactPoint st.
Proof.
  intros H.
  assert (Hr : CPS.isRestingContact (point (ws_solver st) (ws_contactPointIndex st)) = false).
  { apply (Forall_get (fun P => CPS.isRestingContact P = false) CPS.default); auto. }
  unfold warmStartPoint. rewrite Hr. cbn [ws_solver ws_atLeastOneRestingContactPoint].
  split; [reflexivity|]. split; [|reflexivity].
  unfold modPoint. cbn [mContactPoints set_mContactPoints].
  apply Forall_forall. intros P HP.
  apply (In_nth _ _ CPS.default) in HP. destruct HP as (j & Hj & <-).
  rewrite update_length in Hj.
  change (CPS.isRestingContact
            (get CPS.default
               (update (ws_contactPointIndex st) (CPS.set_penetrationImpulse 0)
                  (mContactPoints (ws_solver st))) j) = false).
  destruct (Nat.eq_dec (ws_contactPointIndex st) j) as [->|Hne].
  - rewrite get_update_same by exact Hj. cbn.
    apply (Forall_get (fun P => CPS.isRestingContact P = false) CPS.default); auto.
  - rewrite get_update_other by exact Hne.
    apply (Forall_get (fun P => CPS.isRestingContact P = false) CPS.default); auto.
Qed.

(** X20.  When no contact-point record is flagged as resting (every contact is
    new), [warmStart] applies no impulse: the body store is unchanged, and
    every accumulated impulse of the records of well-formed arrays is reset to
    [0]. *)
Theorem warmStart_new_contacts (s : ContactSolverSystem) :
  wellFormed s ->
  Forall (fun P => CPS.isRestingContact P = false) (mContactPoints s) ->
  mRigidBodyComponents (warmStart s) = mRigidBodyComponents s /\
  (forall i, CPS.penetrationImpulse (point (warmStart s) i) = 0) /\
  (forall c, (c < mNbContactManifolds s)%nat ->
     constraint (warmStart s) c = CMS.set_impulses 0 0 0 Vec.zero (constraint s c)).
Proof.
  intros Hwf Hnew. split; [|split].
  - unfold warmStart.
    set (Q := fun t : ContactSolverSystem =>
                mRigidBodyComponents t = mRigidBodyComponents s /\
                Forall (fun P => CPS.isRestingContact P = false) (mContactPoints t)).
    enough (H : forall n, Q (fst (for_loop 0 n warmStartManifold (s, 0%nat))))
      by (apply H).
    induction n as [|n IH]; [split; [reflexivity | exact Hnew]|].
    rewrite for_loop_succ. simpl Nat.add.
    destruct (for_loop 0 n warmStartManifold (s, 0%nat)) as [t idx].
    cbn [fst] in IH. destruct IH as [I1 I2].
    unfold warmStartManifold. cbv beta iota zeta. cbn [fst].
    assert (HP : forall nb,
               let r := for_loop 0 nb (fun _ => warmStartPoint n)
                          (mkWarmStartLoop t idx false) in
               Q (ws_solver r) /\ ws_atLeastOneRestingContactPoint r = false).
    { induction nb as [|nb IHnb]; [repeat split; assumption|].
      cbv zeta. rewrite for_loop_succ. cbv zeta in IHnb.
      destruct IHnb as [[J1 J2] J3].
      destruct (warmStartPoint_new n _ J2) as (W1 & W2 & W3).
      unfold Q. rewrite W1, W3. repeat split; assumption. }
    specialize (HP (CMS.nbContacts (constraint t n))). cbv zeta in HP.
    destruct HP as [[J1 J2] J3]. rewrite J3.
    unfold Q, modConstraint. cbn [mRigidBodyComponents mContactPoints set_mContactConstraints].
    split; assumption.
  - intros i.
    destruct (Nat.lt_ge_cases i (List.length (mContactPoints s))) as [Hlt|Hge].
    + rewrite (warmStart_point s i Hwf Hlt).
      rewrite (Forall_get (fun P => CPS.isRestingContact P = false) CPS.default
                 (mContactPoints s) i Hnew eq_refl : CPS.isRestingContact (point s i) = false).
      reflexivity.
    + rewrite point_out_of_range; [reflexivity|].
      destruct (warmStart_unchanged s) as (_ & _ & F3 & _).
      apply (f_equal (@List.length _)) in F3. rewrite !length_map in F3. lia.
  - intros c Hc. destruct (warmStart_post s Hwf) as (_ & _ & _ & Hpost).
    destruct (Hpost c Hc) as (_ & _ & Hnone). apply Hnone.
    apply not_true_is_false. intros Hex.
    apply existsb_exists in Hex. destruct Hex as (P & HP & Hr).
    unfold pointsOfManifold, manifoldPoints in HP. apply in_map_iff in HP.
    destruct HP as (j & <- & _).
    rewrite (Forall_get (fun P => CPS.isRestingContact P = false) CPS.default
               (mContactPoints s) j Hnew eq_refl : CPS.isRestingContact (point s j) = false)
      in Hr.
    discriminate.
Qed.

Lemma slidingRecords_wellFormed : wellFormed slidingRecords.
Proof. split; reflexivity. Qed.

Lemma warmStart_new_contacts_witness :
  wellFormed slidingRecords /\
  Forall (fun P => CPS.isRestingContact P = false) (mContactPoints slidingRecords) /\
  mRigidBodyComponents (warmStart slidingRecords) = mRigidBodyComponents slidingRecords.
Proof.
  assert (H : Forall (fun P => CPS.isRestingContact P = false)
                (mContactPoints slidingRecords))
    by (constructor; [reflexivity | constructor]).
  split; [exact slidingRecords_wellFormed|]. split; [exact H|].
  exact (proj1 (warmStart_new_contacts slidingRecords slidingRecords_wellFormed H)).
Defined.

(** ** From [storeImpulses] to the next [init] *)

(** X21.  When [init] is handed back the external lists that [storeImpulses]
    has written, a contact-point record whose external contact point was
    flagged as resting starts from the penetration impulse that the record of
    the previous step had accumulated for that external contact point. *)
Theorem storeImpulses_init_round_trip (eps : R) (g : Vector3 -> Vector3) (timeStep : R)
  (s : ContactSolverSystem) (i : nat) (P : CPS.t) :
  let stored := storeImpulses s in
  let s' := init eps g (mAllContactManifolds stored) (mAllContactPoints stored)
              timeStep stored in
  let e := CPS.externalContact P in
  wellFormed s ->
  NoDup (map CPS.externalContact (mContactPoints s)) ->
  In P (mContactPoints s) ->
  (e < List.length (mAllContactPoints s))%nat ->
  ContactPoint.getIsRestingContact (get ContactPoint.default (mAllContactPoints s) e) = true ->
  (i < List.length (mContactPoints s'))%nat ->
  CPS.externalContact (point s' i) = e ->
  CPS.penetrationImpulse (point s' i) = CPS.penetrationImpulse P.
Proof.
  intros stored s' e Hwf Hnd HP He Hflag Hi Hext.
  destruct (storeImpulses_writes s Hwf) as (_ & _ & Ep).
  assert (Hget : get ContactPoint.default (mAllContactPoints stored) e =
                 ContactPoint.setPenetrationImpulse (CPS.penetrationImpulse P)
                   (get ContactPoint.default (mAllContactPoints s) e)).
  { unfold stored. rewrite Ep.
    apply (writes_lookup CPS.externalContact
             (fun P => ContactPoint.setPenetrationImpulse (CPS.penetrationImpulse P)));
      assumption. }
  destruct (init_point_records eps g (mAllContactManifolds stored)
              (mAllContactPoints stored) timeStep stored i Hi)
    as (_ & _ & A3 & _ & A5).
  fold s' in A3, A5. rewrite Hext in A3, A5. rewrite Hget in A3, A5.
  rewrite A3, A5; [reflexivity|]. exact Hflag.
Qed.

Lemma storeImpulses_init_round_trip_witness :
  let s := init epsilonFloat unitOrthogonalVector oneManifold slidingPoints (1 / 60)
             slidingSolver in
  let P := point s 0 in
  let stored := storeImpulses s in
  let s' := init epsilonFloat unitOrthogonalVector (mAllContactManifolds stored)
              (mAllContactPoints stored) (1 / 60) stored in
  let e := CPS.externalContact P in
  wellFormed s /\
  NoDup (map CPS.externalContact (mContactPoints s)) /\
  In P (mContactPoints s) /\
  (e < List.length (mAllContactPoints s))%nat /\
  ContactPoint.getIsRestingContact (get ContactPoint.default (mAllContactPoints s) e) = true /\
  (0 < List.length (mContactPoints s'))%nat /\
  CPS.externalContact (point s' 0) = e /\
  CPS.penetrationImpulse (point s' 0) = CPS.penetrationImpulse P.
Proof.
  intros s P stored s' e.
  assert (Hwf : wellFormed s) by apply init_wellFormed.
  assert (Hnd : NoDup (map CPS.externalContact (mContactPoints s))).
  { replace (map CPS.externalContact (mContactPoints s)) with [0%nat]
      by (lazy; reflexivity).
    constructor; [intros []|constructor]. }
  assert (HP : In P (mContactPoints s)).
  { unfold P, point, get. apply nth_In. lazy. lia. }
  assert (He : (e < List.length (mAllContactPoints s))%nat) by (lazy; lia).
  assert (Hflag : ContactPoint.getIsRestingContact
                    (get ContactPoint.default (mAllContactPoints s) e) = true)
    by (lazy; reflexivity).
  assert (Hi : (0 < List.length (mContactPoints s'))%nat) by (lazy; lia).
  assert (Hext : CPS.externalContact (point s' 0) = e) by (lazy; reflexivity).
  repeat (split; [assumption|]).
  exact (storeImpulses_init_round_trip epsilonFloat unitOrthogonalVector (1 / 60) s 0 P
           Hwf Hnd HP He Hflag Hi Hext).
Defined.

(** ** The friction impulses after [init] *)

Lemma existsb_resting_reset (l : list CPS.t) :
  existsb CPS.isRestingContact
    (map (fun P => if CPS.isRestingContact P then P else CPS.set_penetrationImpulse 0 P) l) =
  existsb CPS.isRestingContact l.
Proof.
  induction l as [|P l IH]; [reflexivity|].
  cbn [map existsb]. rewrite IH. f_equal.
  destruct (CPS.isRestingContact P) eqn:E; [exact E | exact E].
Qed.

(** X22.  After [init], the friction impulses of a manifold record with a
    resting contact point are the projections, on the tangent basis of this
    step, of the friction impulse that the external manifold stores with the
    tangent basis of the previous step, and the twist impulse is the stored
    one; the impulses of a manifold record without resting contact point are
    [0]. *)
Theorem init_friction_warm_start (eps : R) (g : Vector3 -> Vector3)
  (contactManifolds : list ContactManifold.t) (contactPoints : list ContactPoint.t)
  (timeStep : R) (s0 : ContactSolverSystem) (c : nat) :
  let s := init eps g contactManifolds contactPoints timeStep s0 in
  let M := constraint s c in
  let ext := get ContactManifold.default contactManifolds (CMS.externalContactManifold M) in
  let F_old :=
    Vec.add (Vec.scale (ContactManifold.frictionImpulse1 ext)
                       (ContactManifold.frictionVector1 ext))
            (Vec.scale (ContactManifold.frictionImpulse2 ext)
                       (ContactManifold.frictionVector2 ext)) in
  (c < mNbContactManifolds s)%nat ->
  (hasRestingContact s c = true ->
   CMS.friction1Impulse M = Vec.dot F_old (CMS.frictionVector1 M) /\
   CMS.friction2Impulse M = Vec.dot F_old (CMS.frictionVector2 M) /\
   CMS.frictionTwistImpulse M = ContactManifold.frictionTwistImpulse ext) /\
  (hasRestingContact s c = false ->
   CMS.friction1Impulse M = 0 /\ CMS.friction2Impulse M = 0 /\
   CMS.frictionTwistImpulse M = 0).
Proof.
  cbv zeta.
  set (Qm := fun M =>
    let ext := get ContactManifold.default contactManifolds (CMS.externalContactManifold M) in
    CMS.friction1Impulse M = ContactManifold.frictionImpulse1 ext /\
    CMS.friction2Impulse M = ContactManifold.frictionImpulse2 ext /\
    CMS.frictionTwistImpulse M = ContactManifold.frictionTwistImpulse ext /\
    CMS.oldFrictionVector1 M = ContactManifold.frictionVector1 ext /\
    CMS.oldFrictionVector2 M = ContactManifold.frictionVector2 ext).
  set (J := fun s => mAllContactManifolds s = contactManifolds /\
                     Forall Qm (mContactConstraints s)).
  apply (init_rule eps g J)
    with (Q := fun s =>
      (c < mNbContactManifolds s)%nat ->
      (hasRestingContact s c = true ->
       CMS.friction1Impulse (constraint s c) =
         Vec.dot (Vec.add
                    (Vec.scale (ContactManifold.frictionImpulse1
                       (get ContactManifold.default contactManifolds
                          (CMS.externalContactManifold (constraint s c))))
                       (ContactManifold.frictionVector1
                          (get ContactManifold.default contactManifolds
                             (CMS.externalContactManifold (constraint s c)))))
                    (Vec.scale (ContactManifold.frictionImpulse2
                       (get ContactManifold.default contactManifolds
                          (CMS.externalContactManifold (constraint s c))))
                       (ContactManifold.frictionVector2
                          (get ContactManifold.default contactManifolds
                             (CMS.externalContactManifold (constraint s c))))))
                 (CMS.frictionVector1 (constraint s c)) /\
       CMS.friction2Impulse (constraint s c) =
         Vec.dot (Vec.add
                    (Vec.scale (ContactManifold.frictionImpulse1
                       (get ContactManifold.default contactManifolds
                          (CMS.externalContactManifold (constraint s c))))
                       (ContactManifold.frictionVector1
                          (get ContactManifold.default contactManifolds
                             (CMS.externalContactManifold (constraint s c)))))
                    (Vec.scale (ContactManifold.frictionImpulse2
                       (get ContactManifold.default contactManifolds
                          (CMS.externalContactManifold (constraint s c))))
                       (ContactManifold.frictionVector2
                          (get ContactManifold.default contactManifolds
                             (CMS.externalContactManifold (constraint s c))))))
                 (CMS.frictionVector2 (constraint s c)) /\
       CMS.frictionTwistImpulse (constraint s c) =
         ContactManifold.frictionTwistImpulse
           (get ContactManifold.default contactManifolds
              (CMS.externalContactManifold (constraint s c)))) /\
      (hasRestingContact s c = false ->
       CMS.friction1Impulse (constraint s c) = 0 /\
       CMS.friction2Impulse (constraint s c) = 0 /\
       CMS.frictionTwistImpulse (constraint s c) = 0)).
  - intros M k b (H1 & H2).
    destruct (initContactPoint_state M k b) as (E1 & _ & _ & E4 & _).
    cbv zeta in *. unfold J. rewrite E1, E4. split; assumption.
  - intros m b. cbv zeta. intros (H1 & H2). unfold J in *.
    cbn [mContactConstraints mAllContactManifolds
         set_mNbContactManifolds set_mContactConstraints].
    split; [assumption|].
    apply Forall_app. split; [exact H2|]. constructor; [|constructor].
    unfold Qm, newContactManifoldSolver. cbv zeta.
    destruct (computeFrictionVectors _ _ _ _) as [f1 f2].
    cbn [CMS.externalContactManifold CMS.friction1Impulse CMS.friction2Impulse
         CMS.frictionTwistImpulse CMS.oldFrictionVector1 CMS.oldFrictionVector2].
    rewrite H1. repeat split.
  - unfold J, initReset. cbn. split; [reflexivity | constructor].
  - unfold initReset. cbn. intros H. lia.
  - intros t (H1 & H2) Hwf Hc.
    destruct (warmStart_post t Hwf) as (Hfr & Hst & _ & Hpost).
    assert (Hn : mNbContactManifolds (warmStart t) = mNbContactManifolds t)
      by (now apply solverFrame_nb).
    rewrite Hn in Hc.
    destruct (Hpost c Hc) as (Hmap & Hrest & Hnew).
    assert (Hany : hasRestingContact (warmStart t) c =
                   existsb CPS.isRestingContact (pointsOfManifold t c)).
    { unfold hasRestingContact. rewrite Hmap. apply existsb_resting_reset. }
    assert (HM : Qm (constraint t c)).
    { rewrite Forall_forall in H2. apply H2. unfold constraint, get. apply nth_In.
      destruct Hwf as [Hw _]. lia. }
    destruct HM as (A1 & A2 & A3 & A4 & A5).
    rewrite Hany. split.
    + intros Htrue. rewrite (Hrest Htrue).
      cbn [CMS.set_impulses CMS.externalContactManifold CMS.friction1Impulse
           CMS.friction2Impulse CMS.frictionTwistImpulse CMS.frictionVector1
           CMS.frictionVector2].
      rewrite A1, A2, A3, A4, A5. repeat split.
    + intros Hfalse. rewrite (Hnew Hfalse). repeat split.
Qed.

Lemma init_friction_warm_start_witness :
  let s := init epsilonFloat unitOrthogonalVector oneManifold slidingPoints (1 / 60)
             slidingSolver in
  let M := constraint s 0 in
  (0 < mNbContactManifolds s)%nat /\
  (hasRestingContact s 0 = false ->
   CMS.friction1Impulse M = 0 /\ CMS.friction2Impulse M = 0 /\
   CMS.frictionTwistImpulse M = 0).
Proof.
  intros s M.
  assert (H : (0 < mNbContactManifolds s)%nat) by (lazy; lia).
  split; [exact H|].
  exact (proj2 (init_friction_warm_start epsilonFloat unitOrthogonalVector oneManifold
                  slidingPoints (1 / 60) slidingSolver 0 H)).
Defined.

(** ** The twist and rolling resistance steps *)

Lemma solveTwist_velocities (c : nat) (sum : R) (s : ContactSolverSystem) :
  let M := constraint s c in
  let i1 := CMS.rigidBodyComponentIndexBody1 M in
  let i2 := CMS.rigidBodyComponentIndexBody2 M in
  let d := clampImpulse (CMS.frictionTwistImpulse M +
                         - twistJv c s * CMS.inverseTwistFrictionMass M)
             (CMS.frictionCoefficient M * sum) - CMS.frictionTwistImpulse M in
  RBC.mConstrainedAngularVelocities (mRigidBodyComponents (solveTwist c sum s)) =
    update i2 (fun v => Vec.add v (Mat.mulv (CMS.inverseInertiaTensorBody2 M)
                                     (Vec.mulr (CMS.normal M) d)))
      (update i1 (fun v => Vec.sub v (Mat.mulv (CMS.inverseInertiaTensorBody1 M)
                                        (Vec.mulr (CMS.normal M) d)))
         (RBC.mConstrainedAngularVelocities (mRigidBodyComponents s))).
Proof. cbv zeta. effect. Qed.

(** X23.  A twist friction step whose impulse stays inside the friction limit
    brings the relative spin about the manifold normal to zero: for a manifold
    record with the inverse effective mass that [initializeForIsland] computes
    and two distinct bodies, [Jv] is [0] after the step. *)
Theorem solveTwist_stops_spinning (c : nat) (sum : R) (s : ContactSolverSystem) :
  let M := constraint s c in
  let i1 := CMS.rigidBodyComponentIndexBody1 M in
  let i2 := CMS.rigidBodyComponentIndexBody2 M in
  let limit := CMS.frictionCoefficient M * sum in
  let rb := mRigidBodyComponents s in
  i1 <> i2 ->
  (i1 < List.length (RBC.mConstrainedAngularVelocities rb))%nat ->
  (i2 < List.length (RBC.mConstrainedAngularVelocities rb))%nat ->
  0 < twistMass M ->
  CMS.inverseTwistFrictionMass M = inverseMass (twistMass M) ->
  - limit <= CMS.frictionTwistImpulse M + - twistJv c s * CMS.inverseTwistFrictionMass M
          <= limit ->
  twistJv c (solveTwist c sum s) = 0.
Proof.
  intros M i1 i2 limit rb Hne H1 H2 HK Hinv Hin.
  pose proof (solveTwist_velocities c sum s) as EA. cbv zeta in EA.
  fold M i1 i2 limit in EA. rewrite (clampImpulse_inside _ _ Hin) in EA.
  set (d := CMS.frictionTwistImpulse M + - twistJv c s * CMS.inverseTwistFrictionMass M -
            CMS.frictionTwistImpulse M) in *.
  pose proof (constraint_static s _ c (solveTwist_static c sum s)) as Hst.
  assert (E : forall (A : Type) (p : CMS.t -> A),
            (forall N, p (staticManifold N) = p N) ->
            p (constraint (solveTwist c sum s) c) = p M).
  { intros A p Hp. rewrite <- (Hp (constraint _ c)), <- (Hp M). unfold M. now rewrite Hst. }
  assert (HJ : forall u, twistJv c u =
             Vec.dot (Vec.sub (CAV u (CMS.rigidBodyComponentIndexBody2 (constraint u c)))
                              (CAV u (CMS.rigidBodyComponentIndexBody1 (constraint u c))))
                     (CMS.normal (constraint u c))) by reflexivity.
  rewrite HJ.
  rewrite (E _ CMS.rigidBodyComponentIndexBody1), (E _ CMS.rigidBodyComponentIndexBody2),
    (E _ CMS.normal) by reflexivity.
  fold i1 i2. unfold CAV. rewrite EA.
  repeat ((rewrite get_update_other by congruence) ||
          (rewrite get_update_same by (rewrite ?update_length; assumption))).
  rewrite !mulv_mulr.
  set (w1 := get Vec.zero (RBC.mConstrainedAngularVelocities (mRigidBodyComponents s)) i1).
  set (w2 := get Vec.zero (RBC.mConstrainedAngularVelocities (mRigidBodyComponents s)) i2).
  assert (HJ0 : twistJv c s = Vec.dot (Vec.sub w2 w1) (CMS.normal M)) by reflexivity.
  assert (Hd : d = - Vec.dot (Vec.sub w2 w1) (CMS.normal M) / twistMass M).
  { unfold d. rewrite Hinv, inverseMass_pos, HJ0 by exact HK. field. lra. }
  replace (Vec.dot
             (Vec.sub
                (Vec.add w2 (Vec.mulr (Mat.mulv (CMS.inverseInertiaTensorBody2 M) (CMS.normal M)) d))
                (Vec.sub w1 (Vec.mulr (Mat.mulv (CMS.inverseInertiaTensorBody1 M) (CMS.normal M)) d)))
             (CMS.normal M))
    with (Vec.dot (Vec.sub w2 w1) (CMS.normal M) + d * twistMass M)
    by (unfold twistMass, Vec.dot, Vec.sub, Vec.add, Vec.mulr; simpl; ring).
  rewrite Hd. field. lra.
Qed.

Lemma solveTwist_stops_spinning_witness :
  let s := rollingRecords in
  let M := constraint s 0 in
  let i1 := CMS.rigidBodyComponentIndexBody1 M in
  let i2 := CMS.rigidBodyComponentIndexBody2 M in
  let rb := mRigidBodyComponents s in
  i1 <> i2 /\
  (i1 < List.length (RBC.mConstrainedAngularVelocities rb))%nat /\
  (i2 < List.length (RBC.mConstrainedAngularVelocities rb))%nat /\
  0 < twistMass M /\
  CMS.inverseTwistFrictionMass M = inverseMass (twistMass M) /\
  - (CMS.frictionCoefficient M * 4) <=
    CMS.frictionTwistImpulse M + - twistJv 0 s * CMS.inverseTwistFrictionMass M <=
    CMS.frictionCoefficient M * 4 /\
  twistJv 0 (solveTwist 0 4 s) = 0.
Proof.
  intros s M i1 i2 rb.
  assert (H0 : i1 <> i2) by (cbn; lia).
  assert (H1 : (i1 < List.length (RBC.mConstrainedAngularVelocities rb))%nat) by (cbn; lia).
  assert (H2 : (i2 < List.length (RBC.mConstrainedAngularVelocities rb))%nat) by (cbn; lia).
  assert (EK : twistMass M = 1).
  { unfold twistMass, M, constraint, get, s, rollingRecords, rollingManifoldRecord,
      Vec.dot, Mat.mulv, identity, Mat.zero, Vec.zero; cbn. unfold Vec.dot; cbn. lra. }
  assert (EJ : twistJv 0 s = 1).
  { unfold twistJv, CAV, constraint, get, s, rollingRecords, rollingManifoldRecord,
      Vec.sub, Vec.zero; cbn. lra. }
  assert (HK : 0 < twistMass M) by (rewrite EK; lra).
  assert (Hinv : CMS.inverseTwistFrictionMass M = inverseMass (twistMass M))
    by (rewrite EK, inverseMass_pos by lra; cbn; lra).
  assert (Hin : - (CMS.frictionCoefficient M * 4) <=
                CMS.frictionTwistImpulse M + - twistJv 0 s * CMS.inverseTwistFrictionMass M <=
                CMS.frictionCoefficient M * 4)
    by (rewrite EJ; cbn; lra).
  repeat (split; [assumption|]).
  exact (solveTwist_stops_spinning 0 4 s H0 H1 H2 HK Hinv Hin).
Defined.

Lemma solveRolling_velocities (clamp : Vector3 -> R -> Vector3) (c : nat) (sum : R)
  (s : ContactSolverSystem) :
  let M := constraint s c in
  let i1 := CMS.rigidBodyComponentIndexBody1 M in
  let i2 := CMS.rigidBodyComponentIndexBody2 M in
  let JvRolling := Vec.sub (CAV s i2) (CAV s i1) in
  let d := Vec.sub
             (clamp (Vec.add (CMS.rollingResistanceImpulse M)
                       (Mat.mulv (CMS.inverseRollingResistance M) (Vec.neg JvRolling)))
                    (CMS.rollingResistanceFactor M * sum))
             (CMS.rollingResistanceImpulse M) in
  0 < CMS.rollingResistanceFactor M ->
  RBC.mConstrainedAngularVelocities (mRigidBodyComponents (solveRolling clamp c sum s)) =
    update i2 (fun v => Vec.add v (Mat.mulv (CMS.inverseInertiaTensorBody2 M) d))
      (update i1 (fun v => Vec.sub v (Mat.mulv (CMS.inverseInertiaTensorBody1 M) d))
         (RBC.mConstrainedAngularVelocities (mRigidBodyComponents s))).
Proof.
  cbv zeta. intros H. unfold solveRolling. rewrite Rgtb_true by lra.
  lazy -[constraint update get Rplus Rminus Rmult Ropp Vec.add Vec.sub Vec.neg Mat.mulv].
  reflexivity.
Qed.

(** X24.  A rolling resistance step whose impulse is not shortened by [clamp]
    brings the relative angular velocity of the two bodies to zero, when the
    manifold record holds the inverse of the sum of the two inverse inertia
    tensors. *)
Theorem solveRolling_stops_rolling (clamp : Vector3 -> R -> Vector3) (c : nat) (sum : R)
  (s : ContactSolverSystem) :
  let M := constraint s c in
  let i1 := CMS.rigidBodyComponentIndexBody1 M in
  let i2 := CMS.rigidBodyComponentIndexBody2 M in
  let rb := mRigidBodyComponents s in
  let JvRolling := Vec.sub (CAV s i2) (CAV s i1) in
  let unclamped :=
    Vec.add (CMS.rollingResistanceImpulse M)
            (Mat.mulv (CMS.inverseRollingResistance M) (Vec.neg JvRolling)) in
  let s' := solveRolling clamp c sum s in
  0 < CMS.rollingResistanceFactor M ->
  i1 <> i2 ->
  (i1 < List.length (RBC.mConstrainedAngularVelocities rb))%nat ->
  (i2 < List.length (RBC.mConstrainedAngularVelocities rb))%nat ->
  (forall v, Mat.mulv (Mat.add (CMS.inverseInertiaTensorBody1 M)
                               (CMS.inverseInertiaTensorBody2 M))
                      (Mat.mulv (CMS.inverseRollingResistance M) v) = v) ->
  clamp unclamped (CMS.rollingResistanceFactor M * sum) = unclamped ->
  Vec.sub (CAV s' i2) (CAV s' i1) = Vec.zero.
Proof.
  intros M i1 i2 rb JvRolling unclamped s' Hrho Hne H1 H2 Hinv Hclamp.
  pose proof (solveRolling_velocities clamp c sum s Hrho) as EA. cbv zeta in EA.
  fold M i1 i2 in EA. fold JvRolling in EA. fold unclamped in EA. rewrite Hclamp in EA.
  unfold s', CAV. rewrite EA.
  repeat ((rewrite get_update_other by congruence) ||
          (rewrite get_update_same by (rewrite ?update_length; assumption))).
  set (w1 := get Vec.zero (RBC.mConstrainedAngularVelocities (mRigidBodyComponents s)) i1).
  set (w2 := get Vec.zero (RBC.mConstrainedAngularVelocities (mRigidBodyComponents s)) i2).
  set (d := Mat.mulv (CMS.inverseRollingResistance M) (Vec.neg JvRolling)).
  assert (Hd : Vec.sub unclamped (CMS.rollingResistanceImpulse M) = d).
  { unfold unclamped. fold d. apply Vector3_eq; unfold Vec.sub, Vec.add; simpl; ring. }
  rewrite Hd.
  assert (Hsum : Vec.sub (Vec.add w2 (Mat.mulv (CMS.inverseInertiaTensorBody2 M) d))
                         (Vec.sub w1 (Mat.mulv (CMS.inverseInertiaTensorBody1 M) d)) =
                 Vec.add (Vec.sub w2 w1)
                   (Mat.mulv (Mat.add (CMS.inverseInertiaTensorBody1 M)
                                      (CMS.inverseInertiaTensorBody2 M)) d)).
  { apply Vector3_eq; unfold Vec.sub, Vec.add, Mat.mulv, Mat.add, Vec.dot; simpl; ring. }
  rewrite Hsum. unfold d. rewrite Hinv.
  change (Vec.sub w2 w1) with JvRolling.
  apply Vector3_eq; unfold Vec.add, Vec.neg, Vec.zero; simpl; ring.
Qed.

Lemma solveRolling_stops_rolling_witness :
  let s := rollingRecords in
  let M := constraint s 0 in
  let i1 := CMS.rigidBodyComponentIndexBody1 M in
  let i2 := CMS.rigidBodyComponentIndexBody2 M in
  let rb := mRigidBodyComponents s in
  let JvRolling := Vec.sub (CAV s i2) (CAV s i1) in
  let unclamped :=
    Vec.add (CMS.rollingResistanceImpulse M)
            (Mat.mulv (CMS.inverseRollingResistance M) (Vec.neg JvRolling)) in
  let s' := solveRolling clampToLength 0 2 s in
  0 < CMS.rollingResistanceFactor M /\
  i1 <> i2 /\
  (i1 < List.length (RBC.mConstrainedAngularVelocities rb))%nat /\
  (i2 < List.length (RBC.mConstrainedAngularVelocities rb))%nat /\
  (forall v, Mat.mulv (Mat.add (CMS.inverseInertiaTensorBody1 M)
                               (CMS.inverseInertiaTensorBody2 M))
                      (Mat.mulv (CMS.inverseRollingResistance M) v) = v) /\
  clampToLength unclamped (CMS.rollingResistanceFactor M * 2) = unclamped /\
  Vec.sub (CAV s' i2) (CAV s' i1) = Vec.zero.
Proof.
  intros s M i1 i2 rb JvRolling unclamped s'.
  assert (Hrho : 0 < CMS.rollingResistanceFactor M) by (cbn; lra).
  assert (H0 : i1 <> i2) by (cbn; lia).
  assert (H1 : (i1 < List.length (RBC.mConstrainedAngularVelocities rb))%nat) by (cbn; lia).
  assert (H2 : (i2 < List.length (RBC.mConstrainedAngularVelocities rb))%nat) by (cbn; lia).
  assert (Hinv : forall v, Mat.mulv (Mat.add (CMS.inverseInertiaTensorBody1 M)
                                             (CMS.inverseInertiaTensorBody2 M))
                             (Mat.mulv (CMS.inverseRollingResistance M) v) = v).
  { intros [a b c]. apply Vector3_eq;
      unfold M, constraint, get, s, rollingRecords, rollingManifoldRecord, Mat.mulv,
        Mat.add, identity, Mat.zero, Vec.dot, Vec.add, Vec.zero; cbn; ring. }
  assert (Hclamp : clampToLength unclamped (CMS.rollingResistanceFactor M * 2) = unclamped).
  { unfold clampToLength. rewrite Rgtb_false; [reflexivity|].
    unfold unclamped, JvRolling, CAV, M, i1, i2, constraint, get, s, rollingRecords,
      rollingManifoldRecord, Vec.lengthSquare, Mat.mulv, identity, Vec.dot, Vec.add,
      Vec.sub, Vec.neg, Vec.zero; cbn. lra. }
  repeat (split; [assumption|]).
  exact (solveRolling_stops_rolling clampToLength 0 2 s Hrho H0 H1 H2 Hinv Hclamp).
Defined.

(** ** The split impulse within the slop *)

Lemma update_fixed {A : Type} (d : A) (i : nat) (f : A -> A) (l : list A) :
  f (get d l i) = get d l i -> update i f l = l.
Proof.
  unfold get. revert i; induction l as [|a l IH]; intros [|i] H; simpl in *; auto.
  - now rewrite H.
  - now rewrite IH.
Qed.

Lemma set_penetrationSplitImpulse_same (P : CPS.t) :
  CPS.set_penetrationSplitImpulse (CPS.penetrationSplitImpulse P) P = P.
Proof. destruct P; reflexivity. Qed.

Lemma modPoint_fixed (i : nat) (f : CPS.t -> CPS.t) (s : ContactSolverSystem) :
  f (point s i) = point s i -> modPoint i f s = s.
Proof.
  intros H. unfold modPoint. rewrite (update_fixed CPS.default) by exact H.
  destruct s; reflexivity.
Qed.

Lemma modSLV_id (i : nat) (f : Vector3 -> Vector3) (s : ContactSolverSystem) :
  (forall v, f v = v) -> modSLV i f s = s.
Proof.
  intros H. unfold modSLV, RBC.modSplitLinearVelocities. rewrite update_same by exact H.
  destruct s as [? ? ? ? ? ? ? ? ? ? rb ?]; destruct rb; reflexivity.
Qed.

Lemma modSAV_id (i : nat) (f : Vector3 -> Vector3) (s : ContactSolverSystem) :
  (forall v, f v = v) -> modSAV i f s = s.
Proof.
  intros H. unfold modSAV, RBC.modSplitAngularVelocities. rewrite update_same by exact H.
  destruct s as [? ? ? ? ? ? ? ? ? ? rb ?]; destruct rb; reflexivity.
Qed.

(** X25.  No position correction within the slop: for a contact point whose
    penetration depth does not exceed [SLOP], with no accumulated split
    impulse and with the split velocities of its two bodies at zero, the
    split-impulse step changes nothing. *)
Theorem solveSplit_within_slop (beta : R) (c i : nat) (s : ContactSolverSystem) :
  let M := constraint s c in
  let P := point s i in
  let i1 := CMS.rigidBodyComponentIndexBody1 M in
  let i2 := CMS.rigidBodyComponentIndexBody2 M in
  CPS.penetrationDepth P <= SLOP ->
  CPS.penetrationSplitImpulse P = 0 ->
  SLV s i1 = Vec.zero -> SAV s i1 = Vec.zero ->
  SLV s i2 = Vec.zero -> SAV s i2 = Vec.zero ->
  solveSplit beta c i s = s.
Proof.
  intros M P i1 i2 Hd Hl V1 W1 V2 W2.
  assert (Hdl : splitDeltaLambda beta c i s = 0).
  { unfold splitDeltaLambda. cbv zeta. fold M P i1 i2.
    rewrite V1, W1, V2, W2.
    unfold biasPenetrationDepth. rewrite Rgtb_false by exact Hd.
    unfold deltaV_solve, Vec.zero; cbn. ring. }
  unfold solveSplit. cbv zeta. fold M P i1 i2. rewrite Hdl, Hl.
  replace (Rmax (0 + 0) 0) with 0 by (rewrite Rplus_0_l, Rmax_left; lra).
  rewrite (modPoint_fixed i) by (fold P; rewrite <- Hl; apply set_penetrationSplitImpulse_same).
  rewrite modSLV_id
    by (intros v; apply Vector3_eq; unfold Vec.sub, Vec.scale, Vec.mulr; simpl; ring).
  rewrite modSAV_id
    by (intros v; apply Vector3_eq; unfold Vec.sub, Vec.mulr; simpl; ring).
  rewrite modSLV_id
    by (intros v; apply Vector3_eq; unfold Vec.add, Vec.scale, Vec.mulr; simpl; ring).
  rewrite modSAV_id
    by (intros v; apply Vector3_eq; unfold Vec.add, Vec.mulr; simpl; ring).
  reflexivity.
Qed.

Lemma solveSplit_within_slop_witness :
  let s := slidingRecords in
  let M := constraint s 0 in
  let P := point s 0 in
  let i1 := CMS.rigidBodyComponentIndexBody1 M in
  let i2 := CMS.rigidBodyComponentIndexBody2 M in
  CPS.penetrationDepth P <= SLOP /\
  CPS.penetrationSplitImpulse P = 0 /\
  SLV s i1 = Vec.zero /\ SAV s i1 = Vec.zero /\
  SLV s i2 = Vec.zero /\ SAV s i2 = Vec.zero /\
  solveSplit BETA_SPLIT_IMPULSE 0 0 s = s.
Proof.
  intros s M P i1 i2.
  assert (Hd : CPS.penetrationDepth P <= SLOP) by (unfold SLOP; cbn; lra).
  assert (Hl : CPS.penetrationSplitImpulse P = 0) by reflexivity.
  assert (V1 : SLV s i1 = Vec.zero) by reflexivity.
  assert (W1 : SAV s i1 = Vec.zero) by reflexivity.
  assert (V2 : SLV s i2 = Vec.zero) by reflexivity.
  assert (W2 : SAV s i2 = Vec.zero) by reflexivity.
  repeat (split; [assumption|]).
  exact (solveSplit_within_slop BETA_SPLIT_IMPULSE 0 0 s Hd Hl V1 W1 V2 W2).
Defined.

(** ** The effective masses that [init] leaves in the manifold records *)

(** X26.  After [init], every manifold record holds the lever arms and the
    inverse effective masses of its own fields: the four lever arms are the
    cross products of the friction-point offsets with the friction vectors,
    and the three inverse masses are the guarded reciprocals of the two
    friction masses and of the twist mass. *)
Theorem init_effective_masses (eps : R) (g : Vector3 -> Vector3)
  (contactManifolds : list ContactManifold.t) (contactPoints : list ContactPoint.t)
  (timeStep : R) (s0 : ContactSolverSystem) (c : nat) :
  let M := constraint (init eps g contactManifolds contactPoints timeStep s0) c in
  CMS.r1CrossT1 M = Vec.cross (CMS.r1Friction M) (CMS.frictionVector1 M) /\
  CMS.r1CrossT2 M = Vec.cross (CMS.r1Friction M) (CMS.frictionVector2 M) /\
  CMS.r2CrossT1 M = Vec.cross (CMS.r2Friction M) (CMS.frictionVector1 M) /\
  CMS.r2CrossT2 M = Vec.cross (CMS.r2Friction M) (CMS.frictionVector2 M) /\
  CMS.inverseFriction1Mass M = inverseMass (frictionMass false M) /\
  CMS.inverseFriction2Mass M = inverseMass (frictionMass true M) /\
  CMS.inverseTwistFrictionMass M = inverseMass (twistMass M).
Proof.
  cbv zeta.
  set (Qm := fun M =>
    CMS.r1CrossT1 M = Vec.cross (CMS.r1Friction M) (CMS.frictionVector1 M) /\
    CMS.r1CrossT2 M = Vec.cross (CMS.r1Friction M) (CMS.frictionVector2 M) /\
    CMS.r2CrossT1 M = Vec.cross (CMS.r2Friction M) (CMS.frictionVector1 M) /\
    CMS.r2CrossT2 M = Vec.cross (CMS.r2Friction M) (CMS.frictionVector2 M) /\
    CMS.inverseFriction1Mass M = inverseMass (frictionMass false M) /\
    CMS.inverseFriction2Mass M = inverseMass (frictionMass true M) /\
    CMS.inverseTwistFrictionMass M = inverseMass (twistMass M)).
  set (J := fun s => Forall Qm (mContactConstraints s)).
  assert (Hd : Qm CMS.default).
  { unfold Qm, frictionMass, twistMass. cbn.
    assert (Hz : Vec.cross Vec.zero Vec.zero = Vec.zero)
      by (apply Vector3_eq; unfold Vec.cross, Vec.zero; simpl; ring).
    rewrite Hz.
    assert (H0 : inverseMass (0 + 0 + Vec.dot (Vec.cross (Mat.mulv Mat.zero Vec.zero) Vec.zero)
                                        Vec.zero +
                              Vec.dot (Vec.cross (Mat.mulv Mat.zero Vec.zero) Vec.zero)
                                Vec.zero) = 0).
    { apply inverseMass_nonpos. unfold Vec.dot, Vec.cross, Mat.mulv, Mat.zero, Vec.zero; cbn.
      unfold Vec.dot; cbn. lra. }
    assert (H1 : inverseMass (Vec.dot Vec.zero (Mat.mulv Mat.zero Vec.zero) +
                              Vec.dot Vec.zero (Mat.mulv Mat.zero Vec.zero)) = 0).
    { apply inverseMass_nonpos. unfold Vec.dot, Mat.mulv, Mat.zero, Vec.zero; cbn.
      unfold Vec.dot; cbn. lra. }
    rewrite H0, H1. repeat split. }
  apply (init_rule eps g J) with (Q := fun s => Qm (constraint s c)).
  - intros M k b H. destruct (initContactPoint_state M k b) as (E1 & _).
    cbv zeta in E1. unfold J. now rewrite E1.
  - intros m b. cbv zeta. intros H. unfold J in *.
    cbn [mContactConstraints set_mNbContactManifolds set_mContactConstraints].
    apply Forall_app. split; [exact H|]. constructor; [|constructor].
    unfold Qm, frictionMass, twistMass, newContactManifoldSolver. cbv zeta.
    destruct (computeFrictionVectors _ _ _ _) as [f1 f2].
    cbn [CMS.r1CrossT1 CMS.r1CrossT2 CMS.r2CrossT1 CMS.r2CrossT2 CMS.r1Friction
         CMS.r2Friction CMS.frictionVector1 CMS.frictionVector2 CMS.inverseFriction1Mass
         CMS.inverseFriction2Mass CMS.inverseTwistFrictionMass CMS.massInverseBody1
         CMS.massInverseBody2 CMS.inverseInertiaTensorBody1 CMS.inverseInertiaTensorBody2
         CMS.normal].
    repeat split.
  - unfold J, initReset. cbn. constructor.
  - rewrite constraint_out_of_range by (cbn; lia). exact Hd.
  - intros t Ht Hwf.
    destruct (warmStart_unchanged t) as (_ & _ & _ & F4).
    pose proof (constraint_static t (warmStart t) c F4) as E.
    assert (Hc : Qm (constraint t c))
      by (apply (Forall_get Qm CMS.default (mContactConstraints t) c); assumption).
    change (Qm (staticManifold (constraint (warmStart t) c))).
    rewrite E. exact Hc.
Qed.
